(** * Trie-based regex compiler of the grammar update script

    A shallow embedding of [createOptimizedRegex] (with its inner functions
    [buildTrie], [trieToRegex] and [escapeRegexChar]) and of the part of the
    script that writes the SLua standard-library rules, followed by the
    properties of the emitted patterns. The LSL part of the same script
    and [convertType] of the definitions synthesizer are embedded as well.

    Strings are sequences of characters in the range U+0000..U+00FF (the
    type [ascii] read as a code point), so that iterating a string with
    [for (const char of str)] visits exactly the elements of the [string].
    The subject of a match may also hold characters outside that range
    ([Wide]): there the lower-case mapping and the case folding of the
    ignore-case mode differ.
    The regular-expression matcher is not part of the script: the patterns
    are read with the ECMAScript pattern grammar restricted to the syntax
    the compiler can emit (plus the wildcard), and matched by a
    backtracking matcher that lists the successes in priority order. *)

From Stdlib Require Import List Bool Arith Lia Ascii String NArith ZArith.
Import ListNotations.
Open Scope string_scope.
Set Warnings "-register-all".

(* ================================================================== *)
(** ** JavaScript values and built-ins used by the script *)

Module JS.

(** The values a caller can pass as [strings] or as elements of it. *)
Inductive JsValue : Type :=
| JUndefined
| JNull
| JBoolean (b : bool)
| JNumber (z : Z)
| JString (s : string)
| JArray (elems : list JsValue).

(** A call either returns or throws [new Error(message)]. *)
Inductive result (A : Type) : Type :=
| Return (a : A)
| Throw (message : string).
Arguments Return {A} a.
Arguments Throw {A} message.

(** [Array.isArray(v)] *)
Definition isArray (v : JsValue) : bool :=
  match v with JArray _ => true | _ => false end.

(** ToBoolean *)
Definition truthy (v : JsValue) : bool :=
  match v with
  | JUndefined | JNull => false
  | JBoolean b => b
  | JNumber z => negb (Z.eqb z 0)
  | JString s => negb (String.eqb s "")
  | JArray _ => true
  end.

(** [typeof v === 'string'] *)
Definition typeofString (v : JsValue) : bool :=
  match v with JString _ => true | _ => false end.

(** The strings among a list of values (what remains of a list whose
    elements all satisfy [typeof s === 'string']). *)
Fixpoint stringsOf (l : list JsValue) : list string :=
  match l with
  | [] => []
  | JString s :: l' => s :: stringsOf l'
  | _ :: l' => stringsOf l'
  end.

(** [set.add(x)] on a [Set] kept as the list of its elements in insertion
    order: an element already present keeps its place. *)
Definition setAdd (x : string) (set : list string) : list string :=
  if existsb (String.eqb x) set then set else (set ++ [x])%list.

(** [[...new Set(l)]] *)
Definition newSet (l : list string) : list string :=
  fold_left (fun set x => setAdd x set) l [].

(** Lower-case mapping of one character of U+0000..U+00FF:
    A-Z, and the letters U+00C0..U+00DE but the multiplication sign. *)
Definition lowerChar (c : ascii) : ascii :=
  let n := nat_of_ascii c in
  if (((65 <=? n) && (n <=? 90))
      || ((192 <=? n) && (n <=? 222) && negb (n =? 215)))%nat
  then ascii_of_nat (n + 32) else c.

(** [str.toLowerCase()] *)
Fixpoint toLowerCase (s : string) : string :=
  match s with
  | EmptyString => EmptyString
  | String c s' => String (lowerChar c) (toLowerCase s')
  end.

(** [s.startsWith(p)] *)
Definition startsWith (p s : string) : bool := String.prefix p s.

End JS.
Export JS.

(* ================================================================== *)
(** ** The compiler: [createOptimizedRegex] *)

(** The characters of the class [/[.*+?^${}()|[\]\\]/]. *)
Definition specialChars (c : ascii) : bool :=
  existsb (Ascii.eqb c)
    ["."; "*"; "+"; "?"; "^"; "$"; "{"; "}"; "("; ")"; "|"; "["; "]"; "\"]%char.

(** [char.replace(specialChars, '\\$&')]: every special character of the
    argument is replaced by a backslash followed by itself. *)
Fixpoint escapeRegexChar (char : string) : string :=
  match char with
  | EmptyString => EmptyString
  | String c rest =>
      if specialChars c then String "\" (String c (escapeRegexChar rest))
      else String c (escapeRegexChar rest)
  end.

(** [class TrieNode]: [children] is a [Map] from one character to a node,
    kept as an association list in insertion order. *)
Inductive TrieNode : Type :=
| Node (children : list (ascii * TrieNode)) (isEndOfWord : bool).

Definition children (node : TrieNode) : list (ascii * TrieNode) :=
  match node with Node ch _ => ch end.

Definition isEndOfWord (node : TrieNode) : bool :=
  match node with Node _ e => e end.

(** [new TrieNode()] *)
Definition newTrieNode : TrieNode := Node [] false.

(** One step of the inner loop of [buildTrie] seen from the parent's map:
    the child under [char] is created if [children.has(char)] is false (a new
    key goes last), and the rest of the walk [k] is applied to it. *)
Fixpoint descend (char : ascii) (k : TrieNode -> TrieNode)
    (m : list (ascii * TrieNode)) : list (ascii * TrieNode) :=
  match m with
  | [] => [(char, k newTrieNode)]
  | (key, child) :: m' =>
      if Ascii.eqb key char then (key, k child) :: m'
      else (key, child) :: descend char k m'
  end.

(** The body of the outer loop of [buildTrie] for one processed string:
    walk down from [current], then set [isEndOfWord]. *)
Fixpoint insertWord (processedStr : string) (current : TrieNode) : TrieNode :=
  match processedStr with
  | EmptyString => Node (children current) true
  | String char rest =>
      Node (descend char (insertWord rest) (children current))
           (isEndOfWord current)
  end.

(** [caseInsensitive ? str.toLowerCase() : str] *)
Definition processed (caseInsensitive : bool) (str : string) : string :=
  if caseInsensitive then toLowerCase str else str.

Definition buildTrie (caseInsensitive : bool) (strings : list string)
    : TrieNode :=
  fold_left
    (fun root str => insertWord (processed caseInsensitive str) root)
    strings newTrieNode.

(** The last statement of [trieToRegex]: combine the alternatives. *)
Definition combineAlternatives (alternatives : list string) : string :=
  match alternatives with
  | [] => ""
  | [a] => a
  | _ => "(?:" ++ String.concat "|" alternatives ++ ")"
  end.

Definition isEmptyString (s : string) : bool :=
  match s with EmptyString => true | _ => false end.

Definition isEmptyMap (m : list (ascii * TrieNode)) : bool :=
  match m with [] => true | _ => false end.

(** What one iteration of the loop of [trieToRegex] pushes, given the
    pattern already computed for the child. *)
Definition pushed (char : ascii) (childNode : TrieNode)
    (childPattern : string) : list string :=
  let esc := escapeRegexChar (String char EmptyString) in
  if isEndOfWord childNode && isEmptyMap (children childNode) then
    [esc]
  else if isEndOfWord childNode && negb (isEmptyMap (children childNode)) then
    if negb (isEmptyString childPattern)
    then [esc ++ "(?:" ++ childPattern ++ ")?"]
    else [esc]
  else if negb (isEmptyMap (children childNode)) then
    [esc ++ childPattern]
  else [].

Fixpoint trieToRegex (node : TrieNode) : string :=
  match node with
  | Node ch _ =>
      if isEmptyMap ch then ""
      else
        let alternatives :=
          (fix loop (cs : list (ascii * TrieNode)) : list string :=
             match cs with
             | [] => []
             | (char, childNode) :: cs' =>
                 (pushed char childNode (trieToRegex childNode) ++ loop cs')%list
             end) ch in
        combineAlternatives alternatives
  end.

(** The [alternatives] array after the loop over a map of children. *)
Fixpoint alternativesOf (cs : list (ascii * TrieNode)) : list string :=
  match cs with
  | [] => []
  | (char, childNode) :: cs' =>
      (pushed char childNode (trieToRegex childNode) ++ alternativesOf cs')%list
  end.

(** The [options] argument; a field is [None] when the property is absent. *)
Record Options : Type := mkOptions {
  wordBoundaries : option bool;
  caseInsensitive : option bool
}.

(** The object literal [{}], default of the parameter [options]. *)
Definition emptyOptions : Options := mkOptions None None.

Definition orDefault (o : option bool) (d : bool) : bool :=
  match o with Some b => b | None => d end.

(** [strings.filter(s => s && typeof s === 'string')] followed by
    [[...new Set(...)]]. *)
Definition uniqueStringsOf (elems : list JsValue) : list string :=
  newSet (stringsOf (filter (fun s => truthy s && typeofString s) elems)).

Definition createOptimizedRegex (strings : JsValue) (options : option Options)
    : result string :=
  let options := match options with Some o => o | None => emptyOptions end in
  let wordBoundaries := orDefault (wordBoundaries options) true in
  let caseInsensitive := orDefault (caseInsensitive options) false in
  match strings with
  | JArray elems =>
      if (List.length elems =? 0)%nat then
        Throw "Input must be a non-empty array of strings"
      else
        let uniqueStrings := uniqueStringsOf elems in
        if (List.length uniqueStrings =? 0)%nat then
          Throw "No valid strings provided"
        else
          let root := buildTrie caseInsensitive uniqueStrings in
          let pattern := trieToRegex root in
          let finalPattern :=
            if wordBoundaries then "\b" ++ pattern ++ "\b" else pattern in
          Return finalPattern
  | _ => Throw "Input must be a non-empty array of strings"
  end.

(** A call on an array of strings. *)
Definition strs (l : list string) : JsValue := JArray (map JString l).

(* ================================================================== *)
(** ** The caller: the SLua standard-library rules *)

(** An entry of a definitions list: [item.name]. *)
Record Def : Type := mkDef { name : string }.

(** An element of [lib.functions] or [lib.constants]: an array of entries,
    an object with a [list] of entries, or one entry. *)
Inductive Item : Type :=
| ItemArray (items : list Def)
| ItemList (list_ : list Def)
| ItemDef (d : Def).

Record Library : Type := mkLibrary {
  functions : option (list Item);
  constants : option (list Item)
}.

(** [slua.libraries], as [Object.entries] lists it. *)
Definition Libraries : Type := list (string * Library).

(** The callback of [flatMap]:
    [Array.isArray(item)? item : ('list' in item? item.list : item)]. *)
Definition flatten (item : Item) : list Def :=
  match item with
  | ItemArray items => items
  | ItemList l => l
  | ItemDef d => [d]
  end.

(** [(lib.functions || []).flatMap(...).map(item => namespace + '.' + item.name)] *)
Definition qualified (namespace : string) (items : option (list Item))
    : list string :=
  map (fun item => namespace ++ "." ++ name item)
      (flat_map flatten (match items with Some l => l | None => [] end)).

(** [key.toLowerCase().startsWith('ll')] *)
Definition isPlatform (key : string) : bool :=
  startsWith "ll" (toLowerCase key).

(** [.filter(item => item?.length)] *)
Definition nonEmpty (l : list string) : list string :=
  filter (fun item => negb (isEmptyString item)) l.

Definition luauFunctions (libs : Libraries) : list string :=
  nonEmpty
    (flat_map (fun e => qualified (fst e) (functions (snd e)))
       (filter (fun e => negb (isPlatform (fst e)))
          (filter (fun e => negb (String.eqb (fst e) "global")) libs))).

Definition luauConstants (libs : Libraries) : list string :=
  nonEmpty
    (flat_map (fun e => qualified (fst e) (constants (snd e)))
       (filter (fun e => negb (isPlatform (fst e)))
          (filter (fun e => negb (String.eqb (fst e) "global")) libs))).

Definition platformFunctions (libs : Libraries) : list string :=
  nonEmpty
    (flat_map (fun e => qualified (fst e) (functions (snd e)))
       (filter (fun e => isPlatform (fst e)) libs)).

Definition platformConstants (libs : Libraries) : list string :=
  nonEmpty
    (flat_map (fun e => qualified (fst e) (constants (snd e)))
       (filter (fun e => isPlatform (fst e)) libs)).

(** An element of [standard]: [{ name, match }]. *)
Record Rule : Type := mkRule { ruleName : string; ruleMatch : string }.

(** The string literal ['(?<![^.]\\.|:)']. *)
Definition lookbehind : string := "(?<![^.]\.|:)".

(** [if(vocabulary.length) standard.push({ name, match: '(?<![^.]\\.|:)'
    + createOptimizedRegex(vocabulary) })]; an exception of the compiler
    ends the script. *)
Definition pushRule (ruleName : string) (vocabulary : list string)
    (standard : list Rule) : result (list Rule) :=
  if (List.length vocabulary =? 0)%nat then Return standard
  else
    match createOptimizedRegex (strs vocabulary) None with
    | Return pattern =>
        Return (standard ++ [mkRule ruleName (lookbehind ++ pattern)])%list
    | Throw message => Throw message
    end.

Definition bind {A B : Type} (m : result A) (k : A -> result B) : result B :=
  match m with
  | Return a => k a
  | Throw message => Throw message
  end.

Notation "x <- m ;; k" := (bind m (fun x => k))
  (at level 61, m at next level, right associativity).

(** [slua.libraries.global.functions.flatMap(...).map(item => item.name)]:
    reading a property of [undefined] is a [TypeError]. *)
Definition globalNames (libs : Libraries)
    (field : Library -> option (list Item)) : result (list string) :=
  match find (fun e => String.eqb (fst e) "global") libs with
  | Some e =>
      match field (snd e) with
      | Some items => Return (map name (flat_map flatten items))
      | None => Throw "TypeError: Cannot read properties of undefined"
      end
  | None => Throw "TypeError: Cannot read properties of undefined"
  end.

(** The statements that fill [standard], given the two global
    vocabularies. *)
Definition standard (globalFunctions globalConstants : list string)
    (libs : Libraries) : result (list Rule) :=
  s <- pushRule "support.function.luau" globalFunctions [] ;;
  s <- pushRule "constant.language.luau" globalConstants s ;;
  s <- pushRule "support.function.luau" (luauFunctions libs) s ;;
  s <- pushRule "support.constant.luau" (luauConstants libs) s ;;
  s <- pushRule "support.function.luau" (platformFunctions libs) s ;;
  pushRule "support.constant.luau" (platformConstants libs) s.

(** The value assigned to [sluaGrammar.repository.standard_library.patterns]. *)
Definition standardLibrary (libs : Libraries) : result (list Rule) :=
  globalFunctions <- globalNames libs functions ;;
  globalConstants <- globalNames libs constants ;;
  standard globalFunctions globalConstants libs.

(* ================================================================== *)
(** ** Reading and matching the emitted patterns *)

Module Regex.

(** The pattern syntax the compiler can emit, and the wildcard. *)
Inductive Regex : Type :=
| RChar (c : ascii)       (* a pattern character or an identity escape *)
| RAny                    (* [.] *)
| RWordBoundary           (* [\b] *)
| REmpty                  (* the empty alternative *)
| RSeq (r1 r2 : Regex)    (* a term followed by the rest of its alternative *)
| RAlt (r1 r2 : Regex)    (* [r1|r2] *)
| ROpt (r : Regex).       (* [r?], greedy *)

(** SyntaxCharacter of the ECMAScript pattern grammar. *)
Definition syntaxCharacter (c : ascii) : bool :=
  existsb (Ascii.eqb c)
    ["^"; "$"; "\"; "."; "*"; "+"; "?"; "("; ")"; "["; "]"; "{"; "}"; "|"]%char.

(** A group being read: the alternatives already closed and the terms of
    the current one, both latest first. *)
Definition Frame : Type := (list Regex * list Regex)%type.

Definition mkSeq (terms : list Regex) : Regex := fold_right RSeq REmpty terms.

Fixpoint mkAlt (first : Regex) (others : list Regex) : Regex :=
  match others with
  | [] => first
  | r :: others' => RAlt first (mkAlt r others')
  end.

(** The disjunction a frame stands for once it is complete. *)
Definition closeFrame (f : Frame) : Regex :=
  match rev (mkSeq (rev (snd f)) :: fst f) with
  | [] => REmpty
  | first :: others => mkAlt first others
  end.

Definition pushTerm (f : Frame) (t : Regex) : Frame := (fst f, t :: snd f).

Definition nextAlternative (f : Frame) : Frame :=
  (mkSeq (rev (snd f)) :: fst f, []).

(** Atoms take a quantifier; an assertion or a quantified term does not. *)
Definition quantifiable (t : Regex) : bool :=
  match t with
  | RWordBoundary | ROpt _ => false
  | _ => true
  end.

(** One pass over the pattern with the stack of the enclosing groups.
    [None]: a syntax error, or syntax outside the fragment. *)
Fixpoint parseLoop (stack : list Frame) (cur : Frame) (p : string)
    : option Regex :=
  match p with
  | EmptyString =>
      match stack with [] => Some (closeFrame cur) | _ => None end
  | String c p' =>
      if Ascii.eqb c "\" then
        match p' with
        | String d p'' =>
            if Ascii.eqb d "b" then parseLoop stack (pushTerm cur RWordBoundary) p''
            else if syntaxCharacter d then parseLoop stack (pushTerm cur (RChar d)) p''
            else None
        | EmptyString => None
        end
      else if Ascii.eqb c "(" then
        match p' with
        | String "?" (String ":" p'') => parseLoop (cur :: stack) ([], []) p''
        | _ => None
        end
      else if Ascii.eqb c ")" then
        match stack with
        | parent :: stack' => parseLoop stack' (pushTerm parent (closeFrame cur)) p'
        | [] => None
        end
      else if Ascii.eqb c "|" then parseLoop stack (nextAlternative cur) p'
      else if Ascii.eqb c "?" then
        match snd cur with
        | t :: ts =>
            if quantifiable t then parseLoop stack (fst cur, ROpt t :: ts) p'
            else None
        | [] => None
        end
      else if Ascii.eqb c "." then parseLoop stack (pushTerm cur RAny) p'
      else if syntaxCharacter c then None
      else parseLoop stack (pushTerm cur (RChar c)) p'
  end.

Definition parse (pattern : string) : option Regex :=
  parseLoop [] ([], []) pattern.

(** A position in the subject: the character before it, if any, and the
    rest of the subject. *)
Definition State : Type := (option ascii * string)%type.

Definition isWordChar (c : ascii) : bool :=
  let n := nat_of_ascii c in
  (((48 <=? n) && (n <=? 57)) || ((65 <=? n) && (n <=? 90))
   || ((97 <=? n) && (n <=? 122)) || (n =? 95))%nat.

Definition isWordCharAt (c : option ascii) : bool :=
  match c with Some c => isWordChar c | None => false end.

Definition nextChar (s : string) : option ascii :=
  match s with String c _ => Some c | EmptyString => None end.

Definition isLineTerminator (c : ascii) : bool :=
  Ascii.eqb c "010" || Ascii.eqb c "013".

(** Canonicalize of the ignore-case mode: the code point of the upper-case
    mapping when it is a single character (the sharp s has none). *)
Definition canonicalize (c : ascii) : nat :=
  let n := nat_of_ascii c in
  if (((97 <=? n) && (n <=? 122))
      || ((224 <=? n) && (n <=? 254) && negb (n =? 247)))%nat then n - 32
  else if (n =? 255)%nat then 376
  else if (n =? 181)%nat then 924
  else n.

Definition charMatches (ignoreCase : bool) (c d : ascii) : bool :=
  if ignoreCase then (canonicalize c =? canonicalize d)%nat else Ascii.eqb c d.

(** All the ways [r] matches from a position, in the order a backtracking
    matcher tries them. An optional term first tries its body, which must
    then consume a character, and last the empty match. *)
Fixpoint run (ignoreCase : bool) (r : Regex) (st : State) : list State :=
  match r with
  | RChar c =>
      match snd st with
      | String d rest =>
          if charMatches ignoreCase c d then [(Some d, rest)] else []
      | EmptyString => []
      end
  | RAny =>
      match snd st with
      | String d rest => if isLineTerminator d then [] else [(Some d, rest)]
      | EmptyString => []
      end
  | RWordBoundary =>
      if xorb (isWordCharAt (fst st)) (isWordCharAt (nextChar (snd st)))
      then [st] else []
  | REmpty => [st]
  | RSeq r1 r2 => flat_map (run ignoreCase r2) (run ignoreCase r1 st)
  | RAlt r1 r2 => (run ignoreCase r1 st ++ run ignoreCase r2 st)%list
  | ROpt r' =>
      (filter (fun st' => negb (String.length (snd st') =? String.length (snd st))%nat)
         (run ignoreCase r' st) ++ [st])%list
  end.

(** The pattern matches the whole of [s]: some success ends at its end. *)
Definition matchesWhole (ignoreCase : bool) (pattern s : string) : bool :=
  match parse pattern with
  | Some r =>
      existsb (fun st => isEmptyString (snd st)) (run ignoreCase r (None, s))
  | None => false
  end.

(** The first match at or after a position: its index and its text. *)
Fixpoint execFrom (ignoreCase : bool) (r : Regex) (index : nat)
    (prev : option ascii) (s : string) : option (nat * string) :=
  match run ignoreCase r (prev, s) with
  | st :: _ =>
      Some (index, substring 0 (String.length s - String.length (snd st)) s)
  | [] =>
      match s with
      | EmptyString => None
      | String c s' => execFrom ignoreCase r (S index) (Some c) s'
      end
  end.

(** [new RegExp(pattern, ignoreCase ? 'i' : '').exec(s)] *)
Definition exec (ignoreCase : bool) (pattern s : string)
    : option (nat * string) :=
  match parse pattern with
  | Some r => execFrom ignoreCase r 0 None s
  | None => None
  end.

(** No capturing group, lookaround or inline modifier: left to right, a
    backslash takes the next character with it, and every other opening
    parenthesis is followed by [?:]. *)
Fixpoint onlyNonCapturing (p : string) : bool :=
  match p with
  | EmptyString => true
  | String c p' =>
      if Ascii.eqb c "\" then
        match p' with
        | String _ p'' => onlyNonCapturing p''
        | EmptyString => true
        end
      else if Ascii.eqb c "(" then
        match p' with
        | String "?" (String ":" p'') => onlyNonCapturing p''
        | _ => false
        end
      else onlyNonCapturing p'
  end.

End Regex.
Import Regex.

(* ================================================================== *)
(** ** Notions used to state the properties *)

(** The words spelled by the paths from a node to a marked node. *)
Fixpoint accepts (w : string) (node : TrieNode) : bool :=
  match w with
  | EmptyString => isEndOfWord node
  | String c w' =>
      existsb (fun e => Ascii.eqb (fst e) c && accepts w' (snd e))
        (children node)
  end.

(** [subnode m n]: [m] is [n] or lies below it. *)
Inductive subnode (m : TrieNode) : TrieNode -> Prop :=
| subnode_here : subnode m m
| subnode_below (n : TrieNode) (c : ascii) (child : TrieNode) :
    In (c, child) (children n) -> subnode m child -> subnode m n.

(** [m] lies strictly below [n]. *)
Definition below (m n : TrieNode) : Prop :=
  exists c child, In (c, child) (children n) /\ subnode m child.

(** The terms the pattern of a node is read as, following [trieToRegex]. *)
Definition joinTerms (alternatives : list (list Regex)) : list Regex :=
  match alternatives with
  | [] => []
  | [a] => a
  | a :: others => [mkAlt (mkSeq a) (map mkSeq others)]
  end.

Definition isNil {A : Type} (l : list A) : bool :=
  match l with [] => true | _ => false end.

Definition pushedTerms (char : ascii) (childNode : TrieNode)
    (childTerms : list Regex) : list (list Regex) :=
  if isEndOfWord childNode && isEmptyMap (children childNode) then
    [[RChar char]]
  else if isEndOfWord childNode && negb (isEmptyMap (children childNode)) then
    if negb (isNil childTerms)
    then [[RChar char; ROpt (mkSeq childTerms)]]
    else [[RChar char]]
  else if negb (isEmptyMap (children childNode)) then
    [RChar char :: childTerms]
  else [].

Fixpoint termsOf (node : TrieNode) : list Regex :=
  match node with
  | Node ch _ =>
      joinTerms
        ((fix loop (cs : list (ascii * TrieNode)) : list (list Regex) :=
            match cs with
            | [] => []
            | (char, childNode) :: cs' =>
                (pushedTerms char childNode (termsOf childNode) ++ loop cs')%list
            end) ch)
  end.

Fixpoint alternativeTermsOf (cs : list (ascii * TrieNode))
    : list (list Regex) :=
  match cs with
  | [] => []
  | (char, childNode) :: cs' =>
      (pushedTerms char childNode (termsOf childNode)
       ++ alternativeTermsOf cs')%list
  end.

(** [similar ic u v]: [v] is [u] up to the character comparison of the
    matching mode. *)
Fixpoint similar (ignoreCase : bool) (u v : string) : bool :=
  match u, v with
  | EmptyString, EmptyString => true
  | String c u', String d v' => charMatches ignoreCase c d && similar ignoreCase u' v'
  | _, _ => false
  end.

(** The character before the position reached after reading [v]. *)
Fixpoint lastOf (prev : option ascii) (v : string) : option ascii :=
  match v with
  | EmptyString => prev
  | String c v' => lastOf (Some c) v'
  end.

(** [s] rendered as a pattern has the terms [ts]: read in any group, in
    front of any rest, it adds them to the current alternative. *)
Definition Renders (s : string) (ts : list Regex) : Prop :=
  forall stack alts ts0 rest,
    parseLoop stack (alts, ts0) (s ++ rest)
    = parseLoop stack (alts, (rev ts ++ ts0)%list) rest.

(** The disjunction closed after the alternatives [t1 :: others], begun in
    a frame that holds [alts] and no term of the current alternative. *)
Fixpoint closeAfter (alts : list Regex) (t1 : list Regex)
    (others : list (list Regex)) : Regex :=
  match others with
  | [] => closeFrame (alts, rev t1)
  | t2 :: others' => closeAfter (mkSeq t1 :: alts) t2 others'
  end.

(** An alternative pushed by the loop and the terms it is read as. *)
Definition RendersAlternative (s : string) (ts : list Regex) : Prop :=
  Renders s ts /\ isEmptyString s = false /\ isNil ts = false.

(** Below the node, every node that is not marked has a child. *)
Fixpoint wellFormed (node : TrieNode) : bool :=
  match node with
  | Node ch _ =>
      (fix loop (cs : list (ascii * TrieNode)) : bool :=
         match cs with
         | [] => true
         | (_, child) :: cs' =>
             (isEndOfWord child || negb (isEmptyMap (children child)))
             && wellFormed child && loop cs'
         end) ch
  end.

(** [Reaches ic n st st']: from the position [st], a non-empty word of the
    node read up to the comparison of the matching mode ends at [st']. *)
Definition Reaches (ignoreCase : bool) (n : TrieNode) (st st' : State)
    : Prop :=
  exists u v,
    isEmptyString u = false /\ accepts u n = true
    /\ similar ignoreCase u v = true
    /\ snd st = v ++ snd st' /\ fst st' = lastOf (fst st) v.

(** The same through one child: its character, then the child's mark or
    a non-empty word of the child. *)
Definition Via (ignoreCase : bool) (e : ascii * TrieNode) (st st' : State)
    : Prop :=
  exists d rest,
    snd st = String d rest /\ charMatches ignoreCase (fst e) d = true
    /\ ((isEndOfWord (snd e) = true /\ st' = (Some d, rest))
        \/ Reaches ignoreCase (snd e) (Some d, rest) st').

(** A child is marked or has a child of its own, and is well formed. *)
Definition goodChild (kc : ascii * TrieNode) : bool :=
  (isEndOfWord (snd kc) || negb (isEmptyMap (children (snd kc))))
  && wellFormed (snd kc).

(** The lower-case character a canonical code point comes from. *)
Definition lowerOfCanonical (n : nat) : ascii :=
  if (n =? 376)%nat then ascii_of_nat 255
  else if (n =? 924)%nat then ascii_of_nat 181
  else lowerChar (ascii_of_nat n).

(** The scan for capturing groups passes over [s] wherever it occurs. *)
Definition Skipped (s : string) : Prop :=
  forall rest, onlyNonCapturing (s ++ rest) = onlyNonCapturing rest.

Definition optionsOr (options : option Options) : Options :=
  match options with Some o => o | None => emptyOptions end.

(** The pattern body the entry point computes for a vocabulary. *)
Definition bodyOf (options : option Options) (V : list string) : string :=
  trieToRegex
    (buildTrie (orDefault (caseInsensitive (optionsOr options)) false) V).

(** The vocabularies of qualified names [namespace + "." + name] and the
    names of their rules. *)
Definition dottedVocabularies (libs : Libraries)
    : list (string * list string) :=
  [("support.function.luau", luauFunctions libs);
   ("support.constant.luau", luauConstants libs);
   ("support.function.luau", platformFunctions libs);
   ("support.constant.luau", platformConstants libs)].

(** The rules pushed so far all carry the lookbehind before a pattern of
    the compiler. *)
Definition prefixed (s : list Rule) : Prop :=
  forall r, In r s ->
    exists v p, createOptimizedRegex (strs v) None = Return p
                /\ ruleMatch r = lookbehind ++ p.

(** A small [slua.libraries]: the global names, one Luau library and one
    platform library. *)
Definition sampleLibraries : Libraries :=
  [("global",
    mkLibrary (Some [ItemDef (mkDef "print"); ItemList [mkDef "pcall"]])
              (Some [ItemDef (mkDef "_G")]));
   ("math",
    mkLibrary (Some [ItemArray [mkDef "abs"; mkDef "acos"]; ItemDef (mkDef "max")])
              (Some [ItemDef (mkDef "pi")]));
   ("ll",
    mkLibrary (Some [ItemDef (mkDef "Say")]) None)].

(** The terms of a well-formed node with a child match exactly the
    non-empty words of the node. *)
Definition Matched (ignoreCase : bool) (n : TrieNode) : Prop :=
  wellFormed n = true -> isEmptyMap (children n) = false ->
  forall st st',
    In st' (run ignoreCase (mkSeq (termsOf n)) st)
    <-> Reaches ignoreCase n st st'.

(** The filter and the deduplication as the specification words them: the
    non-empty strings, each kept at its first occurrence. *)
Fixpoint keepFirst (l : list string) : list string :=
  match l with
  | [] => []
  | x :: l' => x :: filter (fun y => negb (String.eqb x y)) (keepFirst l')
  end.

Fixpoint nonEmptyStrings (xs : list JsValue) : list string :=
  match xs with
  | [] => []
  | JString s :: xs' =>
      if isEmptyString s then nonEmptyStrings xs' else s :: nonEmptyStrings xs'
  | _ :: xs' => nonEmptyStrings xs'
  end.

Definition filterDedup (xs : list JsValue) : list string :=
  keepFirst (nonEmptyStrings xs).

(** The per-child alternative and the combination as the specification
    words them. *)
Definition specAlternative (e : ascii * TrieNode) : string :=
  let c := fst e in
  let child := snd e in
  if isEndOfWord child then
    if isEmptyMap (children child) then escapeRegexChar (String c EmptyString)
    else escapeRegexChar (String c EmptyString)
         ++ "(?:" ++ trieToRegex child ++ ")?"
  else escapeRegexChar (String c EmptyString) ++ trieToRegex child.

Definition specCombine (alternatives : list string) : string :=
  match List.length alternatives with
  | 0 => ""
  | 1 => hd "" alternatives
  | _ => "(?:" ++ String.concat "|" alternatives ++ ")"
  end.

(** The reserved metacharacters as the specification lists them. *)
Definition reserved : list ascii :=
  ["."; "*"; "+"; "?"; "^"; "$"; "{"; "}"; "("; ")"; "|"; "["; "]"; "\"]%char.

(* ================================================================== *)
(** ** Further notions: maps with distinct keys *)

(** At the node and below it, no key occurs twice in a map of children. *)
Fixpoint distinctKeys (node : TrieNode) : Prop :=
  match node with
  | Node ch _ =>
      NoDup (map fst ch)
      /\ (fix all (cs : list (ascii * TrieNode)) : Prop :=
            match cs with
            | [] => True
            | (_, child) :: cs' => distinctKeys child /\ all cs'
            end) ch
  end.

(** The position lies between a word character and a character that is
    not one (or an end of the subject): what [\b] asserts. *)
Definition atBoundary (st : State) : bool :=
  xorb (isWordCharAt (fst st)) (isWordCharAt (nextChar (snd st))).

(** What is left of the subject after a position. *)
Definition remaining (st : State) : nat := String.length (snd st).

(** The successes are listed from the longest match to the shortest: each
    leaves less of the subject than all those after it. *)
Fixpoint longestFirst (l : list State) : Prop :=
  match l with
  | [] => True
  | st :: l' =>
      Forall (fun st' => remaining st < remaining st') l' /\ longestFirst l'
  end.

(** Matched case-sensitively, the terms of a well-formed node with
    distinct keys list their successes longest first. *)
Definition Ordered (n : TrieNode) : Prop :=
  wellFormed n = true -> distinctKeys n -> isEmptyMap (children n) = false ->
  forall st, longestFirst (run false (mkSeq (termsOf n)) st).

(* ================================================================== *)
(** ** The caller: the LSL grammar *)

(** An entry of [lsl.functions]: whether [definition.private],
    [definition.deprecated] and [definition['god-mode']] are truthy. *)
Record LslFunction : Type := mkLslFunction {
  isPrivate : bool;
  isDeprecated : bool;
  isGodMode : bool
}.

(** One iteration of the loop over [lsl.functions], on the arrays
    [functions], [functionsGodMode] and [functionsDeprecated]. *)
Definition classifyFunction
    (lists : list string * list string * list string)
    (entry : string * LslFunction)
    : list string * list string * list string :=
  let '(functions, functionsGodMode, functionsDeprecated) := lists in
  let (name, definition) := entry in
  if isPrivate definition then lists
  else if isDeprecated definition then
    (functions, functionsGodMode, (functionsDeprecated ++ [name])%list)
  else if isGodMode definition then
    (functions, (functionsGodMode ++ [name])%list, functionsDeprecated)
  else ((functions ++ [name])%list, functionsGodMode, functionsDeprecated).

Definition functionLists (fs : list (string * LslFunction))
    : list string * list string * list string :=
  fold_left classifyFunction fs ([], [], []).

(** One iteration of the loop over [lsl.constants], on the arrays
    [constants] and [constantsDeprecated]; an entry holds whether
    [lsl.constants[constant].deprecated] is truthy. *)
Definition classifyConstant (lists : list string * list string)
    (entry : string * bool) : list string * list string :=
  let (constants, constantsDeprecated) := lists in
  let (constant, deprecated) := entry in
  if String.eqb constant "TRUE" || String.eqb constant "FALSE" then lists
  else if deprecated then (constants, (constantsDeprecated ++ [constant])%list)
  else ((constants ++ [constant])%list, constantsDeprecated).

Definition constantLists (cs : list (string * bool))
    : list string * list string :=
  fold_left classifyConstant cs ([], []).

(** A pattern of a grammar repository: its [name] and [match], when it
    has them; its other properties are not touched. *)
Record GrammarPattern : Type := mkPattern {
  patternName : option string;
  patternMatch : option string
}.

(** [pattern.name == name] *)
Definition hasName (name : string) (p : GrammarPattern) : bool :=
  match patternName p with
  | Some n => String.eqb n name
  | None => false
  end.

(** [patterns.find(pattern => pattern.name == name).match = value]: the
    first pattern of that name is changed in place; [None] when [find]
    returns [undefined]. *)
Fixpoint setMatch (name value : string) (patterns : list GrammarPattern)
    : option (list GrammarPattern) :=
  match patterns with
  | [] => None
  | p :: ps =>
      if hasName name p then Some (mkPattern (patternName p) (Some value) :: ps)
      else
        match setMatch name value ps with
        | Some ps' => Some (p :: ps')
        | None => None
        end
  end.

(** [found.match = createOptimizedRegex(vocabulary)]: the right-hand side
    is evaluated, then the assignment to a property of [undefined] is a
    [TypeError]. *)
Definition assignCompiled (name : string) (vocabulary : list string)
    (patterns : list GrammarPattern) : result (list GrammarPattern) :=
  match createOptimizedRegex (strs vocabulary) None with
  | Return pattern =>
      match setMatch name pattern patterns with
      | Some patterns' => Return patterns'
      | None => Throw "TypeError: Cannot set properties of undefined"
      end
  | Throw message => Throw message
  end.

(** What the script reads of the LSL definitions: the keys of [lsl.types]
    and of [lsl.events], and the entries of [lsl.functions] and
    [lsl.constants]. *)
Record Lsl : Type := mkLsl {
  lslTypes : list string;
  lslEvents : list string;
  lslFunctions : list (string * LslFunction);
  lslConstants : list (string * bool)
}.

(** The four pattern arrays of [lslGrammar.repository] the script
    updates. *)
Record LslGrammar : Type := mkLslGrammar {
  typesPatterns : list GrammarPattern;
  eventsPatterns : list GrammarPattern;
  functionsPatterns : list GrammarPattern;
  constantsPatterns : list GrammarPattern
}.

(** The LSL part of the script, up to the writing of the grammar. *)
Definition updateLslGrammar (lsl : Lsl) (g : LslGrammar) : result LslGrammar :=
  t <- assignCompiled "storage.type.lsl" (lslTypes lsl) (typesPatterns g) ;;
  e <- assignCompiled "constant.language.events.lsl" (lslEvents lsl)
         (eventsPatterns g) ;;
  let '(functions, functionsGodMode, functionsDeprecated) :=
    functionLists (lslFunctions lsl) in
  f <- assignCompiled "support.function.lsl" functions (functionsPatterns g) ;;
  f <- assignCompiled "support.function.god-mode.lsl" functionsGodMode f ;;
  f <- assignCompiled "invalid.deprecated.support.function.lsl"
         functionsDeprecated f ;;
  let '(constants, constantsDeprecated) := constantLists (lslConstants lsl) in
  c <- assignCompiled "support.constant.lsl" constants (constantsPatterns g) ;;
  c <- assignCompiled "invalid.deprecated.constant.lsl" constantsDeprecated c ;;
  Return (mkLslGrammar t e f c).

(** A vocabulary has a string that is not empty. *)
Definition usable (vocabulary : list string) : bool :=
  existsb (fun s => negb (isEmptyString s)) vocabulary.

(** A pattern array has a pattern of the name. *)
Definition named (name : string) (patterns : list GrammarPattern) : bool :=
  existsb (hasName name) patterns.

(** The assignments of the LSL part: the name of the rule, the
    vocabulary compiled into it and the pattern array that holds it. *)
Definition lslAssignments (lsl : Lsl)
    : list (string * list string * (LslGrammar -> list GrammarPattern)) :=
  let '(functions, functionsGodMode, functionsDeprecated) :=
    functionLists (lslFunctions lsl) in
  let '(constants, constantsDeprecated) := constantLists (lslConstants lsl) in
  [("storage.type.lsl", lslTypes lsl, typesPatterns);
   ("constant.language.events.lsl", lslEvents lsl, eventsPatterns);
   ("support.function.lsl", functions, functionsPatterns);
   ("support.function.god-mode.lsl", functionsGodMode, functionsPatterns);
   ("invalid.deprecated.support.function.lsl", functionsDeprecated,
    functionsPatterns);
   ("support.constant.lsl", constants, constantsPatterns);
   ("invalid.deprecated.constant.lsl", constantsDeprecated, constantsPatterns)].

(** Every vocabulary of the LSL grammar is usable and every rule it goes
    to exists. *)
Definition lslReady (lsl : Lsl) (g : LslGrammar) : bool :=
  forallb (fun a => usable (snd (fst a)) && named (fst (fst a)) (snd a g))
    (lslAssignments lsl).

(** A small set of LSL definitions and a grammar with the seven rules. *)
Definition sampleLsl : Lsl :=
  mkLsl ["integer"; "float"] ["touch"; "timer"]
    [("llSay", mkLslFunction false false false);
     ("llGodLikeRezObject", mkLslFunction false false true);
     ("llSound", mkLslFunction false true false)]
    [("TRUE", false); ("PI", false); ("PI_BY_TWO", false); ("OLD", true)].

Definition sampleLslGrammar : LslGrammar :=
  mkLslGrammar
    [mkPattern (Some "storage.type.lsl") None]
    [mkPattern None None; mkPattern (Some "constant.language.events.lsl") None]
    [mkPattern (Some "support.function.god-mode.lsl") None;
     mkPattern (Some "support.function.lsl") (Some "old");
     mkPattern (Some "invalid.deprecated.support.function.lsl") None]
    [mkPattern (Some "support.constant.lsl") None;
     mkPattern (Some "invalid.deprecated.constant.lsl") None].

Definition sampleLslUpdated : LslGrammar :=
  mkLslGrammar
    [mkPattern (Some "storage.type.lsl") (Some "\b(?:integer|float)\b")]
    [mkPattern None None;
     mkPattern (Some "constant.language.events.lsl")
       (Some "\bt(?:ouch|imer)\b")]
    [mkPattern (Some "support.function.god-mode.lsl")
       (Some "\bllGodLikeRezObject\b");
     mkPattern (Some "support.function.lsl") (Some "\bllSay\b");
     mkPattern (Some "invalid.deprecated.support.function.lsl")
       (Some "\bllSound\b")]
    [mkPattern (Some "support.constant.lsl") (Some "\bPI(?:_BY_TWO)?\b");
     mkPattern (Some "invalid.deprecated.constant.lsl") (Some "\bOLD\b")].

(** The rule a vocabulary contributes to [standard]: none when the
    vocabulary is empty. *)
Definition ruleOf (ruleName : string) (vocabulary : list string) : list Rule :=
  if isNil vocabulary then []
  else
    match createOptimizedRegex (strs vocabulary) None with
    | Return pattern => [mkRule ruleName (lookbehind ++ pattern)]
    | Throw _ => []
    end.

(** The six vocabularies of [standard] with the names of their rules, in
    the order of the script. *)
Definition standardVocabularies (globalFunctions globalConstants : list string)
    (libs : Libraries) : list (string * list string) :=
  [("support.function.luau", globalFunctions);
   ("constant.language.luau", globalConstants);
   ("support.function.luau", luauFunctions libs);
   ("support.constant.luau", luauConstants libs);
   ("support.function.luau", platformFunctions libs);
   ("support.constant.luau", platformConstants libs)].

(** A vocabulary is empty or has a string that is not empty. *)
Definition emptyOrUsable (vocabulary : list string) : bool :=
  isNil vocabulary || usable vocabulary.

(* ================================================================== *)
(** ** The definitions synthesizer: [convertType] *)

(** [[0-9a-fA-F]] *)
Definition isHexDigit (c : ascii) : bool :=
  let n := nat_of_ascii c in
  (((48 <=? n) && (n <=? 57)) || ((65 <=? n) && (n <=? 70))
   || ((97 <=? n) && (n <=? 102)))%nat.

(** [[0-9a-fA-F]{n}] at the head of a string: what follows it. *)
Fixpoint hexRun (n : nat) (s : string) : option string :=
  match n with
  | 0 => Some s
  | S n' =>
      match s with
      | String c s' => if isHexDigit c then hexRun n' s' else None
      | EmptyString => None
      end
  end.

(** [-] at the head of a string: what follows it. *)
Definition dash (s : string) : option string :=
  match s with
  | String c s' => if Ascii.eqb c "-" then Some s' else None
  | EmptyString => None
  end.

Definition andThen (m : option string) (k : string -> option string)
    : option string :=
  match m with Some s => k s | None => None end.

(** [/^[0-9a-fA-F]{8}-[0-9a-fA-F]{4}-[0-9a-fA-F]{4}-[0-9a-fA-F]{4}-[0-9a-fA-F]{12}$/.test(value)] *)
Definition isUuidFormat (value : string) : bool :=
  match
    andThen (andThen (andThen (andThen (andThen (andThen (andThen (andThen
      (hexRun 8 value) dash) (hexRun 4)) dash) (hexRun 4)) dash) (hexRun 4))
      dash) (hexRun 12)
  with
  | Some EmptyString => true
  | _ => false
  end.

Definition convertType (type : string) (value : JsValue) : string :=
  if String.eqb type "string" && typeofString value
     && match value with JString v => isUuidFormat v | _ => false end
  then "uuid"
  else if String.eqb type "key" then "uuid"
  else if String.eqb type "rotation" then "quaternion"
  else if String.eqb type "integer" then "number"
  else if String.eqb type "float" then "number"
  else if String.eqb type "string" then "string"
  else if String.eqb type "vector" then "vector"
  else if String.eqb type "list" then "table"
  else if String.eqb type "boolean" then "boolean"
  else type.

(** The LSL type names that have another name in SLua. *)
Definition lslOnlyTypes : list string :=
  ["key"; "rotation"; "integer"; "float"; "list"].

(* ================================================================== *)
(** ** Subjects with characters outside U+0000..U+00FF *)

Module Wide.

(** A character of a subject string: one of U+0000..U+00FF, or one of
    three characters outside that range whose case mappings lead into
    it. *)
Inductive Char : Type :=
| Latin1 (c : ascii)
| GreekCapitalMu          (* U+039C *)
| GreekSmallMu            (* U+03BC *)
| KelvinSign.             (* U+212A *)

(** A string of the narrower range, as a subject. *)
Definition latin1 (s : string) : list Char :=
  map Latin1 (list_ascii_of_string s).

(** Lower-case mapping of one character: the small mu for the capital
    mu, the letter k for the Kelvin sign. *)
Definition lowerChar (c : Char) : Char :=
  match c with
  | Latin1 a => Latin1 (JS.lowerChar a)
  | GreekCapitalMu | GreekSmallMu => GreekSmallMu
  | KelvinSign => Latin1 "k"
  end.

(** [str.toLowerCase()] *)
Definition toLowerCase (s : list Char) : list Char := map lowerChar s.

(** Canonicalize of the ignore-case mode, the code point of the
    upper-case mapping: the capital mu (U+039C) for the small mu, as for
    the micro sign U+00B5; the Kelvin sign is its own upper case. *)
Definition canonicalize (c : Char) : nat :=
  match c with
  | Latin1 a => Regex.canonicalize a
  | GreekCapitalMu | GreekSmallMu => 924
  | KelvinSign => 33 * 256 + 42
  end.

(** A pattern character against a character of the subject. *)
Definition charMatches (ignoreCase : bool) (c : ascii) (d : Char) : bool :=
  if ignoreCase then (Regex.canonicalize c =? canonicalize d)%nat
  else match d with Latin1 a => Ascii.eqb c a | _ => false end.

Definition State : Type := (option Char * list Char)%type.

Definition isWordCharAt (c : option Char) : bool :=
  match c with Some (Latin1 a) => Regex.isWordChar a | _ => false end.

Definition isLineTerminator (c : Char) : bool :=
  match c with Latin1 a => Regex.isLineTerminator a | _ => false end.

(** [Regex.run] on such a subject. *)
Fixpoint run (ignoreCase : bool) (r : Regex) (st : State) : list State :=
  match r with
  | RChar c =>
      match snd st with
      | d :: rest => if charMatches ignoreCase c d then [(Some d, rest)] else []
      | [] => []
      end
  | RAny =>
      match snd st with
      | d :: rest => if isLineTerminator d then [] else [(Some d, rest)]
      | [] => []
      end
  | RWordBoundary =>
      if xorb (isWordCharAt (fst st)) (isWordCharAt (hd_error (snd st)))
      then [st] else []
  | REmpty => [st]
  | RSeq r1 r2 => flat_map (run ignoreCase r2) (run ignoreCase r1 st)
  | RAlt r1 r2 => (run ignoreCase r1 st ++ run ignoreCase r2 st)%list
  | ROpt r' =>
      (filter (fun st' => negb (List.length (snd st') =? List.length (snd st))%nat)
         (run ignoreCase r' st) ++ [st])%list
  end.

(** [Regex.matchesWhole] on such a subject. *)
Definition matchesWhole (ignoreCase : bool) (pattern : string)
    (s : list Char) : bool :=
  match parse pattern with
  | Some r => existsb (fun st => isNil (snd st)) (run ignoreCase r (None, s))
  | None => false
  end.

(** A position in a subject of the narrower range. *)
Definition position (st : Regex.State) : State :=
  (option_map Latin1 (fst st), latin1 (snd st)).

End Wide.

(** No wildcard in an expression: every character is matched by a
    character term. *)
Fixpoint wildcardFree (r : Regex) : bool :=
  match r with
  | RAny => false
  | RChar _ | RWordBoundary | REmpty => true
  | RSeq r1 r2 | RAlt r1 r2 => wildcardFree r1 && wildcardFree r2
  | ROpt r' => wildcardFree r'
  end.

(** The micro sign U+00B5, a character of the narrower range whose upper
    case lies outside it. *)
Definition microSign : string := String "181" EmptyString.

(* ================================================================== *)
(** ** Strings and lists *)

Lemma append_nil_r (s : string) : s ++ "" = s.
Proof. induction s; simpl; congruence. Qed.

Lemma append_assoc (a b c : string) : (a ++ b) ++ c = a ++ (b ++ c).
Proof. induction a; simpl; congruence. Qed.

Lemma TrieNode_nested_ind (P : TrieNode -> Prop) :
  (forall ch e, Forall (fun kc => P (snd kc)) ch -> P (Node ch e)) ->
  forall n, P n.
Proof.
  intros H. fix IH 1. intros [ch e]. apply H.
  induction ch as [|[k c] ch IHch]; constructor.
  - apply IH.
  - apply IHch.
Qed.

Lemma trieToRegex_unfold (ch : list (ascii * TrieNode)) (e : bool) :
  trieToRegex (Node ch e) = combineAlternatives (alternativesOf ch).
Proof.
  destruct ch as [|[c child] ch]; reflexivity.
Qed.

Lemma termsOf_unfold (ch : list (ascii * TrieNode)) (e : bool) :
  termsOf (Node ch e) = joinTerms (alternativeTermsOf ch).
Proof.
  reflexivity.
Qed.

(* ================================================================== *)
(** ** The emitted pattern reads back as the terms of the trie *)

Lemma special_is_syntax (c : ascii) : specialChars c = syntaxCharacter c.
Proof. destruct c as [[] [] [] [] [] [] [] []]; reflexivity. Qed.

Lemma renders_nil : Renders "" [].
Proof. intros stack alts ts0 rest. reflexivity. Qed.

Lemma renders_app (s1 s2 : string) (t1 t2 : list Regex) :
  Renders s1 t1 -> Renders s2 t2 -> Renders (s1 ++ s2) (t1 ++ t2).
Proof.
  intros H1 H2 stack alts ts0 rest.
  rewrite append_assoc, H1, H2, rev_app_distr, <- app_assoc. reflexivity.
Qed.

Lemma renders_escape (c : ascii) :
  Renders (escapeRegexChar (String c "")) [RChar c].
Proof.
  intros stack alts ts0 rest.
  destruct c as [[] [] [] [] [] [] [] []]; reflexivity.
Qed.

Lemma mkSeq_quantifiable (ts : list Regex) : quantifiable (mkSeq ts) = true.
Proof. destruct ts; reflexivity. Qed.

Lemma renders_optional_group (s : string) (ts : list Regex) :
  Renders s ts -> Renders ("(?:" ++ s ++ ")?") [ROpt (mkSeq ts)].
Proof.
  intros H stack alts ts0 rest.
  cbn [append]. rewrite append_assoc.
  cbn [parseLoop Ascii.eqb Bool.eqb]. rewrite H.
  cbn [append parseLoop Ascii.eqb Bool.eqb pushTerm fst snd].
  unfold closeFrame. cbn [fst snd].
  rewrite app_nil_r, rev_involutive.
  cbn [rev app mkAlt]. rewrite mkSeq_quantifiable. reflexivity.
Qed.

Lemma closeAfter_spec (others : list (list Regex)) :
  forall alts t1,
    closeAfter alts t1 others
    = match (rev alts ++ mkSeq t1 :: map mkSeq others)%list with
      | [] => REmpty
      | first :: rest => mkAlt first rest
      end.
Proof.
  induction others as [|t2 others IH]; intros alts t1.
  - cbn [closeAfter map]. unfold closeFrame. cbn [fst snd rev].
    rewrite rev_involutive. reflexivity.
  - cbn [closeAfter map]. rewrite IH. cbn [rev].
    rewrite <- app_assoc. reflexivity.
Qed.

Lemma renders_alternatives (ss : list string) (tss : list (list Regex)) :
  Forall2 Renders ss tss ->
  forall s1 t1, Renders s1 t1 ->
  forall parent stack alts rest,
    parseLoop (parent :: stack) (alts, []) (String.concat "|" (s1 :: ss) ++ ")" ++ rest)
    = parseLoop stack (pushTerm parent (closeAfter alts t1 tss)) rest.
Proof.
  induction 1 as [|s2 t2 ss tss H2 _ IH]; intros s1 t1 H1 parent stack alts rest.
  - cbn [String.concat]. rewrite H1. rewrite app_nil_r. reflexivity.
  - change (String.concat "|" (s1 :: s2 :: ss))
      with (s1 ++ "|" ++ String.concat "|" (s2 :: ss)).
    rewrite append_assoc, H1, append_assoc.
    cbn [append parseLoop Ascii.eqb Bool.eqb].
    unfold nextAlternative. cbn [fst snd].
    change (String ")" rest) with (")" ++ rest).
    rewrite (IH s2 t2 H2). rewrite app_nil_r, rev_involutive. reflexivity.
Qed.

Lemma renders_group (s1 : string) (t1 : list Regex) (ss : list string)
    (tss : list (list Regex)) :
  Renders s1 t1 -> Forall2 Renders ss tss ->
  Renders ("(?:" ++ String.concat "|" (s1 :: ss) ++ ")")
          [mkAlt (mkSeq t1) (map mkSeq tss)].
Proof.
  intros H1 H stack alts ts0 rest.
  cbn [append]. rewrite append_assoc.
  cbn [parseLoop Ascii.eqb Bool.eqb].
  rewrite (renders_alternatives ss tss H s1 t1 H1).
  rewrite closeAfter_spec. reflexivity.
Qed.

Lemma escape_not_empty (c : ascii) (s : string) :
  isEmptyString (escapeRegexChar (String c "") ++ s) = false.
Proof. cbn [escapeRegexChar]. destruct (specialChars c); reflexivity. Qed.

Lemma pushed_renders (c : ascii) (child : TrieNode) :
  Renders (trieToRegex child) (termsOf child) ->
  isEmptyString (trieToRegex child) = isNil (termsOf child) ->
  Forall2 RendersAlternative
    (pushed c child (trieToRegex child))
    (pushedTerms c child (termsOf child)).
Proof.
  intros HR HE. unfold pushed, pushedTerms. rewrite <- HE.
  pose proof (renders_escape c) as Hc.
  assert (Hc' : RendersAlternative (escapeRegexChar (String c "")) [RChar c]).
  { split; [exact Hc|split; [|reflexivity]].
    rewrite <- (append_nil_r (escapeRegexChar _)). apply escape_not_empty. }
  destruct (isEndOfWord child), (isEmptyMap (children child)); cbn [andb negb].
  - constructor; [exact Hc'|constructor].
  - destruct (isEmptyString (trieToRegex child)) eqn:E; cbn [negb].
    + constructor; [exact Hc'|constructor].
    + constructor; [|constructor]. split; [|split].
      * apply (renders_app _ _ [RChar c] [ROpt (mkSeq (termsOf child))]);
          [exact Hc|]. now apply renders_optional_group.
      * apply escape_not_empty.
      * reflexivity.
  - constructor.
  - constructor; [|constructor]. split; [|split].
    + apply (renders_app _ _ [RChar c] (termsOf child)); assumption.
    + apply escape_not_empty.
    + reflexivity.
Qed.

Lemma alternatives_render (ch : list (ascii * TrieNode)) :
  Forall (fun kc => Renders (trieToRegex (snd kc)) (termsOf (snd kc))
                    /\ isEmptyString (trieToRegex (snd kc))
                       = isNil (termsOf (snd kc))) ch ->
  Forall2 RendersAlternative (alternativesOf ch) (alternativeTermsOf ch).
Proof.
  induction 1 as [|[c child] ch [HR HE] _ IH]; [constructor|].
  cbn [alternativesOf alternativeTermsOf snd] in *.
  apply Forall2_app; [now apply pushed_renders|exact IH].
Qed.

Lemma combine_renders (ss : list string) (tss : list (list Regex)) :
  Forall2 RendersAlternative ss tss ->
  Renders (combineAlternatives ss) (joinTerms tss)
  /\ isEmptyString (combineAlternatives ss) = isNil (joinTerms tss).
Proof.
  intros H. destruct H as [|s1 t1 ss tss [H1 [E1 N1]] H].
  - split; [apply renders_nil|reflexivity].
  - destruct H as [|s2 t2 ss tss H2 H].
    + split; [exact H1|]. cbn. now rewrite E1, N1.
    + split; [|reflexivity].
      apply (renders_group s1 t1 (s2 :: ss) (t2 :: tss) H1).
      constructor; [exact (proj1 H2)|].
      eapply Forall2_impl; [|exact H]. intros a b Hab. exact (proj1 Hab).
Qed.

Lemma trie_renders (n : TrieNode) :
  Renders (trieToRegex n) (termsOf n)
  /\ isEmptyString (trieToRegex n) = isNil (termsOf n).
Proof.
  induction n as [ch e IH] using TrieNode_nested_ind.
  rewrite trieToRegex_unfold, termsOf_unfold.
  apply combine_renders, alternatives_render, IH.
Qed.

Lemma parse_terms (s : string) (ts : list Regex) :
  Renders s ts -> parse s = Some (mkSeq ts).
Proof.
  intros H. unfold parse. rewrite <- (append_nil_r s), H.
  cbn [parseLoop]. unfold closeFrame. cbn [fst snd rev app].
  rewrite app_nil_r, rev_involutive. reflexivity.
Qed.

Lemma renders_word_boundary : Renders "\b" [RWordBoundary].
Proof. intros stack alts ts0 rest. reflexivity. Qed.

Lemma renders_wrapped (body : string) (ts : list Regex) :
  Renders body ts ->
  Renders ("\b" ++ body ++ "\b") (RWordBoundary :: ts ++ [RWordBoundary]).
Proof.
  intros H.
  apply (renders_app "\b" _ [RWordBoundary]); [apply renders_word_boundary|].
  apply renders_app; [exact H|apply renders_word_boundary].
Qed.

(* ================================================================== *)
(** ** The tries that [buildTrie] builds *)

Lemma wellFormed_unfold (ch : list (ascii * TrieNode)) (e : bool) :
  wellFormed (Node ch e) = forallb goodChild ch.
Proof.
  induction ch as [|[c child] ch IH]; [reflexivity|].
  cbn [forallb snd]. rewrite <- IH. reflexivity.
Qed.

Lemma descend_not_empty (c : ascii) (k : TrieNode -> TrieNode)
    (m : list (ascii * TrieNode)) :
  isEmptyMap (descend c k m) = false.
Proof. destruct m as [|[key child] m]; cbn; [|destruct (key =? c)%char]; reflexivity. Qed.

Lemma insertWord_marked (s : string) (n : TrieNode) :
  isEndOfWord (insertWord s n) || negb (isEmptyMap (children (insertWord s n)))
  = true.
Proof.
  destruct s as [|c rest]; cbn [insertWord isEndOfWord children].
  - reflexivity.
  - rewrite descend_not_empty. apply orb_true_r.
Qed.

Lemma insertWord_wellFormed (s : string) :
  forall n, wellFormed n = true -> wellFormed (insertWord s n) = true.
Proof.
  induction s as [|c rest IH]; intros [ch e] H.
  - exact H.
  - cbn [insertWord children isEndOfWord].
    rewrite wellFormed_unfold in *.
    induction ch as [|[key child] ch IHch].
    + cbn [descend forallb]. unfold goodChild. cbn [snd].
      rewrite insertWord_marked, IH; reflexivity.
    + cbn [forallb] in H. apply andb_true_iff in H as [H1 H2].
      unfold goodChild in H1. cbn [snd] in H1.
      apply andb_true_iff in H1 as [H0 H1].
      cbn [descend]. destruct (key =? c)%char; cbn [forallb];
        unfold goodChild at 1; cbn [snd].
      * rewrite insertWord_marked, (IH child H1), H2. reflexivity.
      * rewrite H0, H1, (IHch H2). reflexivity.
Qed.

Lemma fold_insert_wellFormed (ci : bool) (l : list string) :
  forall n, wellFormed n = true ->
  wellFormed
    (fold_left (fun root str => insertWord (processed ci str) root)
       l n) = true.
Proof.
  induction l as [|s l IH]; intros n H; [exact H|].
  cbn [fold_left]. apply IH, insertWord_wellFormed, H.
Qed.

Lemma buildTrie_wellFormed (ci : bool) (l : list string) :
  wellFormed (buildTrie ci l) = true.
Proof. apply fold_insert_wellFormed. reflexivity. Qed.

Lemma accepts_new (w : string) : accepts w newTrieNode = false.
Proof. destruct w; reflexivity. Qed.

Lemma accepts_insertWord (s : string) :
  forall w n, accepts w (insertWord s n) = String.eqb w s || accepts w n.
Proof.
  induction s as [|c rest IH]; intros w [ch e].
  - destruct w; reflexivity.
  - destruct w as [|d w']; [reflexivity|].
    cbn [insertWord accepts children isEndOfWord String.eqb].
    induction ch as [|[key child] ch IHch].
    + cbn [descend existsb fst snd].
      rewrite IH, accepts_new, (Ascii.eqb_sym c d).
      destruct (d =? c)%char; cbn; [|reflexivity].
      now rewrite !orb_false_r.
    + cbn [descend]. destruct (key =? c)%char eqn:K; cbn [existsb fst snd].
      * apply Ascii.eqb_eq in K. subst key. rewrite IH, (Ascii.eqb_sym c d).
        destruct (d =? c)%char; cbn [andb orb]; [|reflexivity].
        now rewrite orb_assoc.
      * rewrite IHch. rewrite !orb_assoc. f_equal. apply orb_comm.
Qed.

Lemma accepts_fold_insert (ci : bool) (w : string) (l : list string) :
  forall n,
    accepts w
      (fold_left (fun root str => insertWord (processed ci str) root)
         l n)
    = existsb (String.eqb w) (map (processed ci) l) || accepts w n.
Proof.
  induction l as [|s l IH]; intros n; [reflexivity|].
  cbn [fold_left map existsb]. rewrite IH, accepts_insertWord.
  unfold processed.
  destruct (existsb _ _), (String.eqb w _), (accepts w n); reflexivity.
Qed.

Lemma accepts_buildTrie (ci : bool) (w : string) (l : list string) :
  accepts w (buildTrie ci l) = existsb (String.eqb w) (map (processed ci) l).
Proof.
  unfold buildTrie. rewrite accepts_fold_insert, accepts_new.
  apply orb_false_r.
Qed.

(* ================================================================== *)
(** ** What the terms of a well-formed trie match *)

Lemma length_append (a b : string) :
  String.length (a ++ b) = String.length a + String.length b.
Proof. induction a; simpl; congruence. Qed.

Lemma similar_empty (ic : bool) (u v : string) :
  similar ic u v = true -> isEmptyString v = isEmptyString u.
Proof. destruct u, v; cbn; congruence. Qed.

Lemma reaches_via (ic : bool) (n : TrieNode) (st st' : State) :
  Reaches ic n st st' <-> exists e, In e (children n) /\ Via ic e st st'.
Proof.
  split.
  - intros (u & v & Hu & Hacc & Hsim & Hs & Hf).
    destruct u as [|c0 u']; [discriminate|].
    destruct v as [|d v']; [discriminate|].
    cbn [accepts] in Hacc. apply existsb_exists in Hacc as ([k child] & Hin & Hk).
    cbn [fst snd] in Hk. apply andb_true_iff in Hk as [Hk Hacc].
    apply Ascii.eqb_eq in Hk. subst k.
    cbn [similar] in Hsim. apply andb_true_iff in Hsim as [Hm Hsim].
    exists (c0, child). split; [exact Hin|].
    exists d, (v' ++ snd st'). split; [exact Hs|]. split; [exact Hm|].
    cbn [fst snd lastOf] in *.
    destruct (isEmptyString u') eqn:E.
    + left. destruct u'; [|discriminate]. destruct v'; [|discriminate].
      split; [exact Hacc|]. destruct st' as [p r]. cbn in *. now subst p.
    + right. exists u', v'. cbn [fst snd]. now repeat split.
  - intros ([k child] & Hin & d & rest & Hs & Hm & H). cbn [fst snd] in *.
    destruct H as [[He ->] | (u & v & Hu & Hacc & Hsim & Hs' & Hf)].
    + exists (String k ""), (String d ""). repeat split.
      * cbn [accepts]. apply existsb_exists. exists (k, child).
        split; [exact Hin|]. cbn [fst snd accepts].
        now rewrite Ascii.eqb_refl.
      * cbn [similar]. now rewrite Hm.
      * exact Hs.
    + exists (String k u), (String d v). repeat split.
      * cbn [accepts]. apply existsb_exists. exists (k, child).
        split; [exact Hin|]. cbn [fst snd].
        now rewrite Ascii.eqb_refl.
      * cbn [similar]. now rewrite Hm.
      * rewrite Hs. cbn [fst snd] in Hs'. now rewrite Hs'.
      * exact Hf.
Qed.

Lemma reaches_progress (ic : bool) (n : TrieNode) (st st' : State) :
  Reaches ic n st st' ->
  (String.length (snd st') =? String.length (snd st))%nat = false.
Proof.
  intros (u & v & Hu & _ & Hsim & Hs & _).
  apply similar_empty in Hsim. rewrite Hu in Hsim.
  rewrite Hs, length_append. apply Nat.eqb_neq.
  destruct v; [discriminate|]. cbn [String.length]. lia.
Qed.

Lemma run_seq_cons (ic : bool) (t : Regex) (ts : list Regex) (st st' : State) :
  In st' (run ic (mkSeq (t :: ts)) st)
  <-> exists mid, In mid (run ic t st) /\ In st' (run ic (mkSeq ts) mid).
Proof. cbn [mkSeq fold_right run]. apply in_flat_map. Qed.

Lemma run_seq_nil (ic : bool) (st st' : State) :
  In st' (run ic (mkSeq []) st) <-> st' = st.
Proof. cbn. intuition congruence. Qed.

Lemma run_char (ic : bool) (c : ascii) (st mid : State) :
  In mid (run ic (RChar c) st)
  <-> exists d rest,
        snd st = String d rest /\ charMatches ic c d = true
        /\ mid = (Some d, rest).
Proof.
  cbn [run]. destruct (snd st) as [|d rest].
  - split; [intros []|]. intros (d & rest & H & _). discriminate.
  - destruct (charMatches ic c d) eqn:E; split.
    + intros [<-|[]]. now exists d, rest.
    + intros (d' & rest' & H & _ & ->). injection H as <- <-. now left.
    + intros [].
    + intros (d' & rest' & H & Hm & _). injection H as <- <-. congruence.
Qed.

Lemma run_mkAlt (ic : bool) (rs : list Regex) :
  forall r st st',
    In st' (run ic (mkAlt r rs) st)
    <-> exists x, In x (r :: rs) /\ In st' (run ic x st).
Proof.
  induction rs as [|r2 rs IH]; intros r st st'.
  - cbn [mkAlt]. split.
    + intros H. exists r. split; [now left|exact H].
    + intros (x & [<-|[]] & H). exact H.
  - cbn [mkAlt run]. rewrite in_app_iff, IH. split.
    + intros [H|(x & Hx & H)].
      * exists r. split; [now left|exact H].
      * exists x. split; [now right|exact H].
    + intros (x & [<-|Hx] & H); [now left|]. right. now exists x.
Qed.

Lemma run_join (ic : bool) (alts : list (list Regex)) (st st' : State) :
  isNil alts = false ->
  (In st' (run ic (mkSeq (joinTerms alts)) st)
   <-> exists a, In a alts /\ In st' (run ic (mkSeq a) st)).
Proof.
  destruct alts as [|a [|b others]]; [discriminate| |]; intros _.
  - cbn [joinTerms]. split.
    + intros H. exists a. split; [now left|exact H].
    + intros (x & [<-|[]] & H). exact H.
  - cbn [joinTerms]. rewrite run_seq_cons. split.
    + intros (mid & H & Hmid). apply run_seq_nil in Hmid. subst mid.
      apply run_mkAlt in H as (x & Hx & H).
      change (mkSeq a :: map mkSeq (b :: others)) with (map mkSeq (a :: b :: others)) in Hx.
      apply in_map_iff in Hx as (y & <- & Hy). now exists y.
    + intros (y & Hy & H). exists st'. split; [|now apply run_seq_nil].
      apply run_mkAlt. exists (mkSeq y). split; [|exact H].
      change (mkSeq a :: map mkSeq (b :: others)) with (map mkSeq (a :: b :: others)).
      now apply in_map.
Qed.

Lemma run_opt (ic : bool) (r : Regex) (st st' : State) :
  In st' (run ic (ROpt r) st)
  <-> (In st' (run ic r st)
       /\ (String.length (snd st') =? String.length (snd st))%nat = false)
      \/ st' = st.
Proof.
  cbn [run]. rewrite in_app_iff, filter_In, negb_true_iff.
  cbn [In]. intuition congruence.
Qed.

Lemma pushedTerms_not_nil (c : ascii) (child : TrieNode) (ts : list Regex) :
  Forall (fun a => isNil a = false) (pushedTerms c child ts).
Proof.
  unfold pushedTerms.
  destruct (isEndOfWord child), (isEmptyMap (children child)), (isNil ts);
    cbn [andb negb]; repeat constructor.
Qed.

Lemma pushedTerms_some (c : ascii) (child : TrieNode) (ts : list Regex) :
  isEndOfWord child || negb (isEmptyMap (children child)) = true ->
  isNil (pushedTerms c child ts) = false.
Proof.
  unfold pushedTerms.
  destruct (isEndOfWord child), (isEmptyMap (children child)), (isNil ts);
    cbn [andb orb negb]; intros H; try reflexivity; discriminate.
Qed.

Lemma alternativeTerms_not_nil (ch : list (ascii * TrieNode)) :
  Forall (fun a => isNil a = false) (alternativeTermsOf ch).
Proof.
  induction ch as [|[c child] ch IH]; [constructor|].
  cbn [alternativeTermsOf]. apply Forall_app. split; [|exact IH].
  apply pushedTerms_not_nil.
Qed.

Lemma alternativeTerms_some (ch : list (ascii * TrieNode)) :
  forallb goodChild ch = true -> isEmptyMap ch = false ->
  isNil (alternativeTermsOf ch) = false.
Proof.
  destruct ch as [|[c child] ch]; [discriminate|]. intros H _.
  cbn [forallb] in H. apply andb_true_iff in H as [H _].
  apply andb_true_iff in H as [H _]. cbn [snd] in H.
  cbn [alternativeTermsOf].
  pose proof (pushedTerms_some c child (termsOf child) H) as Hp.
  destruct (pushedTerms c child (termsOf child)); [discriminate|reflexivity].
Qed.

Lemma joinTerms_nil (alts : list (list Regex)) :
  Forall (fun a => isNil a = false) alts ->
  isNil (joinTerms alts) = isNil alts.
Proof.
  intros H. destruct H as [|a alts Ha H]; [reflexivity|].
  destruct alts; [exact Ha|reflexivity].
Qed.

Lemma terms_not_nil (n : TrieNode) :
  wellFormed n = true -> isEmptyMap (children n) = false ->
  isNil (termsOf n) = false.
Proof.
  destruct n as [ch e]. rewrite wellFormed_unfold, termsOf_unfold.
  cbn [children]. intros Hwf Hch.
  rewrite joinTerms_nil by apply alternativeTerms_not_nil.
  now apply alternativeTerms_some.
Qed.

Lemma no_children_no_reach (ic : bool) (n : TrieNode) (st st' : State) :
  isEmptyMap (children n) = true -> ~ Reaches ic n st st'.
Proof.
  intros H HR. apply reaches_via in HR as (e & Hin & _).
  destruct (children n); [exact Hin|discriminate].
Qed.

Section Matching.

Variable ic : bool.

Lemma via_child (c : ascii) (child : TrieNode) :
  goodChild (c, child) = true -> Matched ic child ->
  forall st st',
    (exists a, In a (pushedTerms c child (termsOf child))
               /\ In st' (run ic (mkSeq a) st))
    <-> Via ic (c, child) st st'.
Proof.
  intros Hgood IH st st'. unfold goodChild in Hgood. cbn [snd] in Hgood.
  apply andb_true_iff in Hgood as [Hmark Hwf].
  specialize (IH Hwf). unfold pushedTerms, Via. cbn [fst snd].
  destruct (isEndOfWord child) eqn:He, (isEmptyMap (children child)) eqn:Hc;
    cbn [andb negb orb] in *; try discriminate.
  - (* marked leaf *)
    split.
    + intros (a & [<-|[]] & H). apply run_seq_cons in H as (mid & Hmid & H).
      apply run_seq_nil in H. subst st'.
      apply run_char in Hmid as (d & rest & Hs & Hm & ->).
      exists d, rest. auto.
    + intros (d & rest & Hs & Hm & [[_ ->] | HR]).
      * exists [RChar c]. split; [now left|]. apply run_seq_cons.
        exists (Some d, rest). split; [|now apply run_seq_nil].
        apply run_char. now exists d, rest.
      * exfalso. revert HR. now apply no_children_no_reach.
  - (* marked, with continuations *)
    rewrite (terms_not_nil child Hwf Hc). cbn [negb]. split.
    + intros (a & [<-|[]] & H). apply run_seq_cons in H as (mid & Hmid & H).
      apply run_char in Hmid as (d & rest & Hs & Hm & ->).
      apply run_seq_cons in H as (mid & Hmid & H).
      apply run_seq_nil in H. subst mid.
      exists d, rest. split; [exact Hs|]. split; [exact Hm|].
      apply run_opt in Hmid as [[H _]| ->]; [right|now left].
      now apply IH.
    + intros (d & rest & Hs & Hm & H).
      exists [RChar c; ROpt (mkSeq (termsOf child))]. split; [now left|].
      apply run_seq_cons. exists (Some d, rest).
      split; [apply run_char; now exists d, rest|].
      apply run_seq_cons. exists st'. split; [|now apply run_seq_nil].
      apply run_opt. destruct H as [[_ ->] | HR]; [now right|left].
      split; [now apply IH|]. now apply reaches_progress in HR.
  - (* unmarked, with continuations *)
    split.
    + intros (a & [<-|[]] & H). apply run_seq_cons in H as (mid & Hmid & H).
      apply run_char in Hmid as (d & rest & Hs & Hm & ->).
      exists d, rest. split; [exact Hs|]. split; [exact Hm|]. right.
      now apply IH.
    + intros (d & rest & Hs & Hm & [[Habs _]|HR]); [discriminate|].
      exists (RChar c :: termsOf child). split; [now left|].
      apply run_seq_cons. exists (Some d, rest).
      split; [apply run_char; now exists d, rest|]. now apply IH.
Qed.

Lemma via_children (ch : list (ascii * TrieNode)) :
  Forall (fun kc => Matched ic (snd kc)) ch ->
  forallb goodChild ch = true ->
  forall st st',
    (exists a, In a (alternativeTermsOf ch) /\ In st' (run ic (mkSeq a) st))
    <-> exists e, In e ch /\ Via ic e st st'.
Proof.
  induction 1 as [|[c child] ch IH1 _ IH]; intros Hgood st st'.
  - split; [intros (a & Ha & _)|intros (e & Ha & _)]; destruct Ha.
  - cbn [forallb] in Hgood. apply andb_true_iff in Hgood as [Hg Hgood].
    cbn [alternativeTermsOf snd] in *. split.
    + intros (a & Ha & H). apply in_app_iff in Ha as [Ha|Ha].
      * exists (c, child). split; [now left|].
        apply (via_child c child Hg IH1). now exists a.
      * destruct (proj1 (IH Hgood st st')) as (e & He & Hv); [now exists a|].
        exists e. split; [now right|exact Hv].
    + intros (e & [<-|He] & Hv).
      * apply (via_child c child Hg IH1) in Hv as (a & Ha & H).
        exists a. split; [apply in_app_iff; now left|exact H].
      * destruct (proj2 (IH Hgood st st')) as (a & Ha & H); [now exists e|].
        exists a. split; [apply in_app_iff; now right|exact H].
Qed.

Lemma terms_reach (n : TrieNode) : Matched ic n.
Proof.
  induction n as [ch e IH] using TrieNode_nested_ind.
  intros Hwf Hch st st'. rewrite wellFormed_unfold in Hwf.
  cbn [children] in Hch. rewrite termsOf_unfold.
  rewrite run_join by now apply alternativeTerms_some.
  rewrite (via_children ch IH Hwf). symmetry. apply reaches_via.
Qed.

End Matching.

(* ================================================================== *)
(** ** Filtering and deduplication *)

Lemma isEmptyString_eqb (s : string) : String.eqb s "" = isEmptyString s.
Proof. destruct s; reflexivity. Qed.

Lemma stringsOf_filter (xs : list JsValue) :
  stringsOf (filter (fun s => truthy s && typeofString s) xs)
  = nonEmptyStrings xs.
Proof.
  induction xs as [|x xs IH]; [reflexivity|].
  destruct x as [| |b|z|s|l]; cbn [filter truthy typeofString andb nonEmptyStrings].
  - exact IH.
  - exact IH.
  - rewrite andb_false_r. exact IH.
  - rewrite andb_false_r. exact IH.
  - rewrite isEmptyString_eqb, andb_true_r.
    destruct (isEmptyString s); cbn [negb stringsOf]; now rewrite ?IH.
  - exact IH.
Qed.

Lemma filter_swap {A : Type} (f g : A -> bool) (l : list A) :
  filter f (filter g l) = filter g (filter f l).
Proof.
  induction l as [|x l IH]; [reflexivity|]. cbn [filter].
  destruct (f x) eqn:F, (g x) eqn:G; cbn [filter]; rewrite ?F, ?G, IH;
    reflexivity.
Qed.

Lemma filter_absorb (p : string -> bool) (x : string) (l : list string) :
  p x = false ->
  filter p (filter (fun y => negb (String.eqb x y)) l) = filter p l.
Proof.
  intros Hp. induction l as [|y l IH]; [reflexivity|]. cbn [filter].
  destruct (String.eqb_spec x y) as [<-|Hn]; cbn [negb filter].
  - now rewrite Hp.
  - now rewrite IH.
Qed.

Lemma keepFirst_filter (p : string -> bool) (l : list string) :
  keepFirst (filter p l) = filter p (keepFirst l).
Proof.
  induction l as [|x l IH]; [reflexivity|]. cbn [filter keepFirst].
  destruct (p x) eqn:Hp.
  - cbn [keepFirst]. rewrite IH. f_equal. apply filter_swap.
  - rewrite IH. symmetry. now apply filter_absorb.
Qed.

Lemma filter_not_in_app (x : string) (acc l : list string) :
  filter (fun y => negb (existsb (String.eqb y) (acc ++ [x]))) l
  = filter (fun y => negb (String.eqb x y))
      (filter (fun y => negb (existsb (String.eqb y) acc)) l).
Proof.
  induction l as [|y l IHl]; [reflexivity|]. cbn [filter].
  rewrite existsb_app. cbn [existsb]. rewrite orb_false_r.
  rewrite (String.eqb_sym y x).
  destruct (existsb (String.eqb y) acc), (String.eqb x y) eqn:E;
    cbn [orb negb filter]; rewrite ?E; cbn [negb]; rewrite ?IHl; reflexivity.
Qed.

Lemma fold_setAdd (l : list string) :
  forall acc,
    fold_left (fun set x => setAdd x set) l acc
    = (acc ++ keepFirst (filter (fun x => negb (existsb (String.eqb x) acc)) l))%list.
Proof.
  induction l as [|x l IH]; intros acc.
  - cbn. now rewrite app_nil_r.
  - cbn [fold_left filter]. rewrite IH. unfold setAdd.
    destruct (existsb (String.eqb x) acc) eqn:E; cbn [negb]; [reflexivity|].
    cbn [keepFirst]. rewrite <- app_assoc. cbn [app]. do 2 f_equal.
    rewrite <- keepFirst_filter. f_equal. apply filter_not_in_app.
Qed.

Lemma newSet_keepFirst (l : list string) : newSet l = keepFirst l.
Proof.
  unfold newSet. rewrite fold_setAdd. cbn [app]. f_equal.
  induction l as [|x l IH]; [reflexivity|].
  cbn [filter existsb negb]. now f_equal.
Qed.

Lemma uniqueStringsOf_filterDedup (xs : list JsValue) :
  uniqueStringsOf xs = filterDedup xs.
Proof.
  unfold uniqueStringsOf, filterDedup.
  now rewrite stringsOf_filter, newSet_keepFirst.
Qed.

Lemma in_keepFirst (s : string) (l : list string) :
  In s (keepFirst l) <-> In s l.
Proof.
  induction l as [|x l IH]; [reflexivity|].
  cbn [keepFirst In]. rewrite filter_In, IH, negb_true_iff.
  destruct (String.eqb_spec x s) as [->|Hn]; intuition congruence.
Qed.

Lemma in_nonEmptyStrings (s : string) (xs : list JsValue) :
  In s (nonEmptyStrings xs) <-> In (JString s) xs /\ isEmptyString s = false.
Proof.
  induction xs as [|x xs IH]; [cbn; tauto|].
  destruct x as [| |b|z|t|l]; cbn [nonEmptyStrings In]; rewrite ?IH;
    try (intuition congruence).
  destruct (isEmptyString t) eqn:E; cbn [In]; rewrite IH.
  - split; [tauto|]. intros [[H|H] H']; [|tauto]. congruence.
  - split.
    + intros [->|H]; [auto|tauto].
    + intros [[H|H] H']; [left; congruence|tauto].
Qed.

Lemma in_filterDedup (s : string) (xs : list JsValue) :
  In s (filterDedup xs) <-> In (JString s) xs /\ isEmptyString s = false.
Proof. unfold filterDedup. now rewrite in_keepFirst, in_nonEmptyStrings. Qed.

Lemma nonEmptyStrings_strs (l : list string) :
  Forall (fun s => isEmptyString s = false) l ->
  nonEmptyStrings (map JString l) = l.
Proof.
  induction 1 as [|s l Hs _ IH]; [reflexivity|].
  cbn [map nonEmptyStrings]. now rewrite Hs, IH.
Qed.

Lemma filter_twice {A : Type} (f : A -> bool) (l : list A) :
  filter f (filter f l) = filter f l.
Proof.
  induction l as [|y l IH]; [reflexivity|]. cbn [filter].
  destruct (f y) eqn:E; cbn [filter]; rewrite ?E, IH; reflexivity.
Qed.

Lemma keepFirst_idempotent (l : list string) :
  keepFirst (keepFirst l) = keepFirst l.
Proof.
  induction l as [|x l IH]; [reflexivity|].
  cbn [keepFirst]. rewrite keepFirst_filter, IH. f_equal.
  apply filter_twice.
Qed.

Lemma filterDedup_idempotent (xs : list JsValue) :
  filterDedup (map JString (filterDedup xs)) = filterDedup xs.
Proof.
  unfold filterDedup at 1. rewrite nonEmptyStrings_strs.
  - apply keepFirst_idempotent.
  - apply Forall_forall. intros s H. now apply in_filterDedup in H.
Qed.

(* ================================================================== *)
(** ** Case folding *)

Lemma lowerOfCanonical_canonicalize (c : ascii) :
  lowerOfCanonical (canonicalize c) = lowerChar c.
Proof. destruct c as [[] [] [] [] [] [] [] []]; reflexivity. Qed.

Lemma canonicalize_lowerChar (c : ascii) :
  canonicalize (lowerChar c) = canonicalize c.
Proof. destruct c as [[] [] [] [] [] [] [] []]; reflexivity. Qed.

Lemma lowerChar_idempotent (c : ascii) : lowerChar (lowerChar c) = lowerChar c.
Proof. destruct c as [[] [] [] [] [] [] [] []]; reflexivity. Qed.

Lemma charMatches_processed (ci : bool) (c d : ascii) :
  charMatches ci c d
  = Ascii.eqb (if ci then lowerChar c else c) (if ci then lowerChar d else d).
Proof.
  destruct ci; [|reflexivity]. unfold charMatches.
  destruct (Nat.eqb_spec (canonicalize c) (canonicalize d)) as [E|N];
    symmetry.
  - apply Ascii.eqb_eq.
    now rewrite <- !lowerOfCanonical_canonicalize, E.
  - apply Ascii.eqb_neq. intros E. apply N.
    now rewrite <- (canonicalize_lowerChar c), E, canonicalize_lowerChar.
Qed.

Lemma similar_processed (ci : bool) (u : string) :
  forall v, similar ci u v = String.eqb (processed ci u) (processed ci v).
Proof.
  induction u as [|c u IH]; intros [|d v]; try (destruct ci; reflexivity).
  cbn [similar]. rewrite charMatches_processed, IH.
  destruct ci; reflexivity.
Qed.

Lemma toLowerCase_idempotent (s : string) :
  toLowerCase (toLowerCase s) = toLowerCase s.
Proof.
  induction s as [|c s IH]; [reflexivity|].
  cbn [toLowerCase]. now rewrite lowerChar_idempotent, IH.
Qed.

Lemma processed_idempotent (ci : bool) (s : string) :
  processed ci (processed ci s) = processed ci s.
Proof. destruct ci; [apply toLowerCase_idempotent|reflexivity]. Qed.

Lemma processed_empty (ci : bool) (s : string) :
  isEmptyString (processed ci s) = isEmptyString s.
Proof. destruct ci, s; reflexivity. Qed.

(* ================================================================== *)
(** ** The pattern of a vocabulary *)

Lemma existsb_eqb_in (u : string) (l : list string) :
  existsb (String.eqb u) l = true <-> In u l.
Proof.
  rewrite existsb_exists. split.
  - intros (x & Hin & E). apply String.eqb_eq in E. now subst.
  - intros H. exists u. split; [exact H|apply String.eqb_refl].
Qed.

Lemma root_has_children (ci : bool) (V : list string) :
  V <> [] -> Forall (fun s => isEmptyString s = false) V ->
  isEmptyMap (children (buildTrie ci V)) = false.
Proof.
  intros HV HF. destruct V as [|v V]; [congruence|].
  apply Forall_inv in HF.
  assert (Hacc : accepts (processed ci v) (buildTrie ci (v :: V)) = true).
  { rewrite accepts_buildTrie. apply existsb_eqb_in. now left. }
  rewrite <- (processed_empty ci) in HF.
  destruct (processed ci v) as [|c w]; [discriminate|].
  cbn [accepts] in Hacc. destruct (children (buildTrie ci (v :: V)));
    [discriminate|reflexivity].
Qed.

Lemma whole_match_terms (ic : bool) (n : TrieNode) (s : string) :
  wellFormed n = true -> isEmptyMap (children n) = false ->
  (existsb (fun st => isEmptyString (snd st))
     (run ic (mkSeq (termsOf n)) (None, s)) = true
   <-> exists u, isEmptyString u = false /\ accepts u n = true
                 /\ similar ic u s = true).
Proof.
  intros Hwf Hch. rewrite existsb_exists. split.
  - intros (st' & Hin & He).
    apply (terms_reach ic n Hwf Hch) in Hin as (u & v & Hu & Hacc & Hsim & Hs & _).
    cbn [snd] in Hs. destruct (snd st'); [|discriminate].
    rewrite append_nil_r in Hs. subst v. now exists u.
  - intros (u & Hu & Hacc & Hsim). exists (lastOf None s, "").
    split; [|reflexivity]. apply (terms_reach ic n Hwf Hch).
    exists u, s. cbn [fst snd]. rewrite append_nil_r. now repeat split.
Qed.

Lemma member_up_to_case (ci : bool) (V : list string) (s : string) :
  Forall (fun s => isEmptyString s = false) V ->
  (exists u, isEmptyString u = false
             /\ existsb (String.eqb u) (map (processed ci) V) = true
             /\ similar ci u s = true)
  <-> In (processed ci s) (map (processed ci) V).
Proof.
  intros HF. split.
  - intros (u & _ & Hin & Hsim). apply existsb_eqb_in in Hin.
    rewrite similar_processed in Hsim. apply String.eqb_eq in Hsim.
    rewrite <- Hsim. apply in_map_iff in Hin as (v & <- & Hv).
    rewrite processed_idempotent. now apply in_map.
  - intros Hin. pose proof Hin as Hin'.
    apply in_map_iff in Hin' as (v & E & Hv).
    exists (processed ci v). split; [|split].
    + rewrite processed_empty.
      now apply (proj1 (Forall_forall _ V) HF).
    + apply existsb_eqb_in. now apply in_map.
    + rewrite similar_processed, processed_idempotent, E.
      apply String.eqb_refl.
Qed.

Lemma filterDedup_not_empty (xs : list JsValue) :
  Forall (fun s => isEmptyString s = false) (filterDedup xs).
Proof. apply Forall_forall. intros s H. now apply in_filterDedup in H. Qed.

(** What the entry point returns on an array whose filtered set is not
    empty. *)
Lemma createOptimizedRegex_returns (elems : list JsValue)
    (options : option Options) :
  isNil (filterDedup elems) = false ->
  createOptimizedRegex (JArray elems) options
  = Return (if orDefault (wordBoundaries (optionsOr options)) true
            then "\b" ++ bodyOf options (filterDedup elems) ++ "\b"
            else bodyOf options (filterDedup elems)).
Proof.
  intros HV. unfold createOptimizedRegex, bodyOf, optionsOr.
  rewrite uniqueStringsOf_filterDedup.
  destruct elems as [|x elems]; [discriminate|]. cbn [List.length Nat.eqb].
  destruct (filterDedup (x :: elems)); [discriminate|]. reflexivity.
Qed.

Lemma createOptimizedRegex_throws (elems : list JsValue)
    (options : option Options) :
  isNil (filterDedup elems) = true ->
  exists message, createOptimizedRegex (JArray elems) options = Throw message.
Proof.
  intros HV. unfold createOptimizedRegex.
  rewrite uniqueStringsOf_filterDedup.
  destruct (List.length elems =? 0)%nat; [eauto|].
  destruct (filterDedup elems); [|discriminate]. cbn. eauto.
Qed.

Lemma createOptimizedRegex_not_array (v : JsValue) (options : option Options) :
  isArray v = false ->
  exists message, createOptimizedRegex v options = Throw message.
Proof. destruct v; cbn; intros H; try discriminate; eauto. Qed.

(* ================================================================== *)
(** ** No capturing group *)

Lemma skipped_nil : Skipped "".
Proof. intros rest. reflexivity. Qed.

Lemma skipped_app (a b : string) : Skipped a -> Skipped b -> Skipped (a ++ b).
Proof. intros Ha Hb rest. now rewrite append_assoc, Ha, Hb. Qed.

Lemma skipped_escape (c : ascii) : Skipped (escapeRegexChar (String c "")).
Proof. intros rest. destruct c as [[] [] [] [] [] [] [] []]; reflexivity. Qed.

Lemma skipped_optional_group (s : string) :
  Skipped s -> Skipped ("(?:" ++ s ++ ")?").
Proof.
  intros H rest. cbn [append]. rewrite append_assoc.
  cbn [onlyNonCapturing Ascii.eqb Bool.eqb]. now rewrite H.
Qed.

Lemma skipped_concat (ss : list string) :
  Forall Skipped ss -> Skipped (String.concat "|" ss).
Proof.
  induction 1 as [|s ss Hs H IH]; [apply skipped_nil|].
  destruct ss as [|s2 ss]; [exact Hs|].
  change (String.concat "|" (s :: s2 :: ss))
    with (s ++ "|" ++ String.concat "|" (s2 :: ss)).
  apply skipped_app; [exact Hs|]. apply (skipped_app "|"); [|exact IH].
  intros rest. reflexivity.
Qed.

Lemma skipped_combine (ss : list string) :
  Forall Skipped ss -> Skipped (combineAlternatives ss).
Proof.
  intros H. destruct ss as [|s1 [|s2 ss]].
  - apply skipped_nil.
  - now apply Forall_inv in H.
  - unfold combineAlternatives. intros rest.
    cbn [append]. rewrite append_assoc.
    cbn [onlyNonCapturing Ascii.eqb Bool.eqb].
    now rewrite (skipped_concat _ H).
Qed.

Lemma skipped_pushed (c : ascii) (child : TrieNode) (childPattern : string) :
  Skipped childPattern -> Forall Skipped (pushed c child childPattern).
Proof.
  intros H. unfold pushed.
  destruct (isEndOfWord child), (isEmptyMap (children child)),
    (isEmptyString childPattern); cbn [andb negb];
    repeat constructor; try apply skipped_escape;
    apply skipped_app; try apply skipped_escape; try exact H.
  now apply skipped_optional_group.
Qed.

Lemma skipped_trie (n : TrieNode) : Skipped (trieToRegex n).
Proof.
  induction n as [ch e IH] using TrieNode_nested_ind.
  rewrite trieToRegex_unfold. apply skipped_combine.
  induction IH as [|[c child] ch Hc _ IH]; [constructor|].
  cbn [alternativesOf]. apply Forall_app. split; [|exact IH].
  now apply skipped_pushed.
Qed.

Lemma skipped_word_boundary : Skipped "\b".
Proof. intros rest. reflexivity. Qed.

Lemma skipped_final (wb : bool) (body : string) :
  Skipped body ->
  onlyNonCapturing (if wb then "\b" ++ body ++ "\b" else body) = true.
Proof.
  intros H.
  assert (Hs : Skipped (if wb then "\b" ++ body ++ "\b" else body)).
  { destruct wb; [|exact H].
    apply skipped_app; [apply skipped_word_boundary|].
    apply skipped_app; [exact H|apply skipped_word_boundary]. }
  rewrite <- (append_nil_r (if wb then _ else _)). now rewrite Hs.
Qed.

Lemma returned_pattern (v : JsValue) (options : option Options) (p : string) :
  createOptimizedRegex v options = Return p ->
  exists elems,
    v = JArray elems /\ isNil (filterDedup elems) = false
    /\ p = (if orDefault (wordBoundaries (optionsOr options)) true
            then "\b" ++ bodyOf options (filterDedup elems) ++ "\b"
            else bodyOf options (filterDedup elems)).
Proof.
  intros H. destruct (isArray v) eqn:A.
  - destruct v as [| | | | |elems]; try discriminate. exists elems.
    destruct (isNil (filterDedup elems)) eqn:E.
    + destruct (createOptimizedRegex_throws elems options E) as [m Hm].
      congruence.
    + rewrite (createOptimizedRegex_returns elems options E) in H.
      injection H as <-. auto.
  - destruct (createOptimizedRegex_not_array v options A) as [m Hm].
    congruence.
Qed.

(* ================================================================== *)
(** ** Case-sensitive matching *)

Lemma whole_match_exact (ci : bool) (elems : list JsValue) (s : string) :
  isNil (filterDedup elems) = false ->
  matchesWhole false (trieToRegex (buildTrie ci (filterDedup elems))) s = true
  <-> In s (map (processed ci) (filterDedup elems)).
Proof.
  intros HV.
  assert (HV' : filterDedup elems <> []) by (intros E; now rewrite E in HV).
  unfold matchesWhole.
  rewrite (parse_terms _ _ (proj1 (trie_renders _))).
  rewrite whole_match_terms;
    [|apply buildTrie_wellFormed
     |apply root_has_children; [exact HV'|apply filterDedup_not_empty]].
  split.
  - intros (u & _ & Hacc & Hsim).
    rewrite similar_processed in Hsim. apply String.eqb_eq in Hsim.
    cbn [processed] in Hsim. subst u.
    rewrite accepts_buildTrie in Hacc. now apply existsb_eqb_in.
  - intros Hin. exists s. split; [|split].
    + apply in_map_iff in Hin as (x & <- & Hx). rewrite processed_empty.
      exact (proj1 (Forall_forall _ _) (filterDedup_not_empty elems) x Hx).
    + rewrite accepts_buildTrie. now apply existsb_eqb_in.
    + rewrite similar_processed. apply String.eqb_refl.
Qed.

Lemma wildcardFree_mkSeq (ts : list Regex) :
  wildcardFree (mkSeq ts) = forallb wildcardFree ts.
Proof.
  induction ts as [|t ts IH]; [reflexivity|].
  cbn [mkSeq fold_right wildcardFree forallb]. now rewrite <- IH.
Qed.

Lemma wildcardFree_mkAlt (rs : list Regex) :
  forall r, wildcardFree (mkAlt r rs) = wildcardFree r && forallb wildcardFree rs.
Proof.
  induction rs as [|r2 rs IH]; intros r; cbn [mkAlt wildcardFree forallb].
  - now rewrite andb_true_r.
  - now rewrite IH.
Qed.

Lemma wildcardFree_alternatives (l : list (list Regex)) :
  forallb (forallb wildcardFree) l = true ->
  forallb wildcardFree (map mkSeq l) = true.
Proof.
  induction l as [|x l IH]; [reflexivity|]. cbn [forallb map].
  intros H. apply andb_true_iff in H as [Hx H].
  now rewrite wildcardFree_mkSeq, Hx, IH.
Qed.

Lemma wildcardFree_join (alts : list (list Regex)) :
  forallb (forallb wildcardFree) alts = true ->
  forallb wildcardFree (joinTerms alts) = true.
Proof.
  destruct alts as [|a [|b others]]; intros H.
  - reflexivity.
  - cbn [joinTerms forallb] in *. now rewrite andb_true_r in H.
  - apply wildcardFree_alternatives in H.
    cbn [joinTerms forallb map] in *.
    now rewrite andb_true_r, wildcardFree_mkAlt.
Qed.

Lemma terms_wildcardFree (n : TrieNode) :
  forallb wildcardFree (termsOf n) = true.
Proof.
  induction n as [ch e IH] using TrieNode_nested_ind.
  rewrite termsOf_unfold. apply wildcardFree_join.
  induction IH as [|[c child] ch Hc _ IH]; [reflexivity|].
  cbn [alternativeTermsOf snd] in *. rewrite forallb_app, IH, andb_true_r.
  unfold pushedTerms.
  destruct (isEndOfWord child), (isEmptyMap (children child)),
    (isNil (termsOf child)); cbn [andb negb forallb wildcardFree];
    rewrite ?wildcardFree_mkSeq, ?Hc; reflexivity.
Qed.

(* ================================================================== *)
(** ** Subjects with characters outside U+0000..U+00FF *)

Lemma latin1_length (s : string) :
  List.length (Wide.latin1 s) = String.length s.
Proof.
  unfold Wide.latin1. rewrite length_map.
  induction s as [|c s IH]; cbn; congruence.
Qed.

Lemma latin1_app (a b : string) :
  Wide.latin1 (a ++ b) = (Wide.latin1 a ++ Wide.latin1 b)%list.
Proof.
  unfold Wide.latin1. induction a as [|c a IH]; [reflexivity|].
  cbn [append list_ascii_of_string map app]. now rewrite IH.
Qed.

Lemma latin1_injective (a : string) :
  forall b, Wide.latin1 a = Wide.latin1 b -> a = b.
Proof.
  unfold Wide.latin1.
  induction a as [|c a IH]; intros [|d b] H; try discriminate; [reflexivity|].
  cbn [list_ascii_of_string map] in H. injection H as -> H.
  now rewrite (IH b H).
Qed.

Lemma filter_map_commute {A B : Type} (f : B -> bool) (g : A -> B)
    (l : list A) :
  filter f (map g l) = map g (filter (fun x => f (g x)) l).
Proof.
  induction l as [|x l IH]; [reflexivity|]. cbn [map filter].
  destruct (f (g x)); cbn [map]; now rewrite IH.
Qed.

(** On a subject of the narrower range the matcher is [Regex.run]. *)
Lemma wide_run_latin1 (ic : bool) (r : Regex) :
  forall st,
    Wide.run ic r (Wide.position st) = map Wide.position (run ic r st).
Proof.
  induction r as [c| | | |r1 IH1 r2 IH2|r1 IH1 r2 IH2|r IH]; intros [prev s].
  - destruct s as [|d rest]; [reflexivity|].
    unfold Wide.position. cbn [fst snd Wide.run run Wide.latin1
      list_ascii_of_string map option_map].
    unfold Wide.charMatches, charMatches. cbn [Wide.canonicalize].
    destruct ic; [destruct (_ =? _)%nat|destruct (_ =? _)%char]; reflexivity.
  - destruct s as [|d rest]; [reflexivity|].
    unfold Wide.position. cbn [fst snd Wide.run run Wide.latin1
      list_ascii_of_string map option_map Wide.isLineTerminator].
    destruct (isLineTerminator d); reflexivity.
  - unfold Wide.position. cbn [fst snd Wide.run run].
    assert (E1 : Wide.isWordCharAt (option_map Wide.Latin1 prev)
                 = isWordCharAt prev) by now destruct prev.
    assert (E2 : Wide.isWordCharAt (hd_error (Wide.latin1 s))
                 = isWordCharAt (nextChar s)) by now destruct s.
    rewrite E1, E2. destruct (xorb _ _); reflexivity.
  - reflexivity.
  - cbn [Wide.run run]. rewrite IH1.
    induction (run ic r1 (prev, s)) as [|mid l IHl]; [reflexivity|].
    cbn [map flat_map]. now rewrite map_app, IH2, IHl.
  - cbn [Wide.run run]. now rewrite map_app, IH1, IH2.
  - cbn [Wide.run run]. rewrite map_app, IH, filter_map_commute.
    cbn [map fst snd].
    rewrite (filter_ext
               (fun x : State =>
                  negb (List.length (snd (Wide.position x))
                        =? List.length (snd (Wide.position (prev, s))))%nat)
               (fun st' => negb (String.length (snd st') =? String.length s)%nat));
      [reflexivity|].
    intros [p t]. unfold Wide.position. cbn [fst snd].
    now rewrite !latin1_length.
Qed.

Lemma wide_matchesWhole_latin1 (ic : bool) (pattern s : string) :
  Wide.matchesWhole ic pattern (Wide.latin1 s) = matchesWhole ic pattern s.
Proof.
  unfold Wide.matchesWhole, matchesWhole.
  destruct (parse pattern) as [r|]; [|reflexivity].
  change (None, Wide.latin1 s) with (Wide.position (None, s)).
  rewrite wide_run_latin1.
  induction (run ic r (None, s)) as [|[p t] l IH]; [reflexivity|].
  cbn [map existsb]. rewrite IH. f_equal.
  unfold Wide.position. cbn [fst snd]. now destruct t.
Qed.

(** Matched case-sensitively, an expression without wildcard consumes
    characters of the narrower range only. *)
Lemma wide_run_consumes (r : Regex) :
  wildcardFree r = true ->
  forall st st', In st' (Wide.run false r st) ->
    exists v, snd st = (Wide.latin1 v ++ snd st')%list.
Proof.
  induction r as [c| | | |r1 IH1 r2 IH2|r1 IH1 r2 IH2|r IH];
    cbn [wildcardFree]; intros Hw [prev s] st' Hin; cbn [Wide.run fst snd] in *.
  - destruct s as [|d rest]; [destruct Hin|].
    destruct d as [a| | |]; cbn [Wide.charMatches] in Hin;
      try (destruct Hin; fail).
    destruct (c =? a)%char; [|destruct Hin].
    destruct Hin as [<-|[]]. now exists (String a EmptyString).
  - discriminate.
  - destruct (xorb _ _); [|destruct Hin]. destruct Hin as [<-|[]].
    now exists EmptyString.
  - destruct Hin as [<-|[]]. now exists EmptyString.
  - apply andb_true_iff in Hw as [H1 H2].
    apply in_flat_map in Hin as (mid & Hmid & Hin).
    destruct (IH1 H1 _ _ Hmid) as (v1 & E1).
    destruct (IH2 H2 _ _ Hin) as (v2 & E2). cbn [snd] in E1.
    exists (v1 ++ v2). now rewrite E1, E2, latin1_app, <- app_assoc.
  - apply andb_true_iff in Hw as [H1 H2].
    apply in_app_iff in Hin as [Hin|Hin]; [exact (IH1 H1 _ _ Hin)|].
    exact (IH2 H2 _ _ Hin).
  - apply in_app_iff in Hin as [Hin|[<-|[]]]; [|now exists EmptyString].
    apply filter_In in Hin as [Hin _]. exact (IH Hw _ _ Hin).
Qed.

(** Matched case-sensitively, a pattern without wildcard matches the
    whole of a subject only if the subject lies in the narrower range. *)
Lemma wide_whole_match (pattern : string) (ts : list Regex)
    (t : list Wide.Char) :
  parse pattern = Some (mkSeq ts) -> forallb wildcardFree ts = true ->
  Wide.matchesWhole false pattern t = true
  <-> exists v, t = Wide.latin1 v /\ matchesWhole false pattern v = true.
Proof.
  intros Hp Hw. split.
  - intros H. unfold Wide.matchesWhole in H. rewrite Hp in H.
    apply existsb_exists in H as (st' & Hin & He).
    rewrite <- wildcardFree_mkSeq in Hw.
    destruct (wide_run_consumes _ Hw _ _ Hin) as (v & E). cbn [snd] in E.
    destruct (snd st') eqn:Es; [|discriminate]. rewrite app_nil_r in E.
    exists v. split; [exact E|].
    rewrite <- wide_matchesWhole_latin1, <- E.
    unfold Wide.matchesWhole. rewrite Hp. apply existsb_exists.
    exists st'. split; [exact Hin|]. now rewrite Es.
  - intros (v & -> & H). now rewrite wide_matchesWhole_latin1.
Qed.


(* ================================================================== *)
(** ** Properties of the compiler *)

(** C1. With [wordBoundaries: false], on an input whose filtered,
    deduplicated set is not empty, the returned pattern matches the whole
    of a string [s] of U+0000..U+00FF exactly when [s] is in that set; with
    [caseInsensitive] set, the match ignores case and both [s] and the set
    are compared in lower case. Without [caseInsensitive], and matched
    case-sensitively, the same holds of a subject [t] with any characters:
    one that is matched lies in U+0000..U+00FF. On subjects of that range
    the two matchers agree. *)
Theorem whole_match_iff_member (elems : list JsValue) (ci : option bool) :
  isNil (filterDedup elems) = false ->
  exists pattern,
    createOptimizedRegex (JArray elems) (Some (mkOptions (Some false) ci))
    = Return pattern
    /\ (forall s,
          matchesWhole (orDefault ci false) pattern s = true
          <-> if orDefault ci false
              then In (toLowerCase s) (map toLowerCase (filterDedup elems))
              else In s (filterDedup elems))
    /\ (forall t,
          orDefault ci false = false ->
          Wide.matchesWhole false pattern t = true
          <-> In t (map Wide.latin1 (filterDedup elems)))
    /\ (forall ic s,
          Wide.matchesWhole ic pattern (Wide.latin1 s)
          = matchesWhole ic pattern s).
Proof.
  intros HV. eexists. split; [now apply createOptimizedRegex_returns|].
  cbn [optionsOr wordBoundaries orDefault]. unfold bodyOf.
  cbn [optionsOr caseInsensitive].
  set (ic := orDefault ci false). set (V := filterDedup elems).
  split; [|split].
  - intros s.
    assert (HF : Forall (fun s => isEmptyString s = false) V)
      by apply filterDedup_not_empty.
    assert (HV' : V <> []) by (intros E; fold V in HV; now rewrite E in HV).
    assert (HM : matchesWhole ic (trieToRegex (buildTrie ic V)) s = true
                 <-> In (processed ic s) (map (processed ic) V)).
    { unfold matchesWhole.
      rewrite (parse_terms _ _ (proj1 (trie_renders (buildTrie ic V)))).
      rewrite whole_match_terms;
        [|apply buildTrie_wellFormed|now apply root_has_children].
      rewrite <- (member_up_to_case ic V s HF).
      split; intros (u & Hu & Hacc & Hsim); exists u; repeat split;
        try assumption; now rewrite accepts_buildTrie in *. }
    destruct ic; [exact HM|].
    change (map (processed false) V) with (map (fun x : string => x) V) in HM.
    now rewrite map_id in HM.
  - intros t Hic. rewrite Hic.
    rewrite (wide_whole_match _ (termsOf (buildTrie false V)) t);
      [|apply parse_terms, trie_renders|apply terms_wildcardFree].
    split.
    + intros (v & -> & H). apply in_map.
      apply (whole_match_exact false elems v HV) in H.
      change (map (processed false) (filterDedup elems))
        with (map (fun x : string => x) V) in H.
      now rewrite map_id in H.
    + intros H. apply in_map_iff in H as (v & <- & Hv). exists v.
      split; [reflexivity|]. apply (whole_match_exact false elems v HV).
      change (map (processed false) (filterDedup elems))
        with (map (fun x : string => x) V).
      now rewrite map_id.
  - intros ic' s. apply wide_matchesWhole_latin1.
Qed.

Lemma whole_match_iff_member_witness :
  isNil (filterDedup [JString "Set"; JNull; JString EmptyString;
                      JString "SetTimerEvent"; JString "Set"]) = false
  /\ exists pattern,
       createOptimizedRegex
         (JArray [JString "Set"; JNull; JString EmptyString;
                  JString "SetTimerEvent"; JString "Set"])
         (Some (mkOptions (Some false) (Some true)))
       = Return pattern
       /\ forall s,
            matchesWhole true pattern s = true
            <-> In (toLowerCase s) ["set"; "settimerevent"].
Proof.
  split; [reflexivity|].
  destruct (whole_match_iff_member
              [JString "Set"; JNull; JString EmptyString;
               JString "SetTimerEvent"; JString "Set"] (Some true))
    as (p & Hp & H & _); [reflexivity|].
  exists p. split; [exact Hp|exact H].
Defined.

(** Outside U+0000..U+00FF the ignore-case match and the comparison in
    lower case part ways. The pattern of the micro sign U+00B5, matched
    ignoring case, matches the small mu U+03BC (both have the capital mu
    as their upper case), whose lower case is not in the lower-cased set;
    the pattern of "k" does not match the Kelvin sign U+212A, whose
    lower case is "k". *)
Lemma ignore_case_beyond_latin1 :
  createOptimizedRegex (strs [microSign])
    (Some (mkOptions (Some false) (Some true))) = Return microSign
  /\ Wide.matchesWhole true microSign [Wide.GreekSmallMu] = true
  /\ ~ In (Wide.toLowerCase [Wide.GreekSmallMu])
          (map Wide.toLowerCase
             (map Wide.latin1 (filterDedup [JString microSign])))
  /\ createOptimizedRegex (strs ["k"])
       (Some (mkOptions (Some false) (Some true))) = Return "k"
  /\ Wide.matchesWhole true "k" [Wide.KelvinSign] = false
  /\ In (Wide.toLowerCase [Wide.KelvinSign])
        (map Wide.toLowerCase (map Wide.latin1 (filterDedup [JString "k"]))).
Proof.
  split; [reflexivity|]. split; [reflexivity|]. split.
  - cbn. intros [H|[]]. discriminate.
  - split; [reflexivity|]. split; [reflexivity|]. left. reflexivity.
Qed.

(** C3. The entry point throws exactly when the input is not an array or
    nothing remains after non-strings and empty strings are filtered out,
    and returns a pattern otherwise; it throws on the empty array and on
    arrays of empty strings. *)
Theorem throws_iff_unusable (v : JsValue) (options : option Options) :
  ((exists message, createOptimizedRegex v options = Throw message)
   <-> isArray v = false
       \/ exists elems, v = JArray elems /\ filterDedup elems = [])
  /\ ((exists pattern, createOptimizedRegex v options = Return pattern)
      <-> exists elems, v = JArray elems /\ filterDedup elems <> [])
  /\ (exists message, createOptimizedRegex (JArray []) options = Throw message)
  /\ (forall n, exists message,
        createOptimizedRegex (strs (repeat "" n)) options = Throw message).
Proof.
  assert (Hnil : forall l, isNil l = true <-> l = [] :> list string)
    by (intros []; cbn; split; congruence).
  assert (Hcons : forall l, isNil l = false <-> l <> [] :> list string)
    by (intros []; cbn; split; congruence).
  repeat split.
  - intros [m Hm]. destruct (isArray v) eqn:A; [right|now left].
    destruct v as [| | | | |elems]; try discriminate. exists elems.
    split; [reflexivity|]. apply Hnil.
    destruct (isNil (filterDedup elems)) eqn:E; [reflexivity|].
    rewrite (createOptimizedRegex_returns elems options E) in Hm.
    discriminate.
  - intros [A|(elems & -> & E)].
    + now apply createOptimizedRegex_not_array.
    + now apply createOptimizedRegex_throws, Hnil.
  - intros [p Hp]. apply returned_pattern in Hp as (elems & -> & E & _).
    exists elems. split; [reflexivity|now apply Hcons].
  - intros (elems & -> & E). apply Hcons in E.
    rewrite (createOptimizedRegex_returns elems options E). eauto.
  - now apply createOptimizedRegex_throws.
  - intros n. apply createOptimizedRegex_throws.
    unfold strs, filterDedup.
    induction n as [|n IH]; [reflexivity|exact IH].
Qed.

Lemma throws_iff_unusable_witness :
  (exists message,
     createOptimizedRegex (strs (repeat "" 2)) None = Throw message)
  /\ (exists message, createOptimizedRegex (JString "abc") None = Throw message).
Proof.
  split.
  - exact (proj2 (proj2 (proj2 (throws_iff_unusable JNull None))) 2).
  - apply (proj1 (throws_iff_unusable (JString "abc") None)).
    left. reflexivity.
Defined.

(** C9. A returned pattern has no capturing group: scanning it from the
    left, where a backslash escapes the character after it, every other
    opening parenthesis begins [(?:]. *)
Theorem no_capturing_group (v : JsValue) (options : option Options)
    (pattern : string) :
  createOptimizedRegex v options = Return pattern ->
  onlyNonCapturing pattern = true.
Proof.
  intros H. apply returned_pattern in H as (elems & _ & _ & ->).
  unfold bodyOf.
  destruct (orDefault (wordBoundaries (optionsOr options)) true).
  - rewrite <- (append_nil_r (_ ++ _)), !append_assoc.
    now rewrite skipped_word_boundary, skipped_trie, skipped_word_boundary.
  - rewrite <- (append_nil_r (trieToRegex _)). now rewrite skipped_trie.
Qed.

Lemma no_capturing_group_witness :
  createOptimizedRegex (strs ["f(x)"; "f(y)"; "f"; "(?i)"]) None
  = Return "\b(?:f(?:\((?:x\)|y\)))?|\(\?i\))\b"
  /\ onlyNonCapturing "\b(?:f(?:\((?:x\)|y\)))?|\(\?i\))\b" = true.
Proof.
  split; [reflexivity|].
  apply (no_capturing_group (strs ["f(x)"; "f(y)"; "f"; "(?i)"]) None).
  reflexivity.
Defined.

Lemma nonEmptyStrings_app (xs ys : list JsValue) :
  nonEmptyStrings (xs ++ ys) = (nonEmptyStrings xs ++ nonEmptyStrings ys)%list.
Proof.
  induction xs as [|x xs IH]; [reflexivity|].
  destruct x as [| |b|z|s|l]; cbn [app nonEmptyStrings]; try exact IH.
  destruct (isEmptyString s); [exact IH|]. cbn [app]. now rewrite IH.
Qed.

Lemma setAdd_present (x : string) (set : list string) :
  existsb (String.eqb x) set = true -> setAdd x set = set.
Proof. intros E. unfold setAdd. now rewrite E. Qed.

Lemma keepFirst_again (s : string) (l : list string) :
  In s l -> keepFirst (l ++ [s]) = keepFirst l.
Proof.
  intros Hin. rewrite <- !newSet_keepFirst.
  assert (E : existsb (String.eqb s) (newSet l) = true).
  { apply existsb_eqb_in. rewrite newSet_keepFirst. now apply in_keepFirst. }
  unfold newSet in *. rewrite fold_left_app. cbn [fold_left].
  apply setAdd_present, E.
Qed.

Lemma filterDedup_again (xs : list JsValue) (x : JsValue) :
  In x xs \/ x = JString "" -> filterDedup (xs ++ [x]) = filterDedup xs.
Proof.
  intros H. unfold filterDedup. rewrite nonEmptyStrings_app.
  destruct x as [| |b|z|s|l]; cbn [nonEmptyStrings];
    try now rewrite app_nil_r.
  destruct (isEmptyString s) eqn:E; [now rewrite app_nil_r|].
  apply keepFirst_again. apply in_nonEmptyStrings. split; [|exact E].
  destruct H as [H|H]; [exact H|]. injection H as ->. discriminate.
Qed.

Lemma keepFirst_NoDup (l : list string) : NoDup (keepFirst l).
Proof.
  induction l as [|x l IH]; [constructor|]. cbn [keepFirst].
  constructor; [|now apply NoDup_filter].
  intros H. apply filter_In in H as [_ H].
  now rewrite String.eqb_refl in H.
Qed.

Lemma stringsOf_app (xs ys : list JsValue) :
  stringsOf (xs ++ ys) = (stringsOf xs ++ stringsOf ys)%list.
Proof.
  induction xs as [|x xs IH]; [reflexivity|].
  destruct x; cbn [app stringsOf]; rewrite IH; reflexivity.
Qed.

Lemma uniqueStringsOf_snoc (xs : list JsValue) (x : JsValue) :
  uniqueStringsOf (xs ++ [x])
  = (uniqueStringsOf xs
     ++ match x with
        | JString s =>
            if isEmptyString s || existsb (String.eqb s) (uniqueStringsOf xs)
            then [] else [s]
        | _ => []
        end)%list.
Proof.
  unfold uniqueStringsOf, newSet.
  rewrite filter_app, stringsOf_app, fold_left_app.
  destruct x as [| |b|z|s|l];
    cbn [filter truthy typeofString andb stringsOf fold_left];
    rewrite ?andb_false_r; cbn [stringsOf fold_left];
    rewrite ?app_nil_r; try reflexivity.
  rewrite isEmptyString_eqb, andb_true_r.
  destruct (isEmptyString s); cbn [negb stringsOf fold_left orb];
    [now rewrite app_nil_r|].
  unfold setAdd. destruct (existsb _ _); [now rewrite app_nil_r|reflexivity].
Qed.

(** C7. The strings the compiler keeps are the non-empty strings of the
    input, each kept once, at its first occurrence and in the order of the
    input: read from the left, an element adds nothing when it is not a
    string, is empty or is already kept, and is added last otherwise. An
    input whose kept list is not empty compiles to the pattern of the
    trie of that list; so compiling the input is compiling the kept list,
    and a duplicate or an empty string appended to the input leaves the
    result unchanged. *)
Theorem compile_filterDedup (xs : list JsValue) (options : option Options) :
  uniqueStringsOf xs = filterDedup xs
  /\ uniqueStringsOf [] = []
  /\ (forall x,
        uniqueStringsOf (xs ++ [x])
        = (uniqueStringsOf xs
           ++ match x with
              | JString s =>
                  if isEmptyString s
                     || existsb (String.eqb s) (uniqueStringsOf xs)
                  then [] else [s]
              | _ => []
              end)%list)
  /\ NoDup (uniqueStringsOf xs)
  /\ (forall s, In s (uniqueStringsOf xs)
                <-> In (JString s) xs /\ isEmptyString s = false)
  /\ (isNil (filterDedup xs) = false ->
      createOptimizedRegex (JArray xs) options
      = Return
          (let body :=
             trieToRegex
               (buildTrie
                  (orDefault (caseInsensitive (optionsOr options)) false)
                  (filterDedup xs)) in
           if orDefault (wordBoundaries (optionsOr options)) true
           then "\b" ++ body ++ "\b" else body)
      /\ createOptimizedRegex (JArray xs) options
         = createOptimizedRegex (strs (filterDedup xs)) options
      /\ forall x, In x xs \/ x = JString "" ->
           createOptimizedRegex (JArray (xs ++ [x])) options
           = createOptimizedRegex (JArray xs) options).
Proof.
  split; [apply uniqueStringsOf_filterDedup|]. split; [reflexivity|].
  split; [apply uniqueStringsOf_snoc|].
  rewrite uniqueStringsOf_filterDedup.
  split; [apply keepFirst_NoDup|]. split; [intros s; apply in_filterDedup|].
  intros HV. split; [now apply createOptimizedRegex_returns|]. split.
  - unfold strs. rewrite !createOptimizedRegex_returns;
      rewrite ?filterDedup_idempotent; auto.
  - intros x Hx. rewrite !createOptimizedRegex_returns;
      rewrite ?(filterDedup_again xs x Hx); auto.
Qed.

Lemma compile_filterDedup_witness :
  uniqueStringsOf [JString "b"; JString ""; JNumber 3; JString "a"; JString "b"]
  = ["b"; "a"]
  /\ isNil (filterDedup [JString "b"; JString ""; JNumber 3; JString "a"; JString "b"])
     = false
  /\ createOptimizedRegex
       (JArray [JString "b"; JString ""; JNumber 3; JString "a"; JString "b"]) None
     = createOptimizedRegex (strs ["b"; "a"]) None.
Proof.
  split; [reflexivity|]. split; [reflexivity|].
  apply (proj2 (proj2 (proj2 (proj2 (proj2 (compile_filterDedup
           [JString "b"; JString ""; JNumber 3; JString "a"; JString "b"]
           None)))))).
  reflexivity.
Defined.

(** C5. On a valid input the returned pattern is [\b] + body + [\b], the
    body being the pattern of the trie, when [wordBoundaries] is true or
    absent, and the body alone when it is false; the pattern of ["foo"]
    finds [foo] in "a foo b" and nothing in "barfoox". *)
Theorem boundary_wrapping (elems : list JsValue) (ci : option bool) :
  isNil (filterDedup elems) = false ->
  createOptimizedRegex (JArray elems) (Some (mkOptions (Some true) ci))
  = Return ("\b" ++ trieToRegex
                      (buildTrie (orDefault ci false) (filterDedup elems))
            ++ "\b")
  /\ createOptimizedRegex (JArray elems) (Some (mkOptions None ci))
     = Return ("\b" ++ trieToRegex
                         (buildTrie (orDefault ci false) (filterDedup elems))
               ++ "\b")
  /\ createOptimizedRegex (JArray elems) None
     = Return ("\b" ++ trieToRegex (buildTrie false (filterDedup elems))
               ++ "\b")
  /\ createOptimizedRegex (JArray elems) (Some (mkOptions (Some false) ci))
     = Return (trieToRegex
                 (buildTrie (orDefault ci false) (filterDedup elems)))
  /\ createOptimizedRegex (strs ["foo"]) None = Return "\bfoo\b"
  /\ exec false "\bfoo\b" "a foo b" = Some (2, "foo")
  /\ exec false "\bfoo\b" "barfoox" = None.
Proof.
  intros HV. repeat split; now rewrite ?createOptimizedRegex_returns.
Qed.

Lemma boundary_wrapping_witness :
  isNil (filterDedup [JString "foo"; JString "food"]) = false
  /\ createOptimizedRegex (JArray [JString "foo"; JString "food"])
       (Some (mkOptions None None))
     = Return ("\b" ++ trieToRegex
                         (buildTrie false
                            (filterDedup [JString "foo"; JString "food"]))
               ++ "\b").
Proof.
  split; [reflexivity|].
  apply (boundary_wrapping [JString "foo"; JString "food"] None).
  reflexivity.
Defined.

Lemma fold_insert_lower (l : list string) :
  forall n,
    fold_left (fun root str => insertWord (toLowerCase str) root) l n
    = fold_left (fun root str => insertWord str root) (map toLowerCase l) n.
Proof.
  induction l as [|s l IH]; intros n; [reflexivity|].
  cbn [fold_left map]. apply IH.
Qed.

(** C6. With [caseInsensitive] set the strings are inserted in lower
    case and nothing else changes: the pattern is the one of the
    lower-cased vocabulary, free of inline modifiers (every group opens
    with [(?:]); the pattern of ["Abs"], matched ignoring case, matches
    "abs", "ABS" and "Abs". *)
Theorem case_insensitive_lowercases (l : list string) (elems : list JsValue)
    (wb : option bool) :
  buildTrie true l = buildTrie false (map toLowerCase l)
  /\ (isNil (filterDedup elems) = false ->
      exists pattern,
        createOptimizedRegex (JArray elems) (Some (mkOptions wb (Some true)))
        = Return pattern
        /\ pattern
           = (let body :=
                trieToRegex
                  (buildTrie false (map toLowerCase (filterDedup elems))) in
              if orDefault wb true then "\b" ++ body ++ "\b" else body)
        /\ onlyNonCapturing pattern = true)
  /\ createOptimizedRegex (strs ["Abs"]) (Some (mkOptions None (Some true)))
     = Return "\babs\b"
  /\ exec true "\babs\b" "abs" = Some (0, "abs")
  /\ exec true "\babs\b" "ABS" = Some (0, "ABS")
  /\ exec true "\babs\b" "Abs" = Some (0, "Abs")
  /\ matchesWhole true "\babs\b" "abs" = true
  /\ matchesWhole true "\babs\b" "ABS" = true
  /\ matchesWhole true "\babs\b" "Abs" = true.
Proof.
  assert (HL : forall l, buildTrie true l = buildTrie false (map toLowerCase l))
    by (intros l'; apply fold_insert_lower).
  split; [apply HL|]. split; [|repeat split].
  intros HV. eexists. split; [now apply createOptimizedRegex_returns|].
  cbn [optionsOr wordBoundaries]. unfold bodyOf.
  cbn [optionsOr caseInsensitive orDefault]. rewrite HL.
  split; [reflexivity|]. apply skipped_final, skipped_trie.
Qed.

Lemma case_insensitive_lowercases_witness :
  isNil (filterDedup [JString "Abs"; JString "ABC"]) = false
  /\ exists pattern,
       createOptimizedRegex (JArray [JString "Abs"; JString "ABC"])
         (Some (mkOptions (Some false) (Some true)))
       = Return pattern
       /\ pattern = "ab(?:s|c)"
       /\ onlyNonCapturing pattern = true.
Proof.
  split; [reflexivity|].
  destruct (proj1 (proj2 (case_insensitive_lowercases
                     [] [JString "Abs"; JString "ABC"] (Some false))))
    as (p & H1 & H2 & H3); [reflexivity|].
  exists p. split; [exact H1|]. split; [exact H2|exact H3].
Defined.

Lemma specialChars_reserved (c : ascii) :
  specialChars c = true <-> In c reserved.
Proof.
  unfold specialChars. fold reserved. rewrite existsb_exists. split.
  - intros (x & Hin & E). apply Ascii.eqb_eq in E. now subst.
  - intros H. exists c. split; [exact H|apply Ascii.eqb_refl].
Qed.

Lemma escape_cons (c : ascii) (rest : string) :
  escapeRegexChar (String c rest)
  = escapeRegexChar (String c "") ++ escapeRegexChar rest.
Proof. cbn [escapeRegexChar]. destruct (specialChars c); reflexivity. Qed.

Lemma single_word_pattern (w : string) :
  isEmptyString w = false ->
  trieToRegex (insertWord w newTrieNode) = escapeRegexChar w.
Proof.
  induction w as [|c rest IH]; [discriminate|]. intros _.
  rewrite escape_cons.
  change (insertWord (String c rest) newTrieNode)
    with (Node [(c, insertWord rest newTrieNode)] false).
  rewrite trieToRegex_unfold. cbn [alternativesOf]. rewrite app_nil_r.
  destruct rest as [|d rest'].
  - cbn [insertWord newTrieNode children]. unfold pushed.
    cbn [isEndOfWord children isEmptyMap andb combineAlternatives].
    now rewrite append_nil_r.
  - rewrite IH by reflexivity. unfold pushed.
    cbn [insertWord isEndOfWord newTrieNode children andb].
    rewrite descend_not_empty. reflexivity.
Qed.

Lemma escape_renders (w : string) :
  Renders (escapeRegexChar w) (map RChar (list_ascii_of_string w)).
Proof.
  induction w as [|c w IH]; [apply renders_nil|].
  rewrite escape_cons. cbn [list_ascii_of_string map].
  apply (renders_app _ _ [RChar c]); [apply renders_escape|exact IH].
Qed.

(** C4. A reserved metacharacter is emitted with a backslash before it
    and every other character as it is. For every valid input the
    returned pattern therefore reads as an expression without wildcard,
    in which each character of the trie is a character term, and, matched
    case-sensitively, the pattern compiled without boundaries matches
    exactly the processed words, each character, reserved or not, being
    matched by itself only. The pattern of a single word is the word
    escaped; the pattern of ["a.b", "a+c"] matches "a.b" and "a+c" and
    neither "axb" nor "axc". *)
Theorem metacharacters_escaped :
  (forall c, In c reserved ->
     escapeRegexChar (String c "") = String "\" (String c ""))
  /\ (forall c, ~ In c reserved -> escapeRegexChar (String c "") = String c "")
  /\ (forall c rest,
        escapeRegexChar (String c rest)
        = escapeRegexChar (String c "") ++ escapeRegexChar rest)
  /\ (forall elems options pattern,
        createOptimizedRegex (JArray elems) options = Return pattern ->
        exists r, parse pattern = Some r /\ wildcardFree r = true)
  /\ (forall elems ci,
        isNil (filterDedup elems) = false ->
        exists pattern,
          createOptimizedRegex (JArray elems)
            (Some (mkOptions (Some false) ci)) = Return pattern
          /\ parse pattern
             = Some (mkSeq (termsOf (buildTrie (orDefault ci false)
                                       (filterDedup elems))))
          /\ forall s,
               matchesWhole false pattern s = true
               <-> In s (map (processed (orDefault ci false))
                           (filterDedup elems)))
  /\ (forall w, isEmptyString w = false ->
        createOptimizedRegex (strs [w]) (Some (mkOptions (Some false) None))
        = Return (escapeRegexChar w))
  /\ (forall w,
        parse (escapeRegexChar w)
        = Some (mkSeq (map RChar (list_ascii_of_string w))))
  /\ createOptimizedRegex (strs ["a.b"; "a+c"])
       (Some (mkOptions (Some false) None))
     = Return "a(?:\.b|\+c)"
  /\ matchesWhole false "a(?:\.b|\+c)" "a.b" = true
  /\ matchesWhole false "a(?:\.b|\+c)" "a+c" = true
  /\ matchesWhole false "a(?:\.b|\+c)" "axb" = false
  /\ matchesWhole false "a(?:\.b|\+c)" "axc" = false
  /\ exec false "a(?:\.b|\+c)" "axb" = None
  /\ exec false "a(?:\.b|\+c)" "axc" = None.
Proof.
  split; [|split; [|split; [|split; [|split; [|split; [|split;
    [|repeat split]]]]]]].
  - intros c H. apply specialChars_reserved in H. cbn [escapeRegexChar].
    now rewrite H.
  - intros c H. cbn [escapeRegexChar].
    destruct (specialChars c) eqn:E; [|reflexivity].
    now apply specialChars_reserved in E.
  - apply escape_cons.
  - intros elems options pattern H.
    apply returned_pattern in H as (elems' & _ & _ & ->). unfold bodyOf.
    pose proof (terms_wildcardFree
                  (buildTrie
                     (orDefault (caseInsensitive (optionsOr options)) false)
                     (filterDedup elems'))) as Hw.
    destruct (orDefault (wordBoundaries (optionsOr options)) true);
      eexists; (split; [apply parse_terms|]).
    + apply renders_wrapped, trie_renders.
    + rewrite wildcardFree_mkSeq. cbn [forallb wildcardFree].
      now rewrite forallb_app, Hw.
    + apply trie_renders.
    + now rewrite wildcardFree_mkSeq.
  - intros elems ci HV. eexists.
    split; [now apply createOptimizedRegex_returns|].
    cbn [optionsOr wordBoundaries orDefault]. unfold bodyOf.
    cbn [optionsOr caseInsensitive].
    split; [apply parse_terms, trie_renders|].
    intros s. now apply whole_match_exact.
  - intros w Hw. unfold strs. cbn [map].
    rewrite createOptimizedRegex_returns;
      unfold filterDedup; cbn [nonEmptyStrings]; rewrite Hw; [|reflexivity].
    cbn [keepFirst optionsOr wordBoundaries orDefault]. unfold bodyOf.
    cbn [optionsOr caseInsensitive orDefault buildTrie fold_left filter].
    now rewrite single_word_pattern.
  - intros w. apply parse_terms, escape_renders.
Qed.

Lemma metacharacters_escaped_witness :
  In "$"%char reserved
  /\ escapeRegexChar "$" = "\$"
  /\ isEmptyString "a.b(c)" = false
  /\ createOptimizedRegex (strs ["a.b(c)"]) (Some (mkOptions (Some false) None))
     = Return "a\.b\(c\)"
  /\ isNil (filterDedup [JString "a."; JString "a.b"; JString "a?"]) = false
  /\ exists pattern,
       createOptimizedRegex (JArray [JString "a."; JString "a.b"; JString "a?"])
         (Some (mkOptions (Some false) None)) = Return pattern
       /\ pattern = "a(?:\.(?:b)?|\?)"
       /\ forall s,
            matchesWhole false pattern s = true
            <-> In s ["a."; "a.b"; "a?"].
Proof.
  split; [cbn; tauto|]. split.
  - apply (proj1 metacharacters_escaped "$"%char). cbn. tauto.
  - split; [reflexivity|]. split.
    + apply (proj1 (proj2 (proj2 (proj2 (proj2 (proj2 metacharacters_escaped)))))
               "a.b(c)").
      reflexivity.
    + split; [reflexivity|].
      destruct (proj1 (proj2 (proj2 (proj2 (proj2 metacharacters_escaped))))
                  [JString "a."; JString "a.b"; JString "a?"] None)
        as (p & Hp & _ & H); [reflexivity|].
      exists p. split; [exact Hp|]. split; [|exact H].
      cbv in Hp. now injection Hp as <-.
Defined.

Lemma specCombine_combine (l : list string) :
  specCombine l = combineAlternatives l.
Proof. destruct l as [|a [|b l]]; reflexivity. Qed.

Lemma pushed_spec (c : ascii) (child : TrieNode) :
  goodChild (c, child) = true ->
  pushed c child (trieToRegex child) = [specAlternative (c, child)].
Proof.
  unfold goodChild, pushed, specAlternative. cbn [fst snd]. intros H.
  apply andb_true_iff in H as [Hm Hwf].
  destruct (isEndOfWord child), (isEmptyMap (children child)) eqn:Hc;
    cbn [andb negb orb] in *; try reflexivity; try discriminate.
  rewrite (proj2 (trie_renders child)), (terms_not_nil child Hwf Hc).
  reflexivity.
Qed.

Lemma alternatives_spec (ch : list (ascii * TrieNode)) :
  forallb goodChild ch = true -> alternativesOf ch = map specAlternative ch.
Proof.
  induction ch as [|[c child] ch IH]; [reflexivity|]. intros H.
  cbn [forallb] in H. apply andb_true_iff in H as [Hg H].
  cbn [alternativesOf map]. now rewrite (pushed_spec c child Hg), IH.
Qed.

Lemma subnode_wellFormed (m n : TrieNode) :
  subnode m n -> wellFormed n = true -> wellFormed m = true.
Proof.
  induction 1 as [|n c child Hin _ IH]; [auto|]. intros Hwf.
  apply IH. destruct n as [ch e]. rewrite wellFormed_unfold in Hwf.
  cbn [children] in Hin.
  apply (proj1 (forallb_forall _ _) Hwf) in Hin.
  unfold goodChild in Hin. cbn [snd] in Hin.
  now apply andb_true_iff in Hin.
Qed.

Lemma child_good (n : TrieNode) (c : ascii) (child : TrieNode) :
  wellFormed n = true -> In (c, child) (children n) ->
  goodChild (c, child) = true.
Proof.
  destruct n as [ch e]. rewrite wellFormed_unfold. cbn [children].
  intros Hwf Hin. exact (proj1 (forallb_forall _ _) Hwf _ Hin).
Qed.

Lemma descend_keys (c : ascii) (k : TrieNode -> TrieNode)
    (m : list (ascii * TrieNode)) :
  map fst (descend c k m)
  = if existsb (Ascii.eqb c) (map fst m) then map fst m
    else (map fst m ++ [c])%list.
Proof.
  induction m as [|[key child] m IH]; [reflexivity|].
  cbn [descend map fst existsb]. rewrite (Ascii.eqb_sym c key).
  destruct (key =? c)%char; cbn [orb map fst]; [reflexivity|].
  rewrite IH. now destruct (existsb _ _).
Qed.

(** C2. A character new to a node is added after the children already
    there, which keep their places. For a node of a trie built by
    [buildTrie], the pattern is the
    combination of one alternative per child, in the order of the map:
    the escaped character alone for a complete word without children, the
    escaped character and the optional group of the child's pattern for a
    complete word with children, the escaped character and the child's
    pattern otherwise; no alternative gives the empty pattern, one
    alternative is returned as it is, several are joined with [|] in a
    non-capturing group. *)
Theorem trieToRegex_per_child :
  (forall c rest node,
     map fst (children (insertWord (String c rest) node))
     = if existsb (Ascii.eqb c) (map fst (children node))
       then map fst (children node)
       else (map fst (children node) ++ [c])%list)
  /\ forall ci l n,
       subnode n (buildTrie ci l) ->
       trieToRegex n = specCombine (map specAlternative (children n)).
Proof.
  split; [intros c rest node; apply descend_keys|].
  intros ci l n Hsub.
  pose proof (subnode_wellFormed _ _ Hsub (buildTrie_wellFormed ci l)) as Hwf.
  destruct n as [ch e]. rewrite trieToRegex_unfold, specCombine_combine.
  rewrite wellFormed_unfold in Hwf. cbn [children].
  now rewrite alternatives_spec.
Qed.

Lemma trieToRegex_per_child_witness :
  subnode (buildTrie false ["Set"; "SetTimer"; "Say"])
          (buildTrie false ["Set"; "SetTimer"; "Say"])
  /\ trieToRegex (buildTrie false ["Set"; "SetTimer"; "Say"])
     = specCombine
         (map specAlternative
            (children (buildTrie false ["Set"; "SetTimer"; "Say"]))).
Proof.
  split; [apply subnode_here|].
  apply (proj2 trieToRegex_per_child false ["Set"; "SetTimer"; "Say"]).
  apply subnode_here.
Defined.

Lemma subnode_good (m n : TrieNode) (c : ascii) :
  subnode m n -> goodChild (c, n) = true -> goodChild (c, m) = true.
Proof.
  induction 1 as [|n c' child' Hin _ IH]; [auto|]. intros Hg.
  apply IH. unfold goodChild in Hg. cbn [snd] in Hg.
  apply andb_true_iff in Hg as [_ Hwf].
  pose proof (child_good n c' child' Hwf Hin) as H.
  exact H.
Qed.

(** C10. In a trie built by [buildTrie], every node below the root that
    is not marked has a child, and the pattern of every node with a child
    is not empty; so no child visited by [trieToRegex] is a complete word
    with children and an empty pattern, and none is unmarked without
    children. *)
Theorem built_trie_invariant (ci : bool) (l : list string) :
  (forall m, below m (buildTrie ci l) -> isEndOfWord m = false ->
     isEmptyMap (children m) = false)
  /\ (forall m, subnode m (buildTrie ci l) ->
        isEmptyMap (children m) = false ->
        isEmptyString (trieToRegex m) = false)
  /\ (forall m c child, subnode m (buildTrie ci l) ->
        In (c, child) (children m) ->
        ~ (isEndOfWord child = true /\ isEmptyMap (children child) = false
           /\ isEmptyString (trieToRegex child) = true)
        /\ ~ (isEndOfWord child = false /\ isEmptyMap (children child) = true)).
Proof.
  pose proof (buildTrie_wellFormed ci l) as Hroot.
  assert (Hne : forall m, wellFormed m = true ->
                  isEmptyMap (children m) = false ->
                  isEmptyString (trieToRegex m) = false).
  { intros m Hwf Hc. rewrite (proj2 (trie_renders m)).
    now apply terms_not_nil. }
  assert (Hgood : forall m c child, subnode m (buildTrie ci l) ->
                    In (c, child) (children m) -> goodChild (c, child) = true).
  { intros m c child Hsub Hin.
    apply (child_good m); [|exact Hin]. now apply (subnode_wellFormed _ _ Hsub). }
  split; [|split].
  - intros m (c & child & Hin & Hsub) He.
    pose proof (Hgood _ c child (subnode_here _) Hin) as Hg.
    apply (subnode_good _ _ c Hsub) in Hg.
    unfold goodChild in Hg. cbn [snd] in Hg.
    apply andb_true_iff in Hg as [Hg _]. rewrite He in Hg.
    now apply negb_true_iff in Hg.
  - intros m Hsub. apply Hne. now apply (subnode_wellFormed _ _ Hsub).
  - intros m c child Hsub Hin. specialize (Hgood m c child Hsub Hin).
    unfold goodChild in Hgood. cbn [snd] in Hgood.
    apply andb_true_iff in Hgood as [Hm Hwf]. split.
    + intros (_ & Hc & He). rewrite (Hne child Hwf Hc) in He. discriminate.
    + intros (He & Hc). rewrite He, Hc in Hm. discriminate.
Qed.

Lemma built_trie_invariant_witness :
  let root := buildTrie false ["ab"; "a"; "cd"] in
  let c := Node [("d"%char, Node [] true)] false in
  below c root /\ isEndOfWord c = false /\ isEmptyMap (children c) = false.
Proof.
  cbv zeta.
  assert (H : below (Node [("d"%char, Node [] true)] false)
                    (buildTrie false ["ab"; "a"; "cd"])).
  { exists "c"%char, (Node [("d"%char, Node [] true)] false).
    split; [right; left; reflexivity|apply subnode_here]. }
  split; [exact H|]. split; [reflexivity|].
  apply (proj1 (built_trie_invariant false ["ab"; "a"; "cd"]) _ H).
  reflexivity.
Defined.

(* ================================================================== *)
(** ** The rules of the standard library *)

Lemma bind_return {A B : Type} (m : result A) (k : A -> result B) (b : B) :
  bind m k = Return b -> exists a, m = Return a /\ k a = Return b.
Proof. destruct m as [a|msg]; cbn; [eauto|discriminate]. Qed.

Lemma pushRule_return (nm : string) (v : list string) (s s' : list Rule) :
  pushRule nm v s = Return s' ->
  (isNil v = true /\ s' = s)
  \/ (isNil v = false
      /\ exists p, createOptimizedRegex (strs v) None = Return p
                   /\ s' = (s ++ [mkRule nm (lookbehind ++ p)])%list).
Proof.
  unfold pushRule. destruct v as [|x v]; cbn [List.length Nat.eqb isNil].
  - intros H. injection H as <-. now left.
  - destruct (createOptimizedRegex (strs (x :: v)) None) as [p|msg];
      [|discriminate].
    intros H. injection H as <-. right. split; [reflexivity|]. now exists p.
Qed.

Lemma pushRule_keeps (nm : string) (v : list string) (s s' : list Rule) :
  pushRule nm v s = Return s' ->
  (prefixed s -> prefixed s')
  /\ (forall r, In r s -> In r s')
  /\ (isNil v = false ->
      exists p, createOptimizedRegex (strs v) None = Return p
                /\ In (mkRule nm (lookbehind ++ p)) s').
Proof.
  intros H. apply pushRule_return in H as [[Hv ->]|(Hv & p & Hp & ->)].
  - repeat split; auto. congruence.
  - repeat split.
    + intros Hs r Hr. apply in_app_iff in Hr as [Hr|[<-|[]]]; [auto|].
      now exists v, p.
    + intros r Hr. apply in_app_iff. now left.
    + intros _. exists p. split; [exact Hp|]. apply in_app_iff. right.
      now left.
Qed.

Lemma in_nonEmpty (s : string) (l : list string) :
  In s (nonEmpty l) -> isEmptyString s = false.
Proof.
  unfold nonEmpty. intros H. apply filter_In in H as [_ H].
  now apply negb_true_iff in H.
Qed.

(** The compiler never throws on a non-empty vocabulary of qualified
    names. *)
Lemma dotted_vocabulary_compiles (libs : Libraries) (nm : string)
    (v : list string) :
  In (nm, v) (dottedVocabularies libs) -> isNil v = false ->
  exists p, createOptimizedRegex (strs v) None = Return p.
Proof.
  intros Hin Hv.
  assert (HF : Forall (fun s => isEmptyString s = false) v).
  { apply Forall_forall. intros s Hs.
    destruct Hin as [E|[E|[E|[E|[]]]]]; injection E as <- <-;
      now apply in_nonEmpty in Hs. }
  eexists. apply createOptimizedRegex_returns.
  unfold filterDedup. rewrite (nonEmptyStrings_strs v HF).
  now destruct v.
Qed.

(** C8. When the script has filled the rules of the standard library,
    the rule of every non-empty vocabulary of qualified names has as its
    match value the lookbehind [(?<![^.]\.|:)] followed by the pattern the
    compiler returns for that vocabulary, and so has every rule; the
    pattern itself opens no group but [(?:], the lookbehind is the
    caller's. *)
Theorem lookbehind_by_caller (libs : Libraries) (rules : list Rule)
    (ruleName : string) (vocabulary : list string) :
  standardLibrary libs = Return rules ->
  In (ruleName, vocabulary) (dottedVocabularies libs) ->
  isNil vocabulary = false ->
  (exists pattern,
     createOptimizedRegex (strs vocabulary) None = Return pattern
     /\ In (mkRule ruleName (lookbehind ++ pattern)) rules
     /\ onlyNonCapturing pattern = true)
  /\ forall r, In r rules ->
       exists v p, createOptimizedRegex (strs v) None = Return p
                   /\ ruleMatch r = lookbehind ++ p.
Proof.
  unfold standardLibrary. intros H Hin Hv.
  apply bind_return in H as (gf & _ & H).
  apply bind_return in H as (gc & _ & H). unfold standard in H.
  apply bind_return in H as (s1 & H1 & H).
  apply bind_return in H as (s2 & H2 & H).
  apply bind_return in H as (s3 & H3 & H).
  apply bind_return in H as (s4 & H4 & H).
  apply bind_return in H as (s5 & H5 & H6).
  apply pushRule_keeps in H1 as (P1 & _ & _).
  apply pushRule_keeps in H2 as (P2 & _ & _).
  apply pushRule_keeps in H3 as (P3 & K3 & N3).
  apply pushRule_keeps in H4 as (P4 & K4 & N4).
  apply pushRule_keeps in H5 as (P5 & K5 & N5).
  apply pushRule_keeps in H6 as (P6 & K6 & N6).
  split.
  - assert (Hp : exists pattern,
               createOptimizedRegex (strs vocabulary) None = Return pattern
               /\ In (mkRule ruleName (lookbehind ++ pattern)) rules).
    { destruct Hin as [E|[E|[E|[E|[]]]]]; injection E as <- <-.
      - destruct (N3 Hv) as (p & Hp & Hr). exists p. auto.
      - destruct (N4 Hv) as (p & Hp & Hr). exists p. auto.
      - destruct (N5 Hv) as (p & Hp & Hr). exists p. auto.
      - destruct (N6 Hv) as (p & Hp & Hr). exists p. auto. }
    destruct Hp as (p & Hp & Hr). exists p. repeat split; auto.
    apply returned_pattern in Hp as (elems & _ & _ & ->).
    apply skipped_final, skipped_trie.
  - apply P6, P5, P4, P3, P2, P1. intros r [].
Qed.

Lemma lookbehind_by_caller_witness :
  standardLibrary sampleLibraries
  = Return
      [mkRule "support.function.luau" "(?<![^.]\.|:)\bp(?:rint|call)\b";
       mkRule "constant.language.luau" "(?<![^.]\.|:)\b_G\b";
       mkRule "support.function.luau"
         "(?<![^.]\.|:)\bmath\.(?:a(?:bs|cos)|max)\b";
       mkRule "support.constant.luau" "(?<![^.]\.|:)\bmath\.pi\b";
       mkRule "support.function.luau" "(?<![^.]\.|:)\bll\.Say\b"]
  /\ In ("support.function.luau", ["math.abs"; "math.acos"; "math.max"])
        (dottedVocabularies sampleLibraries)
  /\ isNil ["math.abs"; "math.acos"; "math.max"] = false
  /\ exists pattern,
       createOptimizedRegex (strs ["math.abs"; "math.acos"; "math.max"]) None
       = Return pattern
       /\ In (mkRule "support.function.luau" (lookbehind ++ pattern))
            [mkRule "support.function.luau" "(?<![^.]\.|:)\bp(?:rint|call)\b";
             mkRule "constant.language.luau" "(?<![^.]\.|:)\b_G\b";
             mkRule "support.function.luau"
               "(?<![^.]\.|:)\bmath\.(?:a(?:bs|cos)|max)\b";
             mkRule "support.constant.luau" "(?<![^.]\.|:)\bmath\.pi\b";
             mkRule "support.function.luau" "(?<![^.]\.|:)\bll\.Say\b"]
       /\ onlyNonCapturing pattern = true.
Proof.
  split; [reflexivity|]. split; [left; reflexivity|]. split; [reflexivity|].
  refine (proj1 (lookbehind_by_caller sampleLibraries _
                   "support.function.luau"
                   ["math.abs"; "math.acos"; "math.max"] _ _ _)).
  - reflexivity.
  - left. reflexivity.
  - reflexivity.
Defined.

(* ================================================================== *)
(** ** The scenarios of the specification *)

Example prefix_handling :
  createOptimizedRegex (strs ["Set"; "SetTimerEvent"])
    (Some (mkOptions (Some false) None))
  = Return "Set(?:TimerEvent)?"
  /\ matchesWhole false "Set(?:TimerEvent)?" "Set" = true
  /\ matchesWhole false "Set(?:TimerEvent)?" "SetTimerEvent" = true
  /\ exec false "Set(?:TimerEvent)?" "SetTimerEvent" = Some (0, "SetTimerEvent").
Proof. repeat split. Qed.

Example end_to_end :
  createOptimizedRegex (strs ["Abs"; "Fabs"; "Ceil"])
    (Some (mkOptions (Some true) (Some false)))
  = Return "\b(?:Abs|Fabs|Ceil)\b"
  /\ exec false "\b(?:Abs|Fabs|Ceil)\b" "Abs(x) Fabsolute Ceil()" = Some (0, "Abs")
  /\ exec false "\b(?:Abs|Fabs|Ceil)\b" "Fabsolute Ceil()" = Some (10, "Ceil")
  /\ exec false "\b(?:Abs|Fabs|Ceil)\b" "Fabsolute" = None.
Proof. repeat split. Qed.

Example wildcard_is_not_emitted :
  matchesWhole false "a.b" "axb" = true
  /\ matchesWhole false "a\.b" "axb" = false.
Proof. repeat split. Qed.

Example insertion_order :
  trieToRegex (buildTrie false ["b"; "a"; "bc"; "ad"]) = "(?:b(?:c)?|a(?:d)?)".
Proof. reflexivity. Qed.

(* ================================================================== *)
(** ** Further properties of the trie *)

Lemma distinctKeys_unfold (ch : list (ascii * TrieNode)) (e : bool) :
  distinctKeys (Node ch e)
  <-> NoDup (map fst ch) /\ Forall (fun kc => distinctKeys (snd kc)) ch.
Proof.
  cbn [distinctKeys]. apply and_iff_compat_l.
  induction ch as [|[c child] ch IH]; [split; auto|].
  rewrite IH. split.
  - intros [H1 H2]. now constructor.
  - intros H. inversion H; subst. now split.
Qed.

Lemma NoDup_snoc {A : Type} (l : list A) (x : A) :
  NoDup l -> ~ In x l -> NoDup (l ++ [x]).
Proof.
  induction 1 as [|y l Hy Hl IH]; intros Hx.
  - constructor; [intros []|constructor].
  - cbn [app]. constructor.
    + rewrite in_app_iff. intros [H|[->|[]]]; [auto|]. apply Hx. now left.
    + apply IH. intros H. apply Hx. now right.
Qed.

Lemma existsb_eqb_char (c : ascii) (l : list ascii) :
  existsb (Ascii.eqb c) l = true <-> In c l.
Proof.
  rewrite existsb_exists. split.
  - intros (x & Hin & E). apply Ascii.eqb_eq in E. now subst.
  - intros H. exists c. split; [exact H|apply Ascii.eqb_refl].
Qed.

Lemma descend_distinct (c : ascii) (k : TrieNode -> TrieNode)
    (m : list (ascii * TrieNode)) :
  (forall n, distinctKeys n -> distinctKeys (k n)) ->
  NoDup (map fst m) -> Forall (fun kc => distinctKeys (snd kc)) m ->
  NoDup (map fst (descend c k m))
  /\ Forall (fun kc => distinctKeys (snd kc)) (descend c k m).
Proof.
  intros Hk Hnd Hall. split.
  - rewrite descend_keys.
    destruct (existsb (Ascii.eqb c) (map fst m)) eqn:E; [exact Hnd|].
    apply NoDup_snoc; [exact Hnd|]. intros H.
    apply existsb_eqb_char in H. congruence.
  - clear Hnd. induction Hall as [|[key child] m Hc Hm IH].
    + cbn [descend]. constructor; [|constructor]. cbn [snd]. apply Hk.
      cbn. split; [constructor|exact I].
    + cbn [descend]. destruct (key =? c)%char.
      * constructor; [cbn [snd] in *; now apply Hk|exact Hm].
      * constructor; [exact Hc|exact IH].
Qed.

Lemma insertWord_distinct (w : string) :
  forall n, distinctKeys n -> distinctKeys (insertWord w n).
Proof.
  induction w as [|c rest IH]; intros [ch e] H.
  - exact H.
  - cbn [insertWord children isEndOfWord].
    apply distinctKeys_unfold in H as [H1 H2].
    apply distinctKeys_unfold. now apply descend_distinct.
Qed.

Lemma buildTrie_distinct (ci : bool) (l : list string) :
  distinctKeys (buildTrie ci l).
Proof.
  unfold buildTrie.
  assert (H : distinctKeys newTrieNode) by (cbn; split; [constructor|exact I]).
  revert H. generalize newTrieNode.
  induction l as [|s l IH]; intros n H; [exact H|].
  cbn [fold_left]. apply IH, insertWord_distinct, H.
Qed.

Lemma subnode_distinct (m n : TrieNode) :
  subnode m n -> distinctKeys n -> distinctKeys m.
Proof.
  induction 1 as [|n c child Hin _ IH]; [auto|]. intros H.
  apply IH. destruct n as [ch e]. apply distinctKeys_unfold in H as [_ H].
  cbn [children] in Hin.
  exact (proj1 (Forall_forall _ _) H _ Hin).
Qed.

Lemma buildTrie_lookup_iff (ci : bool) (l : list string) (w : string) :
  accepts w (buildTrie ci l) = true <-> In w (map (processed ci) l).
Proof. rewrite accepts_buildTrie. apply existsb_eqb_in. Qed.

(** X1. Looking up a word in the trie that [buildTrie] returns succeeds
    exactly for the processed input strings: a path of the word's
    characters from the root ends at a marked node if and only if the
    word was inserted. *)
Theorem lookup_after_buildTrie (ci : bool) (l : list string) (w : string) :
  accepts w (buildTrie ci l) = true <-> In w (map (processed ci) l).
Proof. rewrite accepts_buildTrie. apply existsb_eqb_in. Qed.

(** X2. In a trie built by [buildTrie] no node has two children under
    the same character: the association lists are maps. *)
Theorem buildTrie_keys_distinct (ci : bool) (l : list string) (m : TrieNode) :
  subnode m (buildTrie ci l) -> NoDup (map fst (children m)).
Proof.
  intros H. apply subnode_distinct in H; [|apply buildTrie_distinct].
  destruct m as [ch e]. now apply distinctKeys_unfold in H.
Qed.

Lemma buildTrie_keys_distinct_witness :
  subnode (buildTrie false ["ab"; "ac"; "b"]) (buildTrie false ["ab"; "ac"; "b"])
  /\ NoDup (map fst (children (buildTrie false ["ab"; "ac"; "b"]))).
Proof.
  split; [apply subnode_here|].
  apply (buildTrie_keys_distinct false ["ab"; "ac"; "b"]). apply subnode_here.
Defined.

Lemma insertWord_present (w : string) :
  forall n, distinctKeys n -> accepts w n = true -> insertWord w n = n.
Proof.
  induction w as [|c rest IH]; intros [ch e] Hd Hacc.
  - cbn in *. now subst.
  - cbn [insertWord children isEndOfWord accepts] in *. f_equal.
    apply distinctKeys_unfold in Hd as [Hnd Hall].
    induction ch as [|[key child] ch IHch]; [discriminate|].
    cbn [existsb fst snd map descend] in *.
    inversion Hnd as [|? ? Hnot Hnd']; subst.
    inversion Hall as [|? ? Hchild Hall']; subst. cbn [snd] in Hchild.
    destruct (key =? c)%char eqn:K.
    + apply Ascii.eqb_eq in K. subst key. cbn [andb] in Hacc.
      destruct (accepts rest child) eqn:A; [now rewrite IH|].
      cbn [orb] in Hacc. exfalso. apply Hnot.
      apply existsb_exists in Hacc as ([k x] & Hin & Hk).
      cbn [fst snd] in Hk. apply andb_true_iff in Hk as [Hk _].
      apply Ascii.eqb_eq in Hk. subst k.
      change c with (fst (c, x)). now apply in_map.
    + cbn [andb orb] in Hacc. f_equal. now apply IHch.
Qed.

Lemma fold_insert_dedup (l : list string) :
  forall n, distinctKeys n ->
    fold_left (fun root str => insertWord (processed false str) root) l n
    = fold_left (fun root str => insertWord (processed false str) root)
        (keepFirst (filter (fun x => negb (accepts x n)) l)) n.
Proof.
  induction l as [|x l IH]; intros n Hd; [reflexivity|].
  cbn [fold_left filter]. destruct (accepts x n) eqn:A; cbn [negb].
  - change (processed false x) with x. rewrite (insertWord_present x n Hd A).
    now apply IH.
  - cbn [keepFirst fold_left]. change (processed false x) with x.
    rewrite IH by now apply insertWord_distinct.
    do 2 f_equal. rewrite <- keepFirst_filter. f_equal.
    clear. induction l as [|y l IHl]; [reflexivity|].
    cbn [filter]. rewrite accepts_insertWord, (String.eqb_sym y x).
    destruct (String.eqb x y) eqn:E, (accepts y n); cbn [orb negb filter];
      rewrite ?E; cbn [negb]; rewrite ?IHl; reflexivity.
Qed.

Lemma fold_insert_map (ci : bool) (l : list string) :
  forall n,
    fold_left (fun root str => insertWord (processed ci str) root) l n
    = fold_left (fun root str => insertWord (processed false str) root)
        (map (processed ci) l) n.
Proof.
  induction l as [|s l IH]; intros n; [reflexivity|].
  cbn [fold_left map]. apply IH.
Qed.

Lemma filter_all {A : Type} (f : A -> bool) (l : list A) :
  (forall x, f x = true) -> filter f l = l.
Proof.
  intros H. induction l as [|x l IH]; [reflexivity|].
  cbn [filter]. now rewrite H, IH.
Qed.

(** X3. Repeated words do not change the trie: [buildTrie] returns the
    trie of the processed strings with each kept at its first occurrence,
    so that words that differ only in case collapse when
    [caseInsensitive] is set. *)
Theorem buildTrie_dedup (ci : bool) (l : list string) :
  buildTrie ci l = buildTrie false (keepFirst (map (processed ci) l)).
Proof.
  unfold buildTrie. rewrite fold_insert_map.
  rewrite fold_insert_dedup by (cbn; split; [constructor|exact I]).
  do 2 f_equal. apply filter_all. intros x. now rewrite accepts_new.
Qed.

(** X4. Escaping loses nothing: two strings with the same escaped text
    are the same string. *)
Theorem escapeRegexChar_injective (s1 s2 : string) :
  escapeRegexChar s1 = escapeRegexChar s2 -> s1 = s2.
Proof.
  revert s2. induction s1 as [|c1 s1 IH]; intros [|c2 s2] H.
  - reflexivity.
  - cbn [escapeRegexChar] in H. destruct (specialChars c2); discriminate.
  - cbn [escapeRegexChar] in H. destruct (specialChars c1); discriminate.
  - cbn [escapeRegexChar] in H.
    destruct (specialChars c1) eqn:E1, (specialChars c2) eqn:E2.
    + injection H as -> H. now rewrite (IH _ H).
    + injection H as <- _. discriminate.
    + injection H as -> _. discriminate.
    + injection H as -> H. now rewrite (IH _ H).
Qed.

Lemma escapeRegexChar_injective_witness :
  escapeRegexChar "a.b" = escapeRegexChar "a.b" /\ "a.b" = "a.b".
Proof.
  split; [reflexivity|].
  apply (escapeRegexChar_injective "a.b" "a.b"). reflexivity.
Defined.

Lemma body_not_empty (ci : bool) (elems : list JsValue) :
  isNil (filterDedup elems) = false ->
  isEmptyString (trieToRegex (buildTrie ci (filterDedup elems))) = false.
Proof.
  intros HV. rewrite (proj2 (trie_renders _)).
  apply terms_not_nil; [apply buildTrie_wellFormed|].
  apply root_has_children; [|apply filterDedup_not_empty].
  intros E. now rewrite E in HV.
Qed.

Lemma pushedTerms_head (c : ascii) (child : TrieNode) (ts : list Regex) :
  Forall (fun a => hd_error a = Some (RChar c)) (pushedTerms c child ts).
Proof.
  unfold pushedTerms.
  destruct (isEndOfWord child), (isEmptyMap (children child)), (isNil ts);
    cbn [andb negb]; repeat constructor.
Qed.

Lemma terms_head (n : TrieNode) : hd_error (termsOf n) <> Some RWordBoundary.
Proof.
  destruct n as [ch e]. rewrite termsOf_unfold.
  assert (H : Forall (fun a => exists c, hd_error a = Some (RChar c))
                (alternativeTermsOf ch)).
  { induction ch as [|[c child] ch IH]; [constructor|].
    cbn [alternativeTermsOf]. apply Forall_app. split; [|exact IH].
    eapply Forall_impl; [|apply pushedTerms_head]. intros a Ha. now exists c. }
  destruct H as [|a alts [c Ha] H]; [discriminate|].
  destruct alts; cbn [joinTerms hd_error]; [|discriminate].
  rewrite Ha. discriminate.
Qed.

(** X5. Whatever the options, a returned pattern is a well-formed
    pattern of the fragment (non-capturing groups, alternation, optional
    groups, escaped and plain characters, [\b]) and its body is never
    empty: the compiler never returns the empty pattern nor a bare
    [\b\b]. *)
Theorem pattern_well_formed (v : JsValue) (options : option Options)
    (pattern : string) :
  createOptimizedRegex v options = Return pattern ->
  (exists r, parse pattern = Some r)
  /\ isEmptyString pattern = false
  /\ pattern <> "\b\b".
Proof.
  intros H. apply returned_pattern in H as (elems & _ & HV & ->).
  unfold bodyOf.
  set (ci := orDefault (caseInsensitive (optionsOr options)) false).
  pose proof (body_not_empty ci elems HV) as Hb.
  pose proof (proj1 (trie_renders (buildTrie ci (filterDedup elems)))) as Hr.
  destruct (orDefault (wordBoundaries (optionsOr options)) true).
  - split; [|split; [reflexivity|]].
    + eexists. apply parse_terms, renders_wrapped, Hr.
    + destruct (trieToRegex _) as [|c0 [|c1 [|c2 body]]]; try discriminate.
  - split; [|split; [exact Hb|]].
    + eexists. apply parse_terms, Hr.
    + intros E. apply parse_terms in Hr. rewrite E in Hr.
      pose proof (terms_head (buildTrie ci (filterDedup elems))) as Hh.
      destruct (termsOf _) as [|t ts]; [discriminate|].
      injection Hr as Ht _. apply Hh. cbn [hd_error]. now rewrite <- Ht.
Qed.

Lemma pattern_well_formed_witness :
  createOptimizedRegex (strs ["a|b"; "a"]) None = Return "\ba(?:\|b)?\b"
  /\ (exists r, parse "\ba(?:\|b)?\b" = Some r).
Proof.
  split; [reflexivity|].
  apply (pattern_well_formed (strs ["a|b"; "a"]) None). reflexivity.
Defined.

(* ================================================================== *)
(** ** Matching with word boundaries, and searching *)

Lemma run_seq_app (ic : bool) (a b : list Regex) :
  forall st st',
    In st' (run ic (mkSeq (a ++ b)) st)
    <-> exists mid, In mid (run ic (mkSeq a) st)
                    /\ In st' (run ic (mkSeq b) mid).
Proof.
  induction a as [|t a IH]; intros st st'.
  - cbn [app]. split.
    + intros H. exists st. split; [now apply run_seq_nil|exact H].
    + intros (mid & Hm & H). apply run_seq_nil in Hm. now subst.
  - cbn [app]. rewrite run_seq_cons. split.
    + intros (m1 & H1 & H). apply IH in H as (m2 & H2 & H).
      exists m2. split; [|exact H]. apply run_seq_cons. now exists m1.
    + intros (m2 & H2 & H). apply run_seq_cons in H2 as (m1 & H1 & H2).
      exists m1. split; [exact H1|]. apply IH. now exists m2.
Qed.

Lemma run_word_boundary (ic : bool) (st st' : State) :
  In st' (run ic RWordBoundary st) <-> st' = st /\ atBoundary st = true.
Proof.
  cbn [run]. unfold atBoundary.
  destruct (xorb _ _); cbn [In]; intuition congruence.
Qed.

Lemma run_wrapped (ic : bool) (n : TrieNode) (st st' : State) :
  wellFormed n = true -> isEmptyMap (children n) = false ->
  In st' (run ic (mkSeq (RWordBoundary :: termsOf n ++ [RWordBoundary])) st)
  <-> atBoundary st = true /\ Reaches ic n st st' /\ atBoundary st' = true.
Proof.
  intros Hwf Hch. rewrite run_seq_cons. split.
  - intros (m1 & H1 & H). apply run_word_boundary in H1 as [-> Hb].
    apply run_seq_app in H as (m2 & H2 & H).
    apply (terms_reach ic n Hwf Hch) in H2.
    apply run_seq_cons in H as (m3 & H3 & H).
    apply run_seq_nil in H. subst m3.
    apply run_word_boundary in H3 as [-> Hb']. auto.
  - intros (Hb & HR & Hb'). exists st.
    split; [now apply run_word_boundary|].
    apply run_seq_app. exists st'.
    split; [now apply (terms_reach ic n Hwf Hch)|].
    apply run_seq_cons. exists st'.
    split; [now apply run_word_boundary|now apply run_seq_nil].
Qed.

(** The members of a vocabulary, seen from the root of its trie. *)
Lemma reaches_root (ic ci : bool) (V : list string) (st st' : State) :
  Reaches ic (buildTrie ci V) st st'
  <-> exists u v,
        isEmptyString u = false /\ In u (map (processed ci) V)
        /\ similar ic u v = true
        /\ snd st = v ++ snd st' /\ fst st' = lastOf (fst st) v.
Proof.
  unfold Reaches.
  split; intros (u & v & Hu & Hacc & H); exists u, v;
    (split; [exact Hu|split; [|exact H]]);
    now apply buildTrie_lookup_iff in Hacc || apply buildTrie_lookup_iff.
Qed.

Lemma vocabulary_root (ci : bool) (elems : list JsValue) :
  isNil (filterDedup elems) = false ->
  wellFormed (buildTrie ci (filterDedup elems)) = true
  /\ isEmptyMap (children (buildTrie ci (filterDedup elems))) = false.
Proof.
  intros HV. split; [apply buildTrie_wellFormed|].
  apply root_has_children; [|apply filterDedup_not_empty].
  intros E. now rewrite E in HV.
Qed.

Lemma whole_match_body (ic : bool) (elems : list JsValue) (s : string) :
  isNil (filterDedup elems) = false ->
  matchesWhole ic (trieToRegex (buildTrie ic (filterDedup elems))) s = true
  <-> In (processed ic s) (map (processed ic) (filterDedup elems)).
Proof.
  intros HV. destruct (vocabulary_root ic elems HV) as [Hwf Hch].
  unfold matchesWhole.
  rewrite (parse_terms _ _ (proj1 (trie_renders _))).
  rewrite whole_match_terms by assumption.
  rewrite <- (member_up_to_case ic _ s (filterDedup_not_empty elems)).
  split; intros (u & Hu & Hacc & Hsim); exists u; repeat split;
    try assumption; now rewrite accepts_buildTrie in *.
Qed.

(** X6. The language of the pattern does not depend on the order or the
    repetitions of the input: two arrays with the same elements give
    patterns that match the same whole strings. *)
Theorem language_order_independent (elems1 elems2 : list JsValue)
    (ci : option bool) :
  isNil (filterDedup elems1) = false ->
  (forall x, In x elems1 <-> In x elems2) ->
  exists p1 p2,
    createOptimizedRegex (JArray elems1) (Some (mkOptions (Some false) ci))
    = Return p1
    /\ createOptimizedRegex (JArray elems2) (Some (mkOptions (Some false) ci))
       = Return p2
    /\ forall s,
         matchesWhole (orDefault ci false) p1 s
         = matchesWhole (orDefault ci false) p2 s.
Proof.
  intros HV1 Hsame.
  assert (Hin : forall x, In x (filterDedup elems1) <-> In x (filterDedup elems2)).
  { intros x. rewrite !in_filterDedup. now rewrite Hsame. }
  assert (HV2 : isNil (filterDedup elems2) = false).
  { destruct (filterDedup elems1) as [|x V1] eqn:E1; [discriminate|].
    destruct (filterDedup elems2); [|reflexivity].
    destruct (proj1 (Hin x)). now left. }
  do 2 eexists.
  split; [now apply createOptimizedRegex_returns|].
  split; [now apply createOptimizedRegex_returns|].
  cbn [optionsOr wordBoundaries orDefault]. unfold bodyOf.
  cbn [optionsOr caseInsensitive]. intros s.
  set (ic := orDefault ci false).
  pose proof (whole_match_body ic elems1 s HV1) as H1.
  pose proof (whole_match_body ic elems2 s HV2) as H2.
  assert (Hmap : In (processed ic s) (map (processed ic) (filterDedup elems1))
                 <-> In (processed ic s) (map (processed ic) (filterDedup elems2))).
  { rewrite !in_map_iff. split; intros (x & E & Hx); exists x;
      (split; [exact E|now apply Hin]). }
  destruct (matchesWhole ic _ s), (matchesWhole ic _ s); try reflexivity.
  - symmetry. apply H2, Hmap, H1. reflexivity.
  - apply H1, Hmap, H2. reflexivity.
Qed.

Lemma language_order_independent_witness :
  isNil (filterDedup [JString "b"; JString "a"]) = false
  /\ (forall x, In x [JString "b"; JString "a"]
                <-> In x [JString "a"; JString "b"; JString "a"])
  /\ exists p1 p2,
       createOptimizedRegex (JArray [JString "b"; JString "a"])
         (Some (mkOptions (Some false) None)) = Return p1
       /\ createOptimizedRegex (JArray [JString "a"; JString "b"; JString "a"])
            (Some (mkOptions (Some false) None)) = Return p2
       /\ forall s, matchesWhole false p1 s = matchesWhole false p2 s.
Proof.
  assert (H : forall x, In x [JString "b"; JString "a"]
                        <-> In x [JString "a"; JString "b"; JString "a"])
    by (intros x; cbn; tauto).
  split; [reflexivity|]. split; [exact H|].
  apply (language_order_independent
           [JString "b"; JString "a"] [JString "a"; JString "b"; JString "a"]
           None); [reflexivity|exact H].
Defined.

Lemma similar_same (u v : string) : similar false u v = true <-> u = v.
Proof.
  rewrite similar_processed. cbn [processed]. apply String.eqb_eq.
Qed.

Lemma processed_not_empty (ci : bool) (elems : list JsValue) (u : string) :
  In u (map (processed ci) (filterDedup elems)) -> isEmptyString u = false.
Proof.
  intros H. apply in_map_iff in H as (x & <- & Hx). rewrite processed_empty.
  exact (proj1 (Forall_forall _ _) (filterDedup_not_empty elems) x Hx).
Qed.

(** X7. With word boundaries (the default) the pattern, matched
    case-sensitively, matches the whole of a string exactly when the
    string is a processed word of the vocabulary and both begins and ends
    with a word character: a vocabulary entry that begins or ends with
    another character, such as "$x" or "a.", is never matched as a
    whole. *)
Theorem whole_match_with_boundaries (elems : list JsValue)
    (wb ci : option bool) :
  isNil (filterDedup elems) = false ->
  orDefault wb true = true ->
  exists pattern,
    createOptimizedRegex (JArray elems) (Some (mkOptions wb ci))
    = Return pattern
    /\ forall s,
         matchesWhole false pattern s = true
         <-> In s (map (processed (orDefault ci false)) (filterDedup elems))
             /\ isWordCharAt (nextChar s) = true
             /\ isWordCharAt (lastOf None s) = true.
Proof.
  intros HV Hwb. eexists.
  split; [now apply createOptimizedRegex_returns|].
  cbn [optionsOr wordBoundaries]. rewrite Hwb. unfold bodyOf.
  cbn [optionsOr caseInsensitive]. intros s.
  set (c := orDefault ci false).
  destruct (vocabulary_root c elems HV) as [Hwf Hch].
  unfold matchesWhole.
  rewrite (parse_terms _ _ (renders_wrapped _ _ (proj1 (trie_renders _)))).
  rewrite existsb_exists.
  split.
  - intros (st' & Hin & He).
    apply (run_wrapped false _ _ _ Hwf Hch) in Hin as (Hb & HR & Hb').
    apply reaches_root in HR as (u & v & Hu & Hu' & Hsim & Hs & Hf).
    apply similar_same in Hsim. subst v.
    cbn [fst snd] in *. destruct st' as [p r]. cbn [fst snd] in *.
    destruct r; [|discriminate]. rewrite append_nil_r in Hs. subst u p.
    unfold atBoundary in *. cbn [fst snd nextChar isWordCharAt] in *.
    rewrite xorb_false_r in Hb'. now repeat split.
  - intros (Hin & Hfirst & Hlast).
    exists (lastOf None s, EmptyString). split; [|reflexivity].
    apply (run_wrapped false _ _ _ Hwf Hch). unfold atBoundary.
    cbn [fst snd nextChar isWordCharAt]. rewrite Hfirst, Hlast.
    split; [reflexivity|split; [|reflexivity]].
    apply reaches_root. exists s, s. cbn [fst snd].
    rewrite append_nil_r. repeat split; try assumption.
    + now apply (processed_not_empty c elems).
    + now apply similar_same.
Qed.

Lemma whole_match_with_boundaries_witness :
  isNil (filterDedup [JString "$x"; JString "y"]) = false
  /\ orDefault None true = true
  /\ exists pattern,
       createOptimizedRegex (JArray [JString "$x"; JString "y"])
         (Some (mkOptions None None)) = Return pattern
       /\ forall s,
            matchesWhole false pattern s = true
            <-> In s (map (processed false) ["$x"; "y"])
                /\ isWordCharAt (nextChar s) = true
                /\ isWordCharAt (lastOf None s) = true.
Proof.
  split; [reflexivity|]. split; [reflexivity|].
  apply (whole_match_with_boundaries [JString "$x"; JString "y"] None None);
    reflexivity.
Defined.

Lemma substring_prefix (v b : string) :
  substring 0 (String.length v) (v ++ b) = v.
Proof.
  induction v as [|c v IH]; [now destruct b|].
  cbn [String.length append substring]. now rewrite IH.
Qed.

Lemma lastOf_app (prev : option ascii) (a b : string) :
  lastOf prev (a ++ b) = lastOf (lastOf prev a) b.
Proof. revert prev. induction a as [|c a IH]; intros prev; cbn; auto. Qed.

(** The search returns the first success at the first position that has
    one. *)
Lemma execFrom_some (ic : bool) (r : Regex) (s : string) :
  forall i prev j x,
    execFrom ic r i prev s = Some (j, x) ->
    exists a rest st' tl,
      s = a ++ rest /\ j = i + String.length a
      /\ run ic r (lastOf prev a, rest) = st' :: tl
      /\ x = substring 0 (String.length rest - String.length (snd st')) rest
      /\ forall a1 a2, a = a1 ++ a2 -> isEmptyString a2 = false ->
           run ic r (lastOf prev a1, a2 ++ rest) = [].
Proof.
  induction s as [|c s IH]; intros i prev j x H; cbn [execFrom] in H.
  - destruct (run ic r (prev, EmptyString)) as [|st' tl] eqn:E; [discriminate|].
    injection H as <- <-. exists EmptyString, EmptyString, st', tl.
    cbn [append lastOf String.length]. repeat split; auto.
    intros [|? ?] [|? ?]; discriminate.
  - destruct (run ic r (prev, String c s)) as [|st' tl] eqn:E.
    + apply IH in H as (a & rest & st' & tl & -> & -> & Hrun & -> & Hleft).
      exists (String c a), rest, st', tl. cbn [append lastOf String.length].
      split; [reflexivity|]. split; [lia|]. split; [exact Hrun|].
      split; [reflexivity|].
      intros [|c1 a1] a2 Ha Hne; cbn [append] in Ha.
      * subst a2. exact E.
      * injection Ha as <- ->. cbn [lastOf]. now apply Hleft.
    + injection H as <- <-. exists EmptyString, (String c s), st', tl.
      cbn [append lastOf String.length]. repeat split; auto.
      intros [|? ?] [|? ?]; discriminate.
Qed.

Lemma execFrom_none (ic : bool) (r : Regex) (s : string) :
  forall i prev,
    execFrom ic r i prev s = None
    <-> forall a rest, s = a ++ rest -> run ic r (lastOf prev a, rest) = [].
Proof.
  induction s as [|c s IH]; intros i prev; cbn [execFrom].
  - destruct (run ic r (prev, EmptyString)) as [|st' tl] eqn:E; split.
    + intros _ [|? ?] [|? ?] H; try discriminate. exact E.
    + reflexivity.
    + discriminate.
    + intros H. specialize (H EmptyString EmptyString eq_refl).
      cbn [lastOf] in H. congruence.
  - destruct (run ic r (prev, String c s)) as [|st' tl] eqn:E.
    + rewrite IH. split.
      * intros H [|c1 a] rest Hs; cbn [append] in Hs.
        -- subst rest. exact E.
        -- injection Hs as <- ->. cbn [lastOf]. now apply H.
      * intros H a rest ->. exact (H (String c a) rest eq_refl).
    + split; [discriminate|]. intros H.
      specialize (H EmptyString (String c s) eq_refl).
      cbn [lastOf] in H. congruence.
Qed.

(** X8. With word boundaries (the default), a case-sensitive search
    returns a match only where a processed word of the vocabulary stands
    between two word boundaries, and it finds nothing exactly when the
    subject has no such occurrence. *)
Theorem search_between_boundaries (elems : list JsValue)
    (wb ci : option bool) :
  isNil (filterDedup elems) = false ->
  orDefault wb true = true ->
  exists pattern,
    createOptimizedRegex (JArray elems) (Some (mkOptions wb ci))
    = Return pattern
    /\ (forall s i w,
          exec false pattern s = Some (i, w) ->
          exists a b,
            s = a ++ w ++ b /\ String.length a = i
            /\ In w (map (processed (orDefault ci false)) (filterDedup elems))
            /\ atBoundary (lastOf None a, w ++ b) = true
            /\ atBoundary (lastOf None (a ++ w), b) = true)
    /\ (forall s,
          exec false pattern s = None
          <-> forall a w b,
                s = a ++ w ++ b ->
                In w (map (processed (orDefault ci false)) (filterDedup elems)) ->
                atBoundary (lastOf None a, w ++ b) = true ->
                atBoundary (lastOf None (a ++ w), b) = true -> False).
Proof.
  intros HV Hwb. eexists.
  split; [now apply createOptimizedRegex_returns|].
  cbn [optionsOr wordBoundaries]. rewrite Hwb. unfold bodyOf.
  cbn [optionsOr caseInsensitive].
  set (c := orDefault ci false). set (V := filterDedup elems).
  destruct (vocabulary_root c elems HV) as [Hwf Hch]. fold V in Hwf, Hch.
  unfold exec.
  rewrite (parse_terms _ _ (renders_wrapped _ _ (proj1 (trie_renders _)))).
  split.
  - intros s i w H.
    apply execFrom_some in H as (a & rest & st' & tl & -> & -> & Hrun & -> & _).
    assert (Hin : In st' (st' :: tl)) by now left. rewrite <- Hrun in Hin.
    apply (run_wrapped false _ _ _ Hwf Hch) in Hin as (Hb & HR & Hb').
    apply reaches_root in HR as (u & v & Hu & Hu' & Hsim & Hs & Hf).
    apply similar_same in Hsim. subst v.
    cbn [fst snd] in Hs, Hf. destruct st' as [p b]. cbn [fst snd] in *.
    subst rest p. rewrite length_append, Nat.add_sub, substring_prefix.
    exists a, b. repeat split; auto.
    now rewrite lastOf_app.
  - intros s. rewrite execFrom_none. split.
    + intros H a w b -> Hw Hb Hb'.
      specialize (H a (w ++ b) eq_refl).
      assert (Hin : In (lastOf None (a ++ w), b)
                      (run false (mkSeq (RWordBoundary :: termsOf (buildTrie c V)
                                         ++ [RWordBoundary]))
                         (lastOf None a, w ++ b))).
      { apply (run_wrapped false _ _ _ Hwf Hch). split; [exact Hb|].
        split; [|exact Hb']. apply reaches_root. exists w, w.
        cbn [fst snd]. rewrite lastOf_app. repeat split; auto.
        - now apply (processed_not_empty c elems).
        - now apply similar_same. }
      rewrite H in Hin. exact Hin.
    + intros H a rest ->.
      destruct (run false _ (lastOf None a, rest)) as [|st' tl] eqn:Hrun;
        [reflexivity|exfalso].
      assert (Hin : In st' (st' :: tl)) by now left. rewrite <- Hrun in Hin.
      apply (run_wrapped false _ _ _ Hwf Hch) in Hin as (Hb & HR & Hb').
      apply reaches_root in HR as (u & v & Hu & Hu' & Hsim & Hs & Hf).
      apply similar_same in Hsim. subst v.
      cbn [fst snd] in Hs, Hf. destruct st' as [p b]. cbn [fst snd] in *.
      subst rest p. apply (H a u b eq_refl).
      * exact Hu'.
      * exact Hb.
      * now rewrite lastOf_app.
Qed.

Lemma search_between_boundaries_witness :
  isNil (filterDedup [JString "foo"; JString "foobar"]) = false
  /\ orDefault None true = true
  /\ exists pattern,
       createOptimizedRegex (JArray [JString "foo"; JString "foobar"])
         (Some (mkOptions None None)) = Return pattern
       /\ exec false pattern "a foobar b" = Some (2, "foobar")
       /\ exec false pattern "afoo foob" = None.
Proof.
  split; [reflexivity|]. split; [reflexivity|].
  destruct (search_between_boundaries
              [JString "foo"; JString "foobar"] None None)
    as (p & Hp & _); [reflexivity|reflexivity|].
  exists p. split; [exact Hp|].
  cbv in Hp. injection Hp as <-. split; reflexivity.
Defined.

(* ================================================================== *)
(** ** The order of the successes: longest first *)

Lemma longestFirst_app (l1 l2 : list State) :
  longestFirst l1 -> longestFirst l2 ->
  (forall x y, In x l1 -> In y l2 -> remaining x < remaining y) ->
  longestFirst (l1 ++ l2).
Proof.
  induction l1 as [|x l1 IH]; intros H1 H2 H; [exact H2|].
  cbn [app longestFirst] in *. destruct H1 as [Hx H1]. split.
  - apply Forall_app. split; [exact Hx|].
    apply Forall_forall. intros y Hy. apply H; [now left|exact Hy].
  - apply IH; auto. intros x0 y Hx0 Hy. apply H; [now right|exact Hy].
Qed.

Lemma longestFirst_filter (f : State -> bool) (l : list State) :
  longestFirst l -> longestFirst (filter f l).
Proof.
  induction l as [|x l IH]; [auto|]. intros [Hx Hl].
  cbn [filter]. destruct (f x); [|auto].
  cbn [longestFirst]. split; [|auto].
  apply Forall_forall. intros y Hy. apply filter_In in Hy as [Hy _].
  exact (proj1 (Forall_forall _ _) Hx y Hy).
Qed.

Lemma flat_map_unit {A : Type} (l : list A) : flat_map (fun x => [x]) l = l.
Proof. induction l as [|x l IH]; [reflexivity|]. cbn. now rewrite IH. Qed.

Lemma run_then_empty (ic : bool) (r : Regex) (st : State) :
  run ic (RSeq r REmpty) st = run ic r st.
Proof. cbn [run]. apply flat_map_unit. Qed.

Lemma run_mkAlt_eq (ic : bool) (rs : list Regex) :
  forall r st,
    run ic (mkAlt r rs) st = flat_map (fun x => run ic x st) (r :: rs).
Proof.
  induction rs as [|r2 rs IH]; intros r st.
  - cbn. now rewrite app_nil_r.
  - cbn [mkAlt run]. rewrite IH. reflexivity.
Qed.

Lemma run_join_eq (ic : bool) (alts : list (list Regex)) (st : State) :
  isNil alts = false ->
  run ic (mkSeq (joinTerms alts)) st
  = flat_map (fun a => run ic (mkSeq a) st) alts.
Proof.
  destruct alts as [|a [|b others]]; [discriminate| |]; intros _.
  - cbn [joinTerms flat_map]. now rewrite app_nil_r.
  - cbn [joinTerms]. change (mkSeq [?r]) with (RSeq r REmpty).
    rewrite run_then_empty, run_mkAlt_eq.
    change (mkSeq a :: map mkSeq (b :: others))
      with (map mkSeq (a :: b :: others)).
    generalize (a :: b :: others). intros l.
    induction l as [|x l IH]; [reflexivity|]. cbn. now rewrite IH.
Qed.

Lemma run_char_first (ic : bool) (c : ascii) (ts : list Regex) (st : State) :
  run ic (mkSeq (RChar c :: ts)) st
  = match snd st with
    | String d rest =>
        if charMatches ic c d then run ic (mkSeq ts) (Some d, rest) else []
    | EmptyString => []
    end.
Proof.
  cbn [mkSeq fold_right run]. destruct (snd st) as [|d rest]; [reflexivity|].
  destruct (charMatches ic c d); [|reflexivity]. cbn. apply app_nil_r.
Qed.

Lemma reaches_shorter (ic : bool) (n : TrieNode) (st st' : State) :
  Reaches ic n st st' -> remaining st' < remaining st.
Proof.
  intros (u & v & Hu & _ & Hsim & Hs & _). unfold remaining.
  apply similar_empty in Hsim. rewrite Hu in Hsim.
  rewrite Hs, length_append. destruct v; [discriminate|].
  cbn [String.length]. lia.
Qed.

(** The successes through a child begin with the child's character. *)
Lemma child_needs_key (c : ascii) (child : TrieNode) (st : State) :
  nextChar (snd st) <> Some c ->
  flat_map (fun a => run false (mkSeq a) st)
    (pushedTerms c child (termsOf child)) = [].
Proof.
  intros Hn.
  pose proof (pushedTerms_head c child (termsOf child)) as H.
  induction H as [|a alts Ha _ IH]; [reflexivity|].
  cbn [flat_map]. rewrite IH, app_nil_r.
  destruct a as [|t ts]; [discriminate|]. injection Ha as ->.
  rewrite run_char_first. destruct (snd st) as [|d rest]; [reflexivity|].
  cbn [charMatches]. destruct (Ascii.eqb_spec c d) as [->|]; [|reflexivity].
  now elim Hn.
Qed.

Lemma children_need_key (ch : list (ascii * TrieNode)) (st : State) :
  (forall e, In e ch -> nextChar (snd st) <> Some (fst e)) ->
  flat_map (fun a => run false (mkSeq a) st) (alternativeTermsOf ch) = [].
Proof.
  induction ch as [|[c child] ch IH]; intros H; [reflexivity|].
  cbn [alternativeTermsOf]. rewrite flat_map_app, IH.
  - rewrite app_nil_r. apply child_needs_key. apply (H (c, child)). now left.
  - intros e He. apply H. now right.
Qed.

Lemma child_ordered (c : ascii) (child : TrieNode) (st : State) :
  goodChild (c, child) = true -> distinctKeys child -> Ordered child ->
  longestFirst
    (flat_map (fun a => run false (mkSeq a) st)
       (pushedTerms c child (termsOf child))).
Proof.
  intros Hgood Hd IH. unfold goodChild in Hgood. cbn [snd] in Hgood.
  apply andb_true_iff in Hgood as [Hmark Hwf].
  specialize (IH Hwf Hd). unfold pushedTerms.
  destruct (isEndOfWord child) eqn:He, (isEmptyMap (children child)) eqn:Hc;
    cbn [andb negb orb] in *; try discriminate.
  - cbn [flat_map]. rewrite app_nil_r, run_char_first.
    destruct (snd st) as [|d rest]; [exact I|].
    destruct (charMatches false c d); [|exact I].
    cbn. split; [constructor|exact I].
  - rewrite (terms_not_nil child Hwf Hc). cbn [negb flat_map].
    rewrite app_nil_r, run_char_first.
    destruct (snd st) as [|d rest]; [exact I|].
    destruct (charMatches false c d); [|exact I].
    change (mkSeq [?r]) with (RSeq r REmpty). rewrite run_then_empty.
    cbn [run]. apply longestFirst_app.
    + apply longestFirst_filter, IH. reflexivity.
    + cbn. split; [constructor|exact I].
    + intros x y Hx [<-|[]]. apply filter_In in Hx as [Hx _].
      apply (terms_reach false child Hwf Hc) in Hx.
      now apply reaches_shorter in Hx.
  - cbn [flat_map]. rewrite app_nil_r, run_char_first.
    destruct (snd st) as [|d rest]; [exact I|].
    destruct (charMatches false c d); [|exact I].
    apply IH. reflexivity.
Qed.

Lemma children_ordered (ch : list (ascii * TrieNode)) (st : State) :
  Forall (fun kc => Ordered (snd kc)) ch ->
  forallb goodChild ch = true ->
  NoDup (map fst ch) ->
  Forall (fun kc => distinctKeys (snd kc)) ch ->
  longestFirst
    (flat_map (fun a => run false (mkSeq a) st) (alternativeTermsOf ch)).
Proof.
  induction 1 as [|[c child] ch IH1 _ IH]; intros Hgood Hnd Hd; [exact I|].
  cbn [forallb] in Hgood. apply andb_true_iff in Hgood as [Hg Hgood].
  cbn [map fst] in Hnd. inversion Hnd as [|? ? Hnot Hnd']; subst.
  inversion Hd as [|? ? Hdc Hd']; subst. cbn [snd] in *.
  cbn [alternativeTermsOf]. rewrite flat_map_app.
  assert (Hcase : nextChar (snd st) = Some c \/ nextChar (snd st) <> Some c).
  { destruct (nextChar (snd st)) as [d|]; [|right; discriminate].
    destruct (Ascii.eqb_spec d c) as [->|N]; [now left|right; congruence]. }
  destruct Hcase as [E|N].
  - rewrite (children_need_key ch st), app_nil_r; [now apply child_ordered|].
    intros e He Hk. apply Hnot. rewrite E in Hk. injection Hk as ->.
    now apply in_map.
  - rewrite (child_needs_key c child st N). cbn [app]. now apply IH.
Qed.

Lemma terms_ordered (n : TrieNode) : Ordered n.
Proof.
  induction n as [ch e IH] using TrieNode_nested_ind.
  intros Hwf Hd Hch st. rewrite wellFormed_unfold in Hwf.
  apply distinctKeys_unfold in Hd as [Hnd Hd]. cbn [children] in Hch.
  rewrite termsOf_unfold, run_join_eq by now apply alternativeTerms_some.
  now apply children_ordered.
Qed.

Lemma append_split (a r a' r' : string) :
  a ++ r = a' ++ r' -> String.length a' <= String.length a ->
  exists a2, a = a' ++ a2 /\ r' = a2 ++ r.
Proof.
  revert a. induction a' as [|c a' IH]; intros a H Hlen.
  - exists a. cbn in *. auto.
  - destruct a as [|d a]; [cbn in Hlen; lia|].
    cbn [append] in H. injection H as -> H.
    cbn [String.length] in Hlen.
    destruct (IH a H) as (a2 & -> & ->); [lia|].
    exists a2. auto.
Qed.

Lemma similar_exact (u v : string) : similar false u v = true -> u = v.
Proof.
  intros H. rewrite similar_processed in H. now apply String.eqb_eq in H.
Qed.

Lemma similar_refl (u : string) : similar false u u = true.
Proof. rewrite similar_processed. apply String.eqb_refl. Qed.

(** What the case-sensitive successes of a vocabulary's body are. *)
Lemma body_success (ci : bool) (elems : list JsValue) (st st' : State) :
  isNil (filterDedup elems) = false ->
  In st' (run false (mkSeq (termsOf (buildTrie ci (filterDedup elems)))) st)
  <-> exists w,
        In w (map (processed ci) (filterDedup elems))
        /\ snd st = w ++ snd st' /\ fst st' = lastOf (fst st) w.
Proof.
  intros HV. destruct (vocabulary_root ci elems HV) as [Hwf Hch].
  rewrite (terms_reach false _ Hwf Hch), reaches_root. split.
  - intros (u & v & Hu & Hin & Hsim & Hs & Hf).
    apply similar_exact in Hsim. subst v. now exists u.
  - intros (w & Hin & Hs & Hf). exists w, w. repeat split; auto.
    + apply in_map_iff in Hin as (x & <- & Hx). rewrite processed_empty.
      exact (proj1 (Forall_forall _ _) (filterDedup_not_empty elems) x Hx).
    + apply similar_refl.
Qed.

(** X9. Without word boundaries and matched case-sensitively, a search
    returns the leftmost occurrence of a (processed) vocabulary word and,
    at that position, the longest one: a word is never cut short to one
    of its prefixes. The search finds nothing exactly when no vocabulary
    word occurs in the subject. *)
Theorem search_leftmost_longest (elems : list JsValue) (ci : option bool) :
  isNil (filterDedup elems) = false ->
  exists pattern,
    createOptimizedRegex (JArray elems) (Some (mkOptions (Some false) ci))
    = Return pattern
    /\ (forall s i w,
          exec false pattern s = Some (i, w) ->
          exists a b,
            s = a ++ w ++ b /\ String.length a = i
            /\ In w (map (processed (orDefault ci false)) (filterDedup elems))
            /\ (forall w' b',
                  In w' (map (processed (orDefault ci false)) (filterDedup elems)) ->
                  w ++ b = w' ++ b' -> String.length w' <= String.length w)
            /\ (forall a' w' b',
                  In w' (map (processed (orDefault ci false)) (filterDedup elems)) ->
                  s = a' ++ w' ++ b' -> i <= String.length a'))
    /\ (forall s,
          exec false pattern s = None
          <-> forall a w b,
                In w (map (processed (orDefault ci false)) (filterDedup elems)) ->
                s <> a ++ w ++ b).
Proof.
  intros HV. eexists.
  split; [now apply createOptimizedRegex_returns|].
  cbn [optionsOr wordBoundaries orDefault]. unfold bodyOf.
  cbn [optionsOr caseInsensitive].
  set (c := orDefault ci false). set (V := map (processed c) (filterDedup elems)).
  destruct (vocabulary_root c elems HV) as [Hwf Hch].
  pose proof (terms_ordered _ Hwf (buildTrie_distinct c _) Hch) as Hord.
  unfold exec. rewrite (parse_terms _ _ (proj1 (trie_renders _))).
  split.
  - intros s i w H.
    apply execFrom_some in H as (a & rest & st' & tl & -> & -> & Hrun & -> & Hleft).
    assert (Hin : In st' (st' :: tl)) by now left. rewrite <- Hrun in Hin.
    apply (body_success c elems _ _ HV) in Hin as (w & Hw & Hs & Hf).
    cbn [fst snd] in Hs, Hf. destruct st' as [p b]. cbn [fst snd] in *.
    subst rest p. rewrite length_append, Nat.add_sub, substring_prefix.
    exists a, b. split; [reflexivity|]. split; [reflexivity|].
    split; [exact Hw|]. split.
    + intros w' b' Hw' E.
      assert (Hin' : In (lastOf (lastOf None a) w', b')
                       (run false (mkSeq (termsOf (buildTrie c (filterDedup elems))))
                          (lastOf None a, w ++ b))).
      { apply (body_success c elems _ _ HV). exists w'. now repeat split. }
      rewrite Hrun in Hin'. specialize (Hord (lastOf None a, w ++ b)).
      rewrite Hrun in Hord. cbn [longestFirst] in Hord.
      destruct Hord as [Hlt _].
      assert (Hlen : String.length (w ++ b) = String.length (w' ++ b'))
        by now rewrite E.
      rewrite !length_append in Hlen.
      destruct Hin' as [E'|Hin'].
      * injection E' as _ <-. lia.
      * apply (proj1 (Forall_forall _ _) Hlt) in Hin'.
        unfold remaining in Hin'. cbn [snd] in Hin'. lia.
    + intros a' w' b' Hw' E.
      destruct (Nat.le_gt_cases (String.length a) (String.length a'))
        as [Hle|Hgt]; [lia|exfalso].
      destruct (append_split a (w ++ b) a' (w' ++ b') E) as (a2 & -> & E2);
        [lia|].
      assert (Hne : isEmptyString a2 = false).
      { destruct a2; [|reflexivity]. rewrite append_nil_r in Hgt. lia. }
      specialize (Hleft a' a2 eq_refl Hne).
      assert (Hin' : In (lastOf (lastOf None a') w', b')
                       (run false (mkSeq (termsOf (buildTrie c (filterDedup elems))))
                          (lastOf None a', a2 ++ w ++ b))).
      { apply (body_success c elems _ _ HV). exists w'. now repeat split. }
      rewrite Hleft in Hin'. exact Hin'.
  - intros s. rewrite execFrom_none. split.
    + intros H a w b Hw ->. specialize (H a (w ++ b) eq_refl).
      assert (Hin' : In (lastOf (lastOf None a) w, b)
                       (run false (mkSeq (termsOf (buildTrie c (filterDedup elems))))
                          (lastOf None a, w ++ b))).
      { apply (body_success c elems _ _ HV). exists w. now repeat split. }
      rewrite H in Hin'. exact Hin'.
    + intros H a rest ->.
      destruct (run false _ (lastOf None a, rest)) as [|st' tl] eqn:Hrun;
        [reflexivity|exfalso].
      assert (Hin : In st' (st' :: tl)) by now left. rewrite <- Hrun in Hin.
      apply (body_success c elems _ _ HV) in Hin as (w & Hw & Hs & _).
      cbn [snd] in Hs. subst rest. exact (H a w (snd st') Hw eq_refl).
Qed.

Lemma search_leftmost_longest_witness :
  isNil (filterDedup [JString "Set"; JString "SetTimerEvent"; JString "Se"])
  = false
  /\ exists pattern,
       createOptimizedRegex
         (JArray [JString "Set"; JString "SetTimerEvent"; JString "Se"])
         (Some (mkOptions (Some false) None)) = Return pattern
       /\ exec false pattern "llSetTimerEvents" = Some (2, "SetTimerEvent")
       /\ exec false pattern "llSetTime" = Some (2, "Set").
Proof.
  split; [reflexivity|].
  destruct (search_leftmost_longest
              [JString "Set"; JString "SetTimerEvent"; JString "Se"] None)
    as (p & Hp & _); [reflexivity|].
  exists p. split; [exact Hp|].
  cbv in Hp. injection Hp as <-. split; reflexivity.
Defined.

(* ================================================================== *)
(** ** The LSL grammar update *)

Lemma fold_classifyFunction (fs : list (string * LslFunction)) :
  forall f g d,
    fold_left classifyFunction fs (f, g, d)
    = ((f ++ map fst (filter (fun e => negb (isPrivate (snd e))
                                       && negb (isDeprecated (snd e))
                                       && negb (isGodMode (snd e))) fs))%list,
       (g ++ map fst (filter (fun e => negb (isPrivate (snd e))
                                       && negb (isDeprecated (snd e))
                                       && isGodMode (snd e)) fs))%list,
       (d ++ map fst (filter (fun e => negb (isPrivate (snd e))
                                       && isDeprecated (snd e)) fs))%list).
Proof.
  induction fs as [|[name def] fs IH]; intros f g d.
  - cbn. now rewrite !app_nil_r.
  - cbn [fold_left classifyFunction filter snd].
    destruct (isPrivate def), (isDeprecated def), (isGodMode def);
      cbn [negb andb map fst]; rewrite IH, <- ?app_assoc; reflexivity.
Qed.

Lemma keys_functional {A B : Type} (l : list (A * B)) (x : A) (a b : B) :
  NoDup (map fst l) -> In (x, a) l -> In (x, b) l -> a = b.
Proof.
  induction l as [|[k v] l IH]; intros Hnd Ha Hb; [destruct Ha|].
  cbn [map fst] in Hnd. inversion Hnd as [|? ? Hnot Hnd']; subst.
  destruct Ha as [Ha|Ha], Hb as [Hb|Hb].
  - congruence.
  - injection Ha as -> ->. elim Hnot. change x with (fst (x, b)).
    now apply in_map.
  - injection Hb as -> ->. elim Hnot. change x with (fst (x, a)).
    now apply in_map.
  - now apply IH.
Qed.

Lemma NoDup_filter_keys {A B : Type} (p : A * B -> bool) (l : list (A * B)) :
  NoDup (map fst l) -> NoDup (map fst (filter p l)).
Proof.
  induction l as [|e l IH]; intros H; [constructor|].
  cbn [map] in H. inversion H as [|? ? Hnot Hnd]; subst.
  cbn [filter]. destruct (p e); [|auto]. cbn [map]. constructor; [|auto].
  intros Hin. apply Hnot. apply in_map_iff in Hin as (x & E & Hx).
  apply filter_In in Hx as [Hx _]. rewrite <- E. now apply in_map.
Qed.

Lemma NoDup_append {A : Type} (l1 l2 : list A) :
  NoDup l1 -> NoDup l2 -> (forall x, In x l1 -> ~ In x l2) ->
  NoDup (l1 ++ l2).
Proof.
  induction 1 as [|x l1 Hx H1 IH]; intros H2 H; [exact H2|].
  cbn [app]. constructor.
  - rewrite in_app_iff. intros [Hin|Hin]; [auto|].
    apply (H x); [now left|exact Hin].
  - apply IH; [exact H2|]. intros y Hy. apply H. now right.
Qed.

Lemma in_filter_keys {B : Type} (p : string * B -> bool)
    (l : list (string * B)) (name : string) :
  In name (map fst (filter p l))
  <-> exists def, In (name, def) l /\ p (name, def) = true.
Proof.
  rewrite in_map_iff. split.
  - intros ([n def] & E & H). cbn [fst] in E. subst n.
    apply filter_In in H. now exists def.
  - intros (def & H & Hp). exists (name, def). split; [reflexivity|].
    now apply filter_In.
Qed.

(** X10. The loop over [lsl.functions] sorts the names of the functions
    that are not private into three lists without repeating or losing
    any: a deprecated function goes to the deprecated list even when it
    is also god-mode, a god-mode function that is not deprecated goes to
    the god-mode list, every other function to the plain list; a private
    function is in none of them. *)
Theorem function_lists_partition (fs : list (string * LslFunction))
    (functions functionsGodMode functionsDeprecated : list string) :
  functionLists fs = (functions, functionsGodMode, functionsDeprecated) ->
  NoDup (map fst fs) ->
  NoDup (functions ++ functionsGodMode ++ functionsDeprecated)
  /\ (forall name,
        In name functionsDeprecated
        <-> exists def, In (name, def) fs /\ isPrivate def = false
                        /\ isDeprecated def = true)
  /\ (forall name,
        In name functionsGodMode
        <-> exists def, In (name, def) fs /\ isPrivate def = false
                        /\ isDeprecated def = false /\ isGodMode def = true)
  /\ (forall name,
        In name functions
        <-> exists def, In (name, def) fs /\ isPrivate def = false
                        /\ isDeprecated def = false /\ isGodMode def = false).
Proof.
  unfold functionLists. rewrite fold_classifyFunction. cbn [app].
  intros E Hnd. injection E as <- <- <-.
  assert (Hd : forall name,
             In name (map fst (filter (fun e => negb (isPrivate (snd e))
                                               && isDeprecated (snd e)) fs))
             <-> exists def, In (name, def) fs /\ isPrivate def = false
                             /\ isDeprecated def = true).
  { intros name. rewrite in_filter_keys. cbn [snd].
    split; intros (def & H & Hp); exists def; (split; [exact H|]);
      destruct (isPrivate def), (isDeprecated def); cbn in *;
      intuition congruence. }
  assert (Hg : forall name,
             In name (map fst (filter (fun e => negb (isPrivate (snd e))
                                               && negb (isDeprecated (snd e))
                                               && isGodMode (snd e)) fs))
             <-> exists def, In (name, def) fs /\ isPrivate def = false
                             /\ isDeprecated def = false
                             /\ isGodMode def = true).
  { intros name. rewrite in_filter_keys. cbn [snd].
    split; intros (def & H & Hp); exists def; (split; [exact H|]);
      destruct (isPrivate def), (isDeprecated def), (isGodMode def);
      cbn in *; intuition congruence. }
  assert (Hf : forall name,
             In name (map fst (filter (fun e => negb (isPrivate (snd e))
                                               && negb (isDeprecated (snd e))
                                               && negb (isGodMode (snd e))) fs))
             <-> exists def, In (name, def) fs /\ isPrivate def = false
                             /\ isDeprecated def = false
                             /\ isGodMode def = false).
  { intros name. rewrite in_filter_keys. cbn [snd].
    split; intros (def & H & Hp); exists def; (split; [exact H|]);
      destruct (isPrivate def), (isDeprecated def), (isGodMode def);
      cbn in *; intuition congruence. }
  split; [|split; [exact Hd|split; [exact Hg|exact Hf]]].
  apply NoDup_append; [now apply NoDup_filter_keys| |].
  - apply NoDup_append; [now apply NoDup_filter_keys..|].
    intros x Hx Hx'. apply Hg in Hx as (d1 & H1 & _ & Hdep & _).
    apply Hd in Hx' as (d2 & H2 & _ & Hdep').
    rewrite (keys_functional fs x d1 d2 Hnd H1 H2) in Hdep. congruence.
  - intros x Hx Hx'. apply Hf in Hx as (d1 & H1 & _ & Hdep & Hgod).
    apply in_app_iff in Hx' as [Hx'|Hx'].
    + apply Hg in Hx' as (d2 & H2 & _ & _ & Hgod').
      rewrite (keys_functional fs x d1 d2 Hnd H1 H2) in Hgod. congruence.
    + apply Hd in Hx' as (d2 & H2 & _ & Hdep').
      rewrite (keys_functional fs x d1 d2 Hnd H1 H2) in Hdep. congruence.
Qed.

Lemma function_lists_partition_witness :
  functionLists
    [("llSay", mkLslFunction false false false);
     ("llGodLikeRezObject", mkLslFunction false false true);
     ("llSound", mkLslFunction false true true);
     ("llInternal", mkLslFunction true false false)]
  = (["llSay"], ["llGodLikeRezObject"], ["llSound"])
  /\ NoDup (["llSay"] ++ ["llGodLikeRezObject"] ++ ["llSound"]).
Proof.
  split; [reflexivity|].
  apply (function_lists_partition
           [("llSay", mkLslFunction false false false);
            ("llGodLikeRezObject", mkLslFunction false false true);
            ("llSound", mkLslFunction false true true);
            ("llInternal", mkLslFunction true false false)]
           ["llSay"] ["llGodLikeRezObject"] ["llSound"]); [reflexivity|].
  cbn. repeat constructor; cbn; intuition discriminate.
Defined.

Lemma fold_classifyConstant (cs : list (string * bool)) :
  forall c d,
    fold_left classifyConstant cs (c, d)
    = ((c ++ map fst (filter (fun e =>
                        negb (String.eqb (fst e) "TRUE"
                              || String.eqb (fst e) "FALSE")
                        && negb (snd e)) cs))%list,
       (d ++ map fst (filter (fun e =>
                        negb (String.eqb (fst e) "TRUE"
                              || String.eqb (fst e) "FALSE")
                        && snd e) cs))%list).
Proof.
  induction cs as [|[name dep] cs IH]; intros c d.
  - cbn. now rewrite !app_nil_r.
  - cbn [fold_left classifyConstant filter fst snd].
    destruct (String.eqb name "TRUE" || String.eqb name "FALSE"), dep;
      cbn [negb andb map fst]; rewrite IH, <- ?app_assoc; reflexivity.
Qed.

(** X11. The loop over [lsl.constants] never lists [TRUE] or [FALSE];
    every other constant is listed as deprecated if it is marked so and
    as a plain constant otherwise. *)
Theorem constant_lists_skip_booleans (cs : list (string * bool))
    (name : string) :
  (In name (fst (constantLists cs))
   <-> In (name, false) cs /\ name <> "TRUE" /\ name <> "FALSE")
  /\ (In name (snd (constantLists cs))
      <-> In (name, true) cs /\ name <> "TRUE" /\ name <> "FALSE").
Proof.
  unfold constantLists. rewrite fold_classifyConstant. cbn [app fst snd].
  rewrite !in_filter_keys. cbn [fst snd].
  split; split.
  - intros (dep & H & Hp). apply andb_true_iff in Hp as [Hk Hd].
    apply negb_true_iff in Hk, Hd. subst dep.
    apply orb_false_iff in Hk as [K1 K2].
    apply String.eqb_neq in K1, K2. auto.
  - intros (H & K1 & K2). exists false. split; [exact H|].
    apply String.eqb_neq in K1, K2. now rewrite K1, K2.
  - intros (dep & H & Hp). apply andb_true_iff in Hp as [Hk Hd].
    apply negb_true_iff in Hk. subst dep.
    apply orb_false_iff in Hk as [K1 K2].
    apply String.eqb_neq in K1, K2. auto.
  - intros (H & K1 & K2). exists true. split; [exact H|].
    apply String.eqb_neq in K1, K2. now rewrite K1, K2.
Qed.

Lemma constant_lists_skip_booleans_witness :
  constantLists [("TRUE", false); ("PI", false); ("FALSE", true); ("OLD", true)]
  = (["PI"], ["OLD"])
  /\ ~ In "TRUE" (fst (constantLists [("TRUE", false); ("PI", false);
                                      ("FALSE", true); ("OLD", true)])).
Proof.
  split; [reflexivity|]. intros H.
  apply (proj1 (constant_lists_skip_booleans
                  [("TRUE", false); ("PI", false); ("FALSE", true); ("OLD", true)]
                  "TRUE")) in H.
  destruct H as (_ & H & _). now apply H.
Defined.

Lemma nonEmptyStrings_of_strings (v : list string) :
  nonEmptyStrings (map JString v)
  = filter (fun s => negb (isEmptyString s)) v.
Proof.
  induction v as [|s v IH]; [reflexivity|].
  cbn [map nonEmptyStrings filter].
  destruct (isEmptyString s); cbn [negb]; now rewrite IH.
Qed.

Lemma isNil_filterDedup_strs (v : list string) :
  isNil (filterDedup (map JString v)) = negb (usable v).
Proof.
  unfold filterDedup, usable. rewrite nonEmptyStrings_of_strings.
  induction v as [|s v IH]; [reflexivity|].
  cbn [filter existsb]. destruct (negb (isEmptyString s)); [reflexivity|].
  exact IH.
Qed.

(** The compiler returns on a list of strings exactly when one of them
    is not empty. *)
Lemma compile_usable (v : list string) (options : option Options) :
  (exists p, createOptimizedRegex (strs v) options = Return p)
  <-> usable v = true.
Proof.
  unfold strs. split.
  - intros [p H]. apply returned_pattern in H as (elems & E & HV & _).
    injection E as <-. rewrite isNil_filterDedup_strs in HV.
    now apply negb_false_iff in HV.
  - intros H. eexists. apply createOptimizedRegex_returns.
    rewrite isNil_filterDedup_strs, H. reflexivity.
Qed.

Lemma setMatch_names (nm val : string) (ps : list GrammarPattern) :
  forall ps', setMatch nm val ps = Some ps' ->
    map patternName ps' = map patternName ps.
Proof.
  induction ps as [|p ps IH]; intros ps' H; [discriminate|].
  cbn [setMatch] in H. destruct (hasName nm p).
  - injection H as <-. reflexivity.
  - destruct (setMatch nm val ps) as [ps0|]; [|discriminate].
    injection H as <-. cbn [map]. now rewrite (IH ps0).
Qed.

Lemma setMatch_named (nm val : string) (ps : list GrammarPattern) :
  (exists ps', setMatch nm val ps = Some ps') <-> named nm ps = true.
Proof.
  unfold named. induction ps as [|p ps IH].
  - split; [intros [? H]|intros H]; discriminate.
  - cbn [setMatch existsb]. destruct (hasName nm p); cbn [orb].
    + split; eauto.
    + rewrite <- IH. split.
      * intros [ps' H]. destruct (setMatch nm val ps); [eauto|discriminate].
      * intros [ps' H]. rewrite H. eauto.
Qed.

Lemma named_names (nm : string) (ps ps' : list GrammarPattern) :
  map patternName ps' = map patternName ps -> named nm ps' = named nm ps.
Proof.
  unfold named. revert ps'.
  induction ps as [|p ps IH]; intros [|p' ps'] H; try discriminate;
    [reflexivity|].
  cbn [map] in H. injection H as Hp H. cbn [existsb].
  unfold hasName at 1 3. rewrite Hp. now rewrite (IH ps').
Qed.

Lemma setMatch_find (nm val : string) (ps : list GrammarPattern) :
  forall ps', setMatch nm val ps = Some ps' ->
    exists q, find (hasName nm) ps' = Some q /\ patternMatch q = Some val.
Proof.
  induction ps as [|p ps IH]; intros ps' H; [discriminate|].
  cbn [setMatch] in H. destruct (hasName nm p) eqn:E.
  - injection H as <-. cbn [find]. unfold hasName in *. cbn [patternName].
    rewrite E. eauto.
  - destruct (setMatch nm val ps) as [ps0|]; [|discriminate].
    injection H as <-. cbn [find]. rewrite E. now apply IH.
Qed.

Lemma setMatch_find_other (nm nm' val : string) (ps : list GrammarPattern) :
  nm <> nm' ->
  forall ps', setMatch nm' val ps = Some ps' ->
    option_map patternMatch (find (hasName nm) ps')
    = option_map patternMatch (find (hasName nm) ps).
Proof.
  intros Hne. induction ps as [|p ps IH]; intros ps' H; [discriminate|].
  cbn [setMatch] in H. destruct (hasName nm' p) eqn:E.
  - injection H as <-. cbn [find].
    assert (Hn : hasName nm p = false).
    { unfold hasName in *. destruct (patternName p) as [n|]; [|reflexivity].
      apply String.eqb_eq in E. subst n. now apply String.eqb_neq. }
    unfold hasName at 1. cbn [patternName]. fold (hasName nm p).
    now rewrite Hn.
  - destruct (setMatch nm' val ps) as [ps0|]; [|discriminate].
    injection H as <-. cbn [find]. destruct (hasName nm p); [reflexivity|].
    now apply IH.
Qed.

Lemma assignCompiled_return (nm : string) (v : list string)
    (ps ps' : list GrammarPattern) :
  assignCompiled nm v ps = Return ps' ->
  exists p, createOptimizedRegex (strs v) None = Return p
            /\ setMatch nm p ps = Some ps'.
Proof.
  unfold assignCompiled.
  destruct (createOptimizedRegex (strs v) None) as [p|m]; [|discriminate].
  destruct (setMatch nm p ps) as [ps0|] eqn:E; [|discriminate].
  intros H. injection H as <-. now exists p.
Qed.

Lemma assignCompiled_ready (nm : string) (v : list string)
    (ps : list GrammarPattern) :
  (exists ps', assignCompiled nm v ps = Return ps')
  <-> usable v = true /\ named nm ps = true.
Proof.
  split.
  - intros [ps' H]. apply assignCompiled_return in H as (p & Hp & Hs).
    split; [apply (compile_usable v None); eauto|].
    apply (setMatch_named nm p). eauto.
  - intros [Hu Hn]. apply (compile_usable v None) in Hu as [p Hp].
    apply (setMatch_named nm p) in Hn as [ps' Hs].
    exists ps'. unfold assignCompiled. now rewrite Hp, Hs.
Qed.

Lemma assignCompiled_names (nm : string) (v : list string)
    (ps ps' : list GrammarPattern) :
  assignCompiled nm v ps = Return ps' ->
  map patternName ps' = map patternName ps.
Proof.
  intros H. apply assignCompiled_return in H as (p & _ & H).
  now apply setMatch_names in H.
Qed.

(** X12. The LSL part of the script completes exactly when each of its
    seven vocabularies (types, events, functions, god-mode functions,
    deprecated functions, constants, deprecated constants) holds a
    non-empty name and the rule it is written to exists; an empty
    category, for which the SLua part has a guard, makes it throw. *)
Theorem lsl_update_completes (lsl : Lsl) (g : LslGrammar) :
  (exists g', updateLslGrammar lsl g = Return g') <-> lslReady lsl g = true.
Proof.
  unfold lslReady, lslAssignments, updateLslGrammar.
  destruct (functionLists (lslFunctions lsl)) as [[fn gm] dp].
  destruct (constantLists (lslConstants lsl)) as [cn cd].
  cbn [forallb fst snd]. rewrite andb_true_r. split.
  - intros [g' H].
    apply bind_return in H as (t & Ht & H).
    apply bind_return in H as (e & He & H).
    apply bind_return in H as (f1 & Hf1 & H).
    apply bind_return in H as (f2 & Hf2 & H).
    apply bind_return in H as (f3 & Hf3 & H).
    apply bind_return in H as (c1 & Hc1 & H).
    apply bind_return in H as (c2 & Hc2 & _).
    pose proof (assignCompiled_names _ _ _ _ Hf1) as N1.
    pose proof (assignCompiled_names _ _ _ _ Hf2) as N2.
    pose proof (assignCompiled_names _ _ _ _ Hc1) as N3.
    assert (R : forall nm v ps ps', assignCompiled nm v ps = Return ps' ->
                  usable v && named nm ps = true).
    { intros nm v ps ps' Hr. apply andb_true_iff.
      apply assignCompiled_ready. eauto. }
    apply R in Ht, He, Hf1, Hf2, Hf3, Hc1, Hc2.
    rewrite (named_names _ _ _ N1) in Hf2.
    rewrite (named_names _ _ _ N2), (named_names _ _ _ N1) in Hf3.
    rewrite (named_names _ _ _ N3) in Hc2.
    now rewrite Ht, He, Hf1, Hf2, Hf3, Hc1, Hc2.
  - intros H.
    repeat match goal with
           | Hc : _ && _ = true |- _ => apply andb_true_iff in Hc; destruct Hc
           end.
    assert (R : forall nm v ps, usable v = true -> named nm ps = true ->
                  exists ps', assignCompiled nm v ps = Return ps'
                              /\ map patternName ps' = map patternName ps).
    { intros nm v ps Hu Hn.
      destruct (proj2 (assignCompiled_ready nm v ps) (conj Hu Hn)) as [ps' Hp].
      exists ps'. split; [exact Hp|]. now apply assignCompiled_names in Hp. }
    destruct (R "storage.type.lsl" (lslTypes lsl) (typesPatterns g))
      as (t & Ht & _); [assumption..|].
    destruct (R "constant.language.events.lsl" (lslEvents lsl) (eventsPatterns g))
      as (e & He & _); [assumption..|].
    destruct (R "support.function.lsl" fn (functionsPatterns g))
      as (f1 & Hf1 & N1); [assumption..|].
    destruct (R "support.function.god-mode.lsl" gm f1)
      as (f2 & Hf2 & N2);
      [assumption|now rewrite (named_names _ _ _ N1)|].
    destruct (R "invalid.deprecated.support.function.lsl" dp f2)
      as (f3 & Hf3 & _);
      [assumption
      |now rewrite (named_names _ _ _ N2), (named_names _ _ _ N1)|].
    destruct (R "support.constant.lsl" cn (constantsPatterns g))
      as (c1 & Hc1 & N3); [assumption..|].
    destruct (R "invalid.deprecated.constant.lsl" cd c1)
      as (c2 & Hc2 & _);
      [assumption|now rewrite (named_names _ _ _ N3)|].
    rewrite Ht, He. cbn [bind]. rewrite Hf1. cbn [bind].
    rewrite Hf2. cbn [bind]. rewrite Hf3. cbn [bind].
    rewrite Hc1. cbn [bind]. rewrite Hc2. cbn [bind]. eauto.
Qed.

Lemma lsl_update_completes_witness :
  lslReady sampleLsl sampleLslGrammar = true
  /\ (exists g', updateLslGrammar sampleLsl sampleLslGrammar = Return g')
  /\ lslReady (mkLsl ["integer"] ["touch"]
                 [("llSay", mkLslFunction false false false)] [("PI", false)])
        sampleLslGrammar = false
  /\ ~ (exists g',
          updateLslGrammar
            (mkLsl ["integer"] ["touch"]
               [("llSay", mkLslFunction false false false)] [("PI", false)])
            sampleLslGrammar = Return g').
Proof.
  split; [reflexivity|]. split.
  - apply (proj2 (lsl_update_completes sampleLsl sampleLslGrammar)).
    reflexivity.
  - split; [reflexivity|]. intros H.
    apply (proj1 (lsl_update_completes _ sampleLslGrammar)) in H.
    discriminate H.
Defined.

Lemma setMatch_holds (nm val : string) (ps ps' : list GrammarPattern) :
  setMatch nm val ps = Some ps' ->
  option_map patternMatch (find (hasName nm) ps') = Some (Some val).
Proof.
  intros H. apply setMatch_find in H as (q & Hq & Hm).
  now rewrite Hq, <- Hm.
Qed.

Lemma holds_find (nm p : string) (ps : list GrammarPattern) :
  option_map patternMatch (find (hasName nm) ps) = Some (Some p) ->
  exists q, find (hasName nm) ps = Some q /\ patternMatch q = Some p.
Proof.
  destruct (find (hasName nm) ps) as [q|]; [|discriminate].
  cbn. intros H. injection H as H. eauto.
Qed.

(** X13. When the LSL part completes, it has changed nothing but
    [match] values: the names of the patterns are as before, and for each
    of the seven vocabularies the first pattern of its rule name holds
    the pattern the compiler returns for it (with no lookbehind before
    it). *)
Theorem lsl_update_result (lsl : Lsl) (g g' : LslGrammar) :
  updateLslGrammar lsl g = Return g' ->
  map patternName (typesPatterns g') = map patternName (typesPatterns g)
  /\ map patternName (eventsPatterns g') = map patternName (eventsPatterns g)
  /\ map patternName (functionsPatterns g')
     = map patternName (functionsPatterns g)
  /\ map patternName (constantsPatterns g')
     = map patternName (constantsPatterns g)
  /\ forall nm v get,
       In (nm, v, get) (lslAssignments lsl) ->
       exists p q,
         createOptimizedRegex (strs v) None = Return p
         /\ find (hasName nm) (get g') = Some q
         /\ patternMatch q = Some p.
Proof.
  unfold lslAssignments, updateLslGrammar.
  destruct (functionLists (lslFunctions lsl)) as [[fn gm] dp].
  destruct (constantLists (lslConstants lsl)) as [cn cd].
  intros H.
  apply bind_return in H as (t & Ht & H).
  apply bind_return in H as (e & He & H).
  apply bind_return in H as (f1 & Hf1 & H).
  apply bind_return in H as (f2 & Hf2 & H).
  apply bind_return in H as (f3 & Hf3 & H).
  apply bind_return in H as (c1 & Hc1 & H).
  apply bind_return in H as (c2 & Hc2 & H).
  injection H as <-. cbn [typesPatterns eventsPatterns functionsPatterns
                          constantsPatterns].
  pose proof (assignCompiled_names _ _ _ _ Ht) as Nt.
  pose proof (assignCompiled_names _ _ _ _ He) as Ne.
  pose proof (assignCompiled_names _ _ _ _ Hf1) as N1.
  pose proof (assignCompiled_names _ _ _ _ Hf2) as N2.
  pose proof (assignCompiled_names _ _ _ _ Hf3) as N3.
  pose proof (assignCompiled_names _ _ _ _ Hc1) as N4.
  pose proof (assignCompiled_names _ _ _ _ Hc2) as N5.
  apply assignCompiled_return in Ht as (pt & Pt & St).
  apply assignCompiled_return in He as (pe & Pe & Se).
  apply assignCompiled_return in Hf1 as (p1 & P1 & S1).
  apply assignCompiled_return in Hf2 as (p2 & P2 & S2).
  apply assignCompiled_return in Hf3 as (p3 & P3 & S3).
  apply assignCompiled_return in Hc1 as (p4 & P4 & S4).
  apply assignCompiled_return in Hc2 as (p5 & P5 & S5).
  split; [exact Nt|]. split; [exact Ne|].
  split; [now rewrite N3, N2, N1|]. split; [now rewrite N5, N4|].
  intros nm v get Hin.
  destruct Hin as [E|[E|[E|[E|[E|[E|[E|[]]]]]]]]; injection E as <- <- <-;
    cbn [typesPatterns eventsPatterns functionsPatterns constantsPatterns].
  - exists pt. destruct (holds_find _ _ _ (setMatch_holds _ _ _ _ St)) as (q & ?).
    exists q. tauto.
  - exists pe. destruct (holds_find _ _ _ (setMatch_holds _ _ _ _ Se)) as (q & ?).
    exists q. tauto.
  - exists p1.
    assert (Hh : option_map patternMatch
                   (find (hasName "support.function.lsl") f3)
                 = Some (Some p1)).
    { rewrite (setMatch_find_other "support.function.lsl"
                 "invalid.deprecated.support.function.lsl" p3 f2
                 ltac:(discriminate) _ S3).
      rewrite (setMatch_find_other "support.function.lsl"
                 "support.function.god-mode.lsl" p2 f1
                 ltac:(discriminate) _ S2).
      now apply setMatch_holds in S1. }
    destruct (holds_find _ _ _ Hh) as (q & ?). exists q. tauto.
  - exists p2.
    assert (Hh : option_map patternMatch
                   (find (hasName "support.function.god-mode.lsl") f3)
                 = Some (Some p2)).
    { rewrite (setMatch_find_other "support.function.god-mode.lsl"
                 "invalid.deprecated.support.function.lsl" p3 f2
                 ltac:(discriminate) _ S3).
      now apply setMatch_holds in S2. }
    destruct (holds_find _ _ _ Hh) as (q & ?). exists q. tauto.
  - exists p3. destruct (holds_find _ _ _ (setMatch_holds _ _ _ _ S3)) as (q & ?).
    exists q. tauto.
  - exists p4.
    assert (Hh : option_map patternMatch
                   (find (hasName "support.constant.lsl") c2)
                 = Some (Some p4)).
    { rewrite (setMatch_find_other "support.constant.lsl"
                 "invalid.deprecated.constant.lsl" p5 c1
                 ltac:(discriminate) _ S5).
      now apply setMatch_holds in S4. }
    destruct (holds_find _ _ _ Hh) as (q & ?). exists q. tauto.
  - exists p5. destruct (holds_find _ _ _ (setMatch_holds _ _ _ _ S5)) as (q & ?).
    exists q. tauto.
Qed.

Lemma lsl_update_result_witness :
  updateLslGrammar sampleLsl sampleLslGrammar = Return sampleLslUpdated
  /\ map patternName (functionsPatterns sampleLslUpdated)
     = map patternName (functionsPatterns sampleLslGrammar)
  /\ exists p q,
       createOptimizedRegex (strs ["llSay"]) None = Return p
       /\ find (hasName "support.function.lsl")
            (functionsPatterns sampleLslUpdated) = Some q
       /\ patternMatch q = Some p.
Proof.
  split; [reflexivity|].
  destruct (lsl_update_result sampleLsl sampleLslGrammar sampleLslUpdated)
    as (_ & _ & Hn & _ & Ha); [reflexivity|].
  split; [exact Hn|].
  apply (Ha "support.function.lsl" ["llSay"] functionsPatterns).
  right. right. left. reflexivity.
Defined.

(* ================================================================== *)
(** ** The SLua vocabularies and rules *)

Lemma toLowerCase_app (a b : string) :
  toLowerCase (a ++ b) = toLowerCase a ++ toLowerCase b.
Proof. induction a as [|c a IH]; [reflexivity|]. cbn. now rewrite IH. Qed.

Lemma prefix_ll_qualified (a b : string) :
  String.prefix "ll" (a ++ "." ++ b) = String.prefix "ll" a.
Proof.
  destruct a as [|c1 [|c2 a]]; cbn [append String.prefix].
  - now destruct (ascii_dec "l" ".").
  - destruct (ascii_dec "l" c1); [|reflexivity].
    now destruct (ascii_dec "l" ".").
  - destruct (ascii_dec "l" c1); [|reflexivity].
    destruct (ascii_dec "l" c2); [|reflexivity].
    now destruct a.
Qed.

Lemma isPlatform_qualified (ns x : string) :
  startsWith "ll" (toLowerCase (ns ++ "." ++ x)) = isPlatform ns.
Proof.
  unfold isPlatform, startsWith. rewrite !toLowerCase_app.
  change (toLowerCase ".") with ".". apply prefix_ll_qualified.
Qed.

Lemma in_qualified (namespace : string) (items : option (list Item))
    (q : string) :
  In q (qualified namespace items)
  <-> exists item,
        In item (flat_map flatten (match items with Some l => l | None => [] end))
        /\ q = namespace ++ "." ++ name item.
Proof.
  unfold qualified. rewrite in_map_iff.
  split; intros (item & H1 & H2); exists item; auto.
Qed.

Lemma qualified_not_empty (namespace : string) (items : option (list Item))
    (q : string) :
  In q (qualified namespace items) -> isEmptyString q = false.
Proof.
  intros H. apply in_qualified in H as (item & _ & ->).
  destruct namespace; reflexivity.
Qed.

Lemma in_nonEmpty_iff (s : string) (l : list string) :
  In s (nonEmpty l) <-> In s l /\ isEmptyString s = false.
Proof. unfold nonEmpty. now rewrite filter_In, negb_true_iff. Qed.

Lemma in_luau (field : Library -> option (list Item)) (libs : Libraries)
    (q : string) :
  In q (nonEmpty
          (flat_map (fun e => qualified (fst e) (field (snd e)))
             (filter (fun e => negb (isPlatform (fst e)))
                (filter (fun e => negb (String.eqb (fst e) "global")) libs))))
  <-> exists ns lib,
        In (ns, lib) libs /\ ns <> "global" /\ isPlatform ns = false
        /\ In q (qualified ns (field lib)).
Proof.
  rewrite in_nonEmpty_iff, in_flat_map. split.
  - intros [([ns lib] & He & Hq) _]. cbn [fst snd] in *.
    apply filter_In in He as [He Hp]. apply filter_In in He as [He Hg].
    cbn [fst] in *. apply negb_true_iff in Hp, Hg.
    apply String.eqb_neq in Hg. now exists ns, lib.
  - intros (ns & lib & He & Hg & Hp & Hq).
    split; [|now apply qualified_not_empty in Hq].
    exists (ns, lib). split; [|exact Hq].
    apply filter_In. cbn [fst]. rewrite Hp. split; [|reflexivity].
    apply filter_In. cbn [fst]. apply String.eqb_neq in Hg. now rewrite Hg.
Qed.

Lemma in_platform (field : Library -> option (list Item)) (libs : Libraries)
    (q : string) :
  In q (nonEmpty
          (flat_map (fun e => qualified (fst e) (field (snd e)))
             (filter (fun e => isPlatform (fst e)) libs)))
  <-> exists ns lib,
        In (ns, lib) libs /\ isPlatform ns = true
        /\ In q (qualified ns (field lib)).
Proof.
  rewrite in_nonEmpty_iff, in_flat_map. split.
  - intros [([ns lib] & He & Hq) _]. cbn [fst snd] in *.
    apply filter_In in He as [He Hp]. now exists ns, lib.
  - intros (ns & lib & He & Hp & Hq).
    split; [|now apply qualified_not_empty in Hq].
    exists (ns, lib). split; [|exact Hq]. now apply filter_In.
Qed.

Lemma qualified_starts (ns : string) (items : option (list Item)) (q : string) :
  In q (qualified ns items) ->
  startsWith "ll" (toLowerCase q) = isPlatform ns.
Proof.
  intros H. apply in_qualified in H as (item & _ & ->).
  apply isPlatform_qualified.
Qed.

(** X14. The qualified names are sorted by their namespace: the names
    of the platform vocabularies begin with [ll] in any case, those of
    the Luau vocabularies never do, and every function or constant of a
    library other than [global] is in one of the two (so in exactly
    one). *)
Theorem qualified_names_classified (libs : Libraries) :
  (forall q, In q (platformFunctions libs) \/ In q (platformConstants libs) ->
     startsWith "ll" (toLowerCase q) = true)
  /\ (forall q, In q (luauFunctions libs) \/ In q (luauConstants libs) ->
        startsWith "ll" (toLowerCase q) = false)
  /\ (forall ns lib q,
        In (ns, lib) libs -> ns <> "global" ->
        (In q (qualified ns (functions lib)) ->
         In q (luauFunctions libs) \/ In q (platformFunctions libs))
        /\ (In q (qualified ns (constants lib)) ->
            In q (luauConstants libs) \/ In q (platformConstants libs))).
Proof.
  split; [|split].
  - intros q [H|H].
    + apply (in_platform functions) in H as (ns & lib & _ & Hp & Hq).
      now rewrite (qualified_starts _ _ _ Hq).
    + apply (in_platform constants) in H as (ns & lib & _ & Hp & Hq).
      now rewrite (qualified_starts _ _ _ Hq).
  - intros q [H|H].
    + apply (in_luau functions) in H as (ns & lib & _ & _ & Hp & Hq).
      now rewrite (qualified_starts _ _ _ Hq).
    + apply (in_luau constants) in H as (ns & lib & _ & _ & Hp & Hq).
      now rewrite (qualified_starts _ _ _ Hq).
  - intros ns lib q He Hg. split; intros Hq.
    + destruct (isPlatform ns) eqn:Hp.
      * right. apply (in_platform functions). now exists ns, lib.
      * left. apply (in_luau functions). now exists ns, lib.
    + destruct (isPlatform ns) eqn:Hp.
      * right. apply (in_platform constants). now exists ns, lib.
      * left. apply (in_luau constants). now exists ns, lib.
Qed.

Lemma qualified_names_classified_witness :
  In "ll.Say" (platformFunctions sampleLibraries)
  /\ startsWith "ll" (toLowerCase "ll.Say") = true
  /\ (In "math.max" (luauFunctions sampleLibraries)
      \/ In "math.max" (platformFunctions sampleLibraries)).
Proof.
  assert (H : In "ll.Say" (platformFunctions sampleLibraries))
    by (left; reflexivity).
  split; [exact H|]. split.
  - apply (proj1 (qualified_names_classified sampleLibraries)). now left.
  - apply (proj2 (proj2 (qualified_names_classified sampleLibraries))
             "math"
             (mkLibrary
                (Some [ItemArray [mkDef "abs"; mkDef "acos"];
                       ItemDef (mkDef "max")])
                (Some [ItemDef (mkDef "pi")]))).
    + right. left. reflexivity.
    + discriminate.
    + right. right. left. reflexivity.
Defined.

Lemma pushRule_ruleOf (nm : string) (v : list string) (s s' : list Rule) :
  pushRule nm v s = Return s' -> s' = (s ++ ruleOf nm v)%list.
Proof.
  unfold pushRule, ruleOf. destruct v as [|x v]; cbn [List.length Nat.eqb isNil].
  - intros H. injection H as <-. now rewrite app_nil_r.
  - destruct (createOptimizedRegex (strs (x :: v)) None); [|discriminate].
    intros H. now injection H as <-.
Qed.

Lemma pushRule_completes (nm : string) (v : list string) (s : list Rule) :
  (exists s', pushRule nm v s = Return s') <-> emptyOrUsable v = true.
Proof.
  unfold pushRule, emptyOrUsable.
  destruct v as [|x v]; cbn [List.length Nat.eqb isNil orb]; [split; eauto|].
  rewrite <- (compile_usable (x :: v) None). split.
  - intros [s' H].
    destruct (createOptimizedRegex (strs (x :: v)) None); [eauto|discriminate].
  - intros [p H]. rewrite H. eauto.
Qed.

Lemma dotted_usable (libs : Libraries) (nm : string) (v : list string) :
  In (nm, v) (dottedVocabularies libs) -> emptyOrUsable v = true.
Proof.
  intros Hin. unfold emptyOrUsable.
  destruct (isNil v) eqn:E; [reflexivity|]. cbn [orb].
  apply (compile_usable v None).
  now apply (dotted_vocabulary_compiles libs nm).
Qed.

(** X15. The six guarded pushes that fill [standard] complete exactly
    when each of the two global vocabularies is empty or holds a
    non-empty name (the qualified vocabularies never make them throw);
    the rules are then those of the non-empty vocabularies, at most six,
    in the order of the script. *)
Theorem standard_completes (globalFunctions globalConstants : list string)
    (libs : Libraries) :
  ((exists rules, standard globalFunctions globalConstants libs = Return rules)
   <-> emptyOrUsable globalFunctions && emptyOrUsable globalConstants = true)
  /\ forall rules,
       standard globalFunctions globalConstants libs = Return rules ->
       rules
       = flat_map (fun nv => ruleOf (fst nv) (snd nv))
           (standardVocabularies globalFunctions globalConstants libs)
       /\ List.length rules <= 6.
Proof.
  split.
  - unfold standard. split.
    + intros [rules H].
      apply bind_return in H as (s1 & H1 & H).
      apply bind_return in H as (s2 & H2 & _).
      apply andb_true_iff. split.
      * apply (pushRule_completes "support.function.luau" _ []). eauto.
      * apply (pushRule_completes "constant.language.luau" _ s1). eauto.
    + intros H. apply andb_true_iff in H as [Hf Hc].
      assert (R : forall nm v s, emptyOrUsable v = true ->
                    exists s', pushRule nm v s = Return s')
        by (intros nm v s Hv; now apply pushRule_completes).
      assert (D : forall nm v, In (nm, v) (dottedVocabularies libs) ->
                    emptyOrUsable v = true)
        by (intros nm v; apply dotted_usable).
      destruct (R "support.function.luau" globalFunctions [] Hf) as [s1 H1].
      destruct (R "constant.language.luau" globalConstants s1 Hc) as [s2 H2].
      destruct (R "support.function.luau" (luauFunctions libs) s2) as [s3 H3];
        [apply (D "support.function.luau"); cbn; tauto|].
      destruct (R "support.constant.luau" (luauConstants libs) s3) as [s4 H4];
        [apply (D "support.constant.luau"); cbn; tauto|].
      destruct (R "support.function.luau" (platformFunctions libs) s4)
        as [s5 H5]; [apply (D "support.function.luau"); cbn; tauto|].
      destruct (R "support.constant.luau" (platformConstants libs) s5)
        as [s6 H6]; [apply (D "support.constant.luau"); cbn; tauto|].
      exists s6. rewrite H1. cbn [bind]. rewrite H2. cbn [bind].
      rewrite H3. cbn [bind]. rewrite H4. cbn [bind]. rewrite H5. cbn [bind].
      exact H6.
  - intros rules H. unfold standard in H.
    apply bind_return in H as (s1 & H1 & H).
    apply bind_return in H as (s2 & H2 & H).
    apply bind_return in H as (s3 & H3 & H).
    apply bind_return in H as (s4 & H4 & H).
    apply bind_return in H as (s5 & H5 & H6).
    apply pushRule_ruleOf in H1, H2, H3, H4, H5, H6.
    subst. cbn [app standardVocabularies flat_map fst snd].
    rewrite app_nil_r, <- !app_assoc. split; [reflexivity|].
    rewrite !length_app.
    assert (L : forall nm v, List.length (ruleOf nm v) <= 1).
    { intros nm v. unfold ruleOf. destruct (isNil v); [cbn; lia|].
      destruct (createOptimizedRegex (strs v) None); cbn; lia. }
    pose proof (L "support.function.luau" globalFunctions).
    pose proof (L "constant.language.luau" globalConstants).
    pose proof (L "support.function.luau" (luauFunctions libs)).
    pose proof (L "support.constant.luau" (luauConstants libs)).
    pose proof (L "support.function.luau" (platformFunctions libs)).
    pose proof (L "support.constant.luau" (platformConstants libs)).
    lia.
Qed.

Lemma standard_completes_witness :
  emptyOrUsable [] && emptyOrUsable ["print"; "pcall"] = true
  /\ (exists rules, standard [] ["print"; "pcall"] sampleLibraries = Return rules)
  /\ emptyOrUsable [EmptyString] && emptyOrUsable [] = false
  /\ ~ (exists rules, standard [EmptyString] [] sampleLibraries = Return rules).
Proof.
  split; [reflexivity|]. split.
  - apply (proj1 (standard_completes [] ["print"; "pcall"] sampleLibraries)).
    reflexivity.
  - split; [reflexivity|]. intros H.
    apply (proj1 (standard_completes [EmptyString] [] sampleLibraries)) in H.
    discriminate H.
Defined.

(* ================================================================== *)
(** ** Converting LSL types *)

Lemma hexRun_length (n : nat) :
  forall s s', hexRun n s = Some s' ->
    String.length s = n + String.length s'.
Proof.
  induction n as [|n IH]; intros s s' H; cbn [hexRun] in H.
  - now injection H as ->.
  - destruct s as [|c s]; [discriminate|].
    destruct (isHexDigit c); [|discriminate].
    apply IH in H. cbn [String.length]. lia.
Qed.

Lemma dash_length (s s' : string) :
  dash s = Some s' -> String.length s = 1 + String.length s'.
Proof.
  destruct s as [|c s]; [discriminate|]. cbn [dash].
  destruct (Ascii.eqb c "-"); [|discriminate].
  intros H. now injection H as ->.
Qed.

Lemma andThen_some (m : option string) (k : string -> option string)
    (s' : string) :
  andThen m k = Some s' -> exists s, m = Some s /\ k s = Some s'.
Proof. destruct m as [s|]; [eauto|discriminate]. Qed.

(** X16. Only a string of 36 characters is taken for a UUID: eight,
    four, four, four and twelve hexadecimal digits with a dash between
    the groups. *)
Theorem uuid_format_length (value : string) :
  isUuidFormat value = true ->
  String.length value = 36
  /\ get 8 value = Some "-"%char /\ get 13 value = Some "-"%char
  /\ get 18 value = Some "-"%char /\ get 23 value = Some "-"%char.
Proof.
  unfold isUuidFormat.
  destruct (andThen _ _) as [[|c s]|] eqn:E; try discriminate. intros _.
  apply andThen_some in E as (s8 & E & H9).
  apply andThen_some in E as (s7 & E & H8).
  apply andThen_some in E as (s6 & E & H7).
  apply andThen_some in E as (s5 & E & H6).
  apply andThen_some in E as (s4 & E & H5).
  apply andThen_some in E as (s3 & E & H4).
  apply andThen_some in E as (s2 & E & H3).
  apply andThen_some in E as (s1 & H1 & H2).
  assert (G : forall n s s', hexRun n s = Some s' ->
                forall k, get (n + k) s = get k s').
  { induction n as [|n IH]; intros s s' H k; cbn [hexRun] in H.
    - now injection H as ->.
    - destruct s as [|c s]; [discriminate|].
      destruct (isHexDigit c); [|discriminate]. cbn. now apply IH. }
  assert (D : forall s s', dash s = Some s' ->
                get 0 s = Some "-"%char /\ forall k, get (S k) s = get k s').
  { intros s s' H. destruct s as [|c s]; [discriminate|]. cbn [dash] in H.
    destruct (Ascii.eqb_spec c "-") as [->|]; [|discriminate].
    injection H as ->. now split. }
  pose proof (hexRun_length _ _ _ H1). pose proof (dash_length _ _ H2).
  pose proof (hexRun_length _ _ _ H3). pose proof (dash_length _ _ H4).
  pose proof (hexRun_length _ _ _ H5). pose proof (dash_length _ _ H6).
  pose proof (hexRun_length _ _ _ H7). pose proof (dash_length _ _ H8).
  pose proof (hexRun_length _ _ _ H9). cbn [String.length] in *.
  split; [lia|].
  destruct (D _ _ H2) as [D2 S2]. destruct (D _ _ H4) as [D4 S4].
  destruct (D _ _ H6) as [D6 S6]. destruct (D _ _ H8) as [D8 S8].
  repeat split.
  - now rewrite (G 8 _ _ H1 0 : get 8 value = _).
  - rewrite (G 8 _ _ H1 5 : get 13 value = _), S2.
    now rewrite (G 4 _ _ H3 0 : get 4 s2 = _).
  - rewrite (G 8 _ _ H1 10 : get 18 value = _), S2.
    rewrite (G 4 _ _ H3 5 : get 9 s2 = _), S4.
    now rewrite (G 4 _ _ H5 0 : get 4 s4 = _).
  - rewrite (G 8 _ _ H1 15 : get 23 value = _), S2.
    rewrite (G 4 _ _ H3 10 : get 14 s2 = _), S4.
    rewrite (G 4 _ _ H5 5 : get 9 s4 = _), S6.
    now rewrite (G 4 _ _ H7 0 : get 4 s6 = _).
Qed.

Lemma uuid_format_length_witness :
  isUuidFormat "3d6181b0-6a4b-97ef-18d8-722652995cf1" = true
  /\ String.length "3d6181b0-6a4b-97ef-18d8-722652995cf1" = 36
  /\ isUuidFormat "3d6181b0-6a4b-97ef-18d8-722652995cf1 " = false.
Proof.
  split; [reflexivity|]. split; [|reflexivity].
  apply (uuid_format_length "3d6181b0-6a4b-97ef-18d8-722652995cf1").
  reflexivity.
Defined.

(** X17. [convertType] never returns an LSL type name that has another
    name in SLua (key, rotation, integer, float, list), leaves every type
    outside its table as it is, returns [uuid] exactly for [key], [uuid]
    and a [string] whose value has the UUID format, and converting its
    result again changes nothing. *)
Theorem convertType_target (type : string) (value : JsValue) :
  ~ In (convertType type value) lslOnlyTypes
  /\ (~ In type ("string" :: lslOnlyTypes) -> convertType type value = type)
  /\ (convertType type value = "uuid"
      <-> type = "key" \/ type = "uuid"
          \/ (type = "string"
              /\ exists v, value = JString v /\ isUuidFormat v = true))
  /\ convertType (convertType type value) value = convertType type value.
Proof.
  unfold convertType, lslOnlyTypes.
  destruct (String.eqb_spec type "string") as [->|N1].
  - cbn [andb].
    destruct value as [| |b|z|v|l]; cbn [typeofString andb];
      try (repeat split; cbn; intuition (try discriminate);
           match goal with H : exists _, _ |- _ => destruct H as (? & ? & _);
             discriminate end).
    destruct (isUuidFormat v) eqn:U.
    + repeat split; cbn; try (intuition discriminate).
      intros _. right. right. split; [reflexivity|]. now exists v.
    + repeat split; cbn; try (intuition discriminate).
      intros [H|[H|[_ (v' & E & U')]]]; try discriminate.
      injection E as <-. congruence.
  - cbn [andb].
    destruct (String.eqb_spec type "key") as [->|N2];
      [repeat split; cbn; intuition discriminate|].
    destruct (String.eqb_spec type "rotation") as [->|N3];
      [repeat split; cbn; intuition discriminate|].
    destruct (String.eqb_spec type "integer") as [->|N4];
      [repeat split; cbn; intuition discriminate|].
    destruct (String.eqb_spec type "float") as [->|N5];
      [repeat split; cbn; intuition discriminate|].
    destruct (String.eqb_spec type "vector") as [->|N6];
      [repeat split; cbn; intuition discriminate|].
    destruct (String.eqb_spec type "list") as [->|N7];
      [repeat split; cbn; intuition discriminate|].
    destruct (String.eqb_spec type "boolean") as [->|N8];
      [repeat split; cbn; intuition discriminate|].
    apply String.eqb_neq in N1, N2, N3, N4, N5, N6, N7, N8.
    rewrite N1, N2, N3, N4, N5, N6, N7, N8. cbn [andb].
    apply String.eqb_neq in N1, N2, N3, N4, N5, N6, N7, N8.
    repeat split; cbn; try tauto; intuition congruence.
Qed.

Lemma convertType_target_witness :
  ~ In "vector" ("string" :: lslOnlyTypes)
  /\ convertType "vector" JUndefined = "vector"
  /\ convertType "string" (JString "3d6181b0-6a4b-97ef-18d8-722652995cf1")
     = "uuid".
Proof.
  split; [cbn; intuition discriminate|]. split.
  - apply (proj1 (proj2 (convertType_target "vector" JUndefined))).
    cbn; intuition discriminate.
  - apply (proj1 (proj2 (proj2 (convertType_target "string"
             (JString "3d6181b0-6a4b-97ef-18d8-722652995cf1"))))).
    right. right. split; [reflexivity|].
    now exists "3d6181b0-6a4b-97ef-18d8-722652995cf1".
Defined.

(* ================================================================== *)
(** ** Case-sensitive use of a case-insensitive pattern *)

(** X18. Matched case-sensitively, the pattern compiled without word
    boundaries accepts exactly the processed words: with
    [caseInsensitive] set these are the lower-cased words, so a word with
    an upper-case letter is not matched unless the caller ignores
    case. *)
Theorem case_sensitive_whole_match (elems : list JsValue) (ci : option bool) :
  isNil (filterDedup elems) = false ->
  exists pattern,
    createOptimizedRegex (JArray elems) (Some (mkOptions (Some false) ci))
    = Return pattern
    /\ forall s,
         matchesWhole false pattern s = true
         <-> In s (map (processed (orDefault ci false)) (filterDedup elems)).
Proof.
  intros HV. eexists.
  split; [now apply createOptimizedRegex_returns|].
  cbn [optionsOr wordBoundaries orDefault]. unfold bodyOf.
  cbn [optionsOr caseInsensitive]. intros s.
  set (c := orDefault ci false).
  unfold matchesWhole. rewrite (parse_terms _ _ (proj1 (trie_renders _))).
  rewrite existsb_exists. split.
  - intros (st' & Hin & He).
    apply (body_success c elems _ _ HV) in Hin as (w & Hw & Hs & _).
    cbn [snd] in Hs. destruct (snd st'); [|discriminate].
    rewrite append_nil_r in Hs. now subst.
  - intros Hw. exists (lastOf None s, EmptyString). split; [|reflexivity].
    apply (body_success c elems _ _ HV). exists s. cbn [fst snd].
    rewrite append_nil_r. now repeat split.
Qed.

Lemma case_sensitive_whole_match_witness :
  isNil (filterDedup [JString "Abs"]) = false
  /\ exists pattern,
       createOptimizedRegex (JArray [JString "Abs"])
         (Some (mkOptions (Some false) (Some true))) = Return pattern
       /\ matchesWhole false pattern "Abs" = false
       /\ matchesWhole false pattern "abs" = true.
Proof.
  split; [reflexivity|].
  destruct (case_sensitive_whole_match [JString "Abs"] (Some true))
    as (p & Hp & _); [reflexivity|].
  exists p. split; [exact Hp|].
  cbv in Hp. injection Hp as <-. split; reflexivity.
Defined.
